(** * mod_rrd: the graph-specification compiler of [mod_rrd.c]

    A shallow embedding of the parser, the resolver and the generator of
    [mod_rrd.c], of its request handler and of its configuration
    directives, and the properties of its specification that can be
    settled on it.

    Conventions of the embedding.
    - A C string is a [string]; a pointer into the middle of a buffer is
      the suffix that starts there.
    - The anonymous union of [rrd_cmd_t] is kept as storage: a row of
      eight pointer-sized slots, and every member of every struct of the
      union is the index of the slot it occupies.  Reading and writing a member
      reads and writes that slot, whatever member wrote it last.
    - Pointers to commands ([def], [ref]) are indices into [cmds->cmds].
    - The arrays [d.requests] and [c.rpns] of an element of the
      configuration are the ones of its copy in the command list of a
      request: the handler returns, with its response, the configuration
      as the request leaves it.
    - httpd and APR are outside the module: the functions the module calls
      for expression evaluation, wildcard matching and URL decoding are the
      fields of a [host]; the small string helpers ([ap_getword],
      [apr_cstr_tokenize], [ap_strstr_c], [strncmp]) are written out after
      their library sources. *)

From Stdlib Require Import String Ascii List Arith ZArith Lia DecimalString.
From stdpp Require Import base option list strings gmap fin vector.

Local Open Scope string_scope.
Local Open Scope list_scope.

(** ** C string helpers *)

Module CStr.

(** [printf]'s [%d] for a non-negative [int] *)
Definition dec (n : nat) : string := NilEmpty.string_of_uint (Nat.to_uint n).
#[global] Arguments dec : simpl never.

(** [strncmp(s1, s2, n) == 0] *)
Fixpoint strncmp0 (s1 s2 : string) (n : nat) {struct n} : bool :=
  match n with
  | 0 => true
  | S n' =>
      match s1, s2 with
      | "", "" => true
      | String a s1', String b s2' =>
          if Ascii.eqb a b then strncmp0 s1' s2' n' else false
      | _, _ => false
      end
  end.

(** [s + n], for [n] no larger than the length of [s] *)
Fixpoint advance (n : nat) (s : string) : string :=
  match n, s with
  | S n', String _ s' => advance n' s'
  | _, _ => s
  end.

(** the loop [while ( *pos == c) ++pos;] *)
Fixpoint skip_char (c : ascii) (s : string) : string :=
  match s with
  | String a s' => if Ascii.eqb a c then skip_char c s' else s
  | "" => ""
  end.

(** httpd's [ap_getword(p, &line, stop)]: the text before the first [stop],
    and the line advanced past that text and past every [stop] that
    follows it. *)
Fixpoint ap_getword (line : string) (stop : ascii) : string * string :=
  match line with
  | "" => ("", "")
  | String a line' =>
      if Ascii.eqb a stop then ("", skip_char stop line)
      else let (res, rest) := ap_getword line' stop in (String a res, rest)
  end.

(** [strchr(token, csep)] as the text before the separator and, when the
    separator is there, the text after it. *)
Fixpoint strchr_split (token : string) (csep : ascii) : string * option string :=
  match token with
  | "" => ("", None)
  | String a token' =>
      if Ascii.eqb a csep then ("", Some token')
      else let (t, next) := strchr_split token' csep in (String a t, next)
  end.

(** APR's [apr_cstr_tokenize(sep, &str)] for a one-character [sep] and a
    [str] that is not NULL.  The result is the token ([None] for NULL) and
    the new value of [*str]: left as it was when there is no token, the
    text after the separator when the token ends at one, and the empty
    string at the terminator of the buffer (a pointer that is not NULL)
    when the token is the last one. *)
Definition apr_cstr_tokenize (csep : ascii) (str : string) : option string * string :=
  match skip_char csep str with
  | "" => (None, str)
  | token =>
      match strchr_split token csep with
      | (t, None) => (Some t, "")
      | (t, Some next) => (Some t, next)
      end
  end.

(** [while ((tok = apr_cstr_tokenize(sep, &str))) ...] collecting the
    tokens; the fuel bounds the number of iterations. *)
Fixpoint tokens (fuel : nat) (csep : ascii) (str : string) : list string :=
  match fuel with
  | 0 => []
  | S fuel' =>
      match apr_cstr_tokenize csep str with
      | (None, _) => []
      | (Some tok, str') => tok :: tokens fuel' csep str'
      end
  end.

(** [ap_strstr_c(s, sub)]: the suffix of [s] at the first occurrence of
    [sub], [None] for NULL. *)
Fixpoint ap_strstr_c (s sub : string) : option string :=
  if String.prefix sub s then Some s
  else match s with
       | "" => None
       | String _ s' => ap_strstr_c s' sub
       end.

(** [strrchr(s, c)], as the text before the last [c]: what
    [apr_pstrndup(p, s, last - s)] copies. *)
Fixpoint before_last (s : string) (c : ascii) : option string :=
  match s with
  | "" => None
  | String a s' =>
      match before_last s' c with
      | Some p => Some (String a p)
      | None => if Ascii.eqb a c then Some "" else None
      end
  end.

(** [apr_array_pstrcat(p, arr, sep)] *)
Fixpoint apr_array_pstrcat (arr : list string) (sep : string) : string :=
  match arr with
  | [] => ""
  | [x] => x
  | x :: arr' => x +:+ sep +:+ apr_array_pstrcat arr' sep
  end.

End CStr.
Import CStr.

(** ** Token and quoting utilities *)

(** [substring_quote(p, start, len, quote)]; [quote] is ["000"] when the
    caller passes 0.  [start] is the buffer from the first character on:
    the loop looks one character past the one it copies. *)
Fixpoint substring_quote (start : string) (len : nat) (quote : ascii) : string :=
  match len with
  | 0 => ""
  | S n =>
      match start with
      | "" => ""
      | String a rest =>
          match rest with
          | String b rest' =>
              if Ascii.eqb a "\" &&
                 (Ascii.eqb b "\" || (negb (Ascii.eqb quote "000") && Ascii.eqb b quote))
              then String b (match n with
                             | 0 => ""
                             | S m => substring_quote rest' m quote
                             end)
              else String a (substring_quote rest n quote)
          | "" => String a (substring_quote rest n quote)
          end
      end
  end.

(** The first loop of the quoted branch of [getword_quote]: from
    [strend = str + 1], the number of characters up to the closing quote
    and the text from there on. *)
Fixpoint quoted_end (fuel : nat) (strend : string) (quote : ascii) : nat * string :=
  match fuel with
  | 0 => (0, strend)
  | S fuel' =>
      match strend with
      | "" => (0, "")
      | String a rest =>
          if Ascii.eqb a quote then (0, strend)
          else
            match rest with
            | String b rest' =>
                if Ascii.eqb a "\" && (Ascii.eqb b quote || Ascii.eqb b "\")
                then let (n, e) := quoted_end fuel' rest' quote in (S (S n), e)
                else let (n, e) := quoted_end fuel' rest quote in (S n, e)
            | "" => let (n, e) := quoted_end fuel' rest quote in (S n, e)
            end
      end
  end.

(** the loop [while ( *strend && *strend != stop) ++strend;] with the count *)
Fixpoint scan_to (strend : string) (stop : ascii) : nat * string :=
  match strend with
  | "" => (0, "")
  | String a rest =>
      if Ascii.eqb a stop then (0, strend)
      else let (n, e) := scan_to rest stop in (S n, e)
  end.

(** [getword_quote(p, &line, stop)]: the word and the new [*line] *)
Definition getword_quote (line : string) (stop : ascii) : string * string :=
  match line with
  | "" => ("", "")
  | String quote str1 =>
      let (res, strend) :=
        if Ascii.eqb quote "034" || Ascii.eqb quote "'" then
          let (n, strend) := quoted_end (String.length str1) str1 quote in
          let res := substring_quote str1 n quote in
          let strend := match strend with
                        | String a rest => if Ascii.eqb a quote then rest else strend
                        | "" => ""
                        end in
          (res, snd (scan_to strend stop))
        else
          let (n, strend) := scan_to line stop in
          (substring_quote line n "000", strend) in
      let strend := match strend with
                    | String a rest => if Ascii.eqb a stop then rest else strend
                    | "" => ""
                    end in
      (res, strend)
  end.

Inductive apr_status_t := APR_SUCCESS | APR_NOTFOUND.

(** The two loops of [escape_colon], which differ in the write through
    [d] only: the characters written, the size and [found]. *)
Fixpoint escape_colon_loop (s : string) (slen : Z) (size : nat) (found : bool)
  : string * nat * bool :=
  match s with
  | "" => ("", size, found)
  | String c s' =>
      if (slen =? 0)%Z then ("", size, found)
      else if Ascii.eqb ":" c then
        let '(d, size', found') := escape_colon_loop s' (slen - 1) (S (S size)) true in
        (String "\" (String c d), size', found')
      else
        let '(d, size', found') := escape_colon_loop s' (slen - 1) (S size) found in
        (String c d, size', found')
  end.

Definition APR_ESCAPE_STRING : Z := -1.

(** [escape_colon(escaped, str, slen, &len)]: [escaped] says whether a
    buffer is passed; the result is the status, the contents of the
    buffer and [*len]. *)
Definition escape_colon (escaped : bool) (str : option string) (slen : Z)
  : apr_status_t * option string * nat :=
  let '(d, size, found) :=
    match str with
    | Some s => escape_colon_loop s slen 1 false
    | None => ("", 1, false)
    end in
  (if found then APR_SUCCESS else APR_NOTFOUND,
   if escaped then match str with Some _ => Some d | None => None end else None,
   size).

Definition pescape_colon (str : string) : string :=
  match escape_colon false (Some str) APR_ESCAPE_STRING with
  | (APR_SUCCESS, _, len) =>
      match escape_colon true (Some str) APR_ESCAPE_STRING with
      | (_, Some cmd, _) => cmd
      | (_, None, _) => str
      end
  | (APR_NOTFOUND, _, _) => str
  end.

(** ** Results *)

Inductive http_status := HTTP_BAD_REQUEST | HTTP_INTERNAL_SERVER_ERROR.

(** What a stage returns: [OK] with its value; a status other than [OK],
    with the message handed to [log_message]; or [Fault], where the C code
    dereferences a NULL pointer or reads past an array. *)
Inductive result (A : Type) : Type :=
  | OK (a : A)
  | Failed (status : http_status) (message : string)
  | Fault.
Arguments OK {A} a.
Arguments Failed {A} status message.
Arguments Fault {A}.

#[global] Instance result_ret : MRet result := fun A a => OK a.
#[global] Instance result_bind : MBind result := fun A B f m =>
  match m with
  | OK a => f a
  | Failed st msg => Failed st msg
  | Fault => Fault
  end.

Inductive expr_result := Value (s : string) | ExprError (err : string).

(** ** The host *)

(** httpd as the module sees it.
    - [ap_expr_str_exec r e]: the value of the expression, or [*err].
    - [ap_dir_fnmatch dirpath path]: the file names the wildcard walk hands
      to its callback, in order, and the error it returns, if any.
    - [ap_sub_req_lookup_file fname r] and [status] of the sub-request.
    - [subprocess_env_setn r key val]: [apr_table_setn(r->subprocess_env, key, val)].
    - [apr_punescape_url]: [None] for NULL. *)
Class host := Host {
  ap_expr_info_t : Type;
  request_rec : Type;
  filename : request_rec -> string;
  args : request_rec -> option string;
  status_ok : request_rec -> bool;
  ap_expr_str_exec : request_rec -> ap_expr_info_t -> expr_result;
  ap_dir_fnmatch : string -> string -> list string * option string;
  ap_sub_req_lookup_file : string -> request_rec -> request_rec;
  subprocess_env_setn : request_rec -> string -> string -> request_rec;
  apr_punescape_url : string -> option string;
}.

(** ** Data model *)

Inductive rrd_conf_e :=
  | RRD_CONF_DEF
  | RRD_CONF_CDEF
  | RRD_CONF_VDEF
  | RRD_CONF_PRINT
  | RRD_CONF_GPRINT
  | RRD_CONF_COMMENT
  | RRD_CONF_VRULE
  | RRD_CONF_HRULE
  | RRD_CONF_LINE
  | RRD_CONF_AREA
  | RRD_CONF_TICK
  | RRD_CONF_SHIFT
  | RRD_CONF_TEXTALIGN.

#[global] Instance rrd_conf_e_eq_dec : EqDecision rrd_conf_e.
Proof. solve_decision. Defined.

(** [rrd_rpn_t]: the token and the backing DEF, as an index into the
    command array *)
Record rrd_rpn_t := Rpn { rpn : string; rpn_def : option nat }.

(** Member offsets, in pointers, of the structs of the union *)
Abbreviation member := (fin 8).

Module d.
Definition vname : member := 0%fin.
Definition path : member := 1%fin.
Definition dsname : member := 2%fin.
Definition cf : member := 3%fin.
Definition pool : member := 4%fin.
Definition requests : member := 5%fin.
Definition epath : member := 6%fin.
Definition edirpath : member := 7%fin.
End d.
Module v.
Definition vname : member := 0%fin.
Definition dsname : member := 1%fin.
Definition rpn : member := 2%fin.
Definition ref : member := 3%fin.
End v.
Module c.
Definition vname : member := 0%fin.
Definition rpns : member := 1%fin.
Definition rpn : member := 2%fin.
Definition ref : member := 3%fin.
End c.
Module l.
Definition line : member := 0%fin.
Definition vname : member := 1%fin.
Definition colour : member := 2%fin.
Definition legend : member := 3%fin.
Definition elegend : member := 4%fin.
Definition args : member := 5%fin.
End l.
Module a.
Definition vname : member := 0%fin.
Definition colour : member := 1%fin.
Definition legend : member := 2%fin.
Definition elegend : member := 3%fin.
Definition args : member := 4%fin.
End a.
Module t.
Definition vname : member := 0%fin.
Definition colour : member := 1%fin.
Definition fraction : member := 2%fin.
Definition legend : member := 3%fin.
Definition elegend : member := 4%fin.
Definition args : member := 5%fin.
End t.
Module s.
Definition vname : member := 0%fin.
Definition shift : member := 1%fin.
End s.
Module p.
Definition vname : member := 0%fin.
Definition format : member := 1%fin.
End p.
Module r.
Definition val : member := 0%fin.
Definition colour : member := 1%fin.
Definition legend : member := 2%fin.
Definition elegend : member := 3%fin.
Definition args : member := 4%fin.
End r.
Module e.
Definition element : member := 0%fin.
Definition legend : member := 1%fin.
Definition elegend : member := 2%fin.
End e.

(** The option keys of [parse_option], in the order of the source *)
Definition keys_with_value : list string :=
  [ "border"; "color"; "font"; "font-render-mode"; "font-smoothing-threshold";
    "graph-render-mode"; "height"; "left-axis-format"; "lower-limit";
    "right-axis"; "right-axis-label"; "right-axis-format"; "step";
    "tabwidth"; "title"; "units-exponent"; "units-length"; "vertical-label";
    "width"; "watermark"; "x-grid"; "y-grid"; "zoom" ].

Definition keys_without_value : list string :=
  [ "alt-y-grid"; "alt-autoscale"; "alt-autoscale-max"; "full-size-mode";
    "force-rules-legend"; "logarithmic"; "lazy"; "no-legend"; "no-gridfit";
    "only-graph"; "pango-markup"; "rigid"; "slope-mode"; "upper-limit";
    "use-nan-for-all-missing-data" ].

Section compiler.

Context `{H : host}.

(** A pointer-sized value of the union: NULL, a string, an expression,
    the [rpns] array, the [requests] array, a command, a pool. *)
Inductive word :=
  | NULL
  | Str (str : string)
  | Expr (expr : ap_expr_info_t)
  | Rpns (arr : list rrd_rpn_t)
  | Requests (arr : list (request_rec))
  | Ref (cmd : nat)
  | Pool.

(** [rrd_cmd_t]; [num] counts array elements and is a [nat] *)
Record rrd_cmd_t := Cmd {
  type : rrd_conf_e;
  num : nat;
  def : option nat;
  u : vec word 8;
}.

Record rrd_opt_t := Opt {
  key : string;
  val : option string;
  eval : option (ap_expr_info_t);
}.

Record rrd_cmds_t := Cmds {
  cmds : list rrd_cmd_t;
  opts : list rrd_opt_t;
  names : gmap string nat;
}.

(** The fields of [rrd_conf] the compiler reads; [env] in the order
    [apr_hash_first]/[apr_hash_next] walk it. *)
Record rrd_conf := Conf {
  options : list rrd_opt_t;
  elements : list rrd_cmd_t;
  env : list (string * ap_expr_info_t);
  format : option string;
}.

(** What [apr_array_push] returns on the zeroed arrays of [parse_query] *)
Definition zeroed : rrd_cmd_t :=
  {| type := RRD_CONF_DEF; num := 0; def := None; u := vreplicate 8 NULL |}.

(** [cmd->m] for a member [m] of the union *)
Definition get (cmd : rrd_cmd_t) (m : member) : word := u cmd !!! m.

(** [cmd->m = w] *)
Definition set (m : member) (w : word) (cmd : rrd_cmd_t) : rrd_cmd_t :=
  {| type := type cmd; num := num cmd; def := def cmd; u := vinsert m w (u cmd) |}.

Definition set_type (ty : rrd_conf_e) (cmd : rrd_cmd_t) : rrd_cmd_t :=
  {| type := ty; num := num cmd; def := def cmd; u := u cmd |}.

Definition set_num (n : nat) (cmd : rrd_cmd_t) : rrd_cmd_t :=
  {| type := type cmd; num := n; def := def cmd; u := u cmd |}.

Definition set_def (dp : option nat) (cmd : rrd_cmd_t) : rrd_cmd_t :=
  {| type := type cmd; num := num cmd; def := dp; u := u cmd |}.

Definition of_str (o : option string) : word :=
  match o with Some str => Str str | None => NULL end.

Definition of_expr (o : option (ap_expr_info_t)) : word :=
  match o with Some expr => Expr expr | None => NULL end.

Definition is_null (w : word) : bool :=
  match w with NULL => true | _ => false end.

(** [%s] of [apr_psprintf]: the string; APR's formatter prints a NULL
    string as [(null)].  Every [%s] of the module is given a member
    declared [const char *]. *)
Definition fmt_s (w : word) : string :=
  match w with Str str => str | _ => "(null)" end.

(** [w[0] ? yes : no], for a member that holds a string *)
Definition if_first (w : word) (yes no : string) : string :=
  match w with Str (String _ _) => yes | _ => no end.

(** ** Element parser *)

(** [parse_element(p, element, expr1, expr2, cmds)]: [Some] of the array
    with the command pushed when it returns 1, [None] when it returns 0. *)
Definition parse_element (element : string)
    (expr1 expr2 : option (ap_expr_info_t)) (cmds : list rrd_cmd_t)
  : option (list rrd_cmd_t) :=
  let push cmd := Some (cmds ++ [cmd])%list in
  match element with
  | "" => None
  | String c0 _ =>
      if Ascii.eqb c0 "A" then
        if strncmp0 element "AREA:" 5 then
          let cmd := set_type RRD_CONF_AREA zeroed in
          let element := advance 5 element in
          let (vncol, element) := ap_getword element ":" in
          let (legend, element) := getword_quote element ":" in
          let cmd := set a.legend (Str legend) cmd in
          let cmd := set a.elegend (of_expr expr1) cmd in
          let cmd := set a.args (Str element) cmd in
          let (vname, vncol) := apr_cstr_tokenize "#" vncol in
          let cmd := set a.vname (of_str vname) cmd in
          let cmd := set a.colour (Str vncol) cmd in
          push cmd
        else None
      else if Ascii.eqb c0 "C" then
        if strncmp0 element "CDEF:" 5 then
          let cmd := set_type RRD_CONF_CDEF zeroed in
          let element := advance 5 element in
          let (vname, element) := ap_getword element "=" in
          let cmd := set c.vname (Str vname) cmd in
          let cmd := set c.rpn (Str element) cmd in
          let rpns := tokens (S (String.length element)) "," element in
          let cmd := set c.rpns (Rpns ((fun tok => Rpn tok None) <$> rpns)) cmd in
          push cmd
        else if strncmp0 element "COMMENT:" 7 then
          let cmd := set_type RRD_CONF_COMMENT zeroed in
          let (word, element) := ap_getword element ":" in
          let cmd := set e.element (Str word) cmd in
          let (legend, element) := getword_quote element ":" in
          let cmd := set a.legend (Str legend) cmd in
          let cmd := set e.elegend (of_expr expr1) cmd in
          push cmd
        else None
      else if Ascii.eqb c0 "D" then
        if strncmp0 element "DEF:" 4 then
          let cmd := set_type RRD_CONF_DEF zeroed in
          let element := advance 4 element in
          let (vname, element) := ap_getword element "=" in
          let cmd := set d.vname (Str vname) cmd in
          let (path, element) := ap_getword element ":" in
          let cmd := set d.path (Str path) cmd in
          let (dsname, element) := ap_getword element ":" in
          let cmd := set d.dsname (Str dsname) cmd in
          let cmd := set d.cf (Str element) cmd in
          let cmd := set d.pool Pool cmd in
          let cmd := set d.requests (Requests []) cmd in
          let cmd := set d.epath (of_expr expr1) cmd in
          let cmd := set d.edirpath (of_expr expr2) cmd in
          push cmd
        else None
      else if Ascii.eqb c0 "G" then
        if strncmp0 element "GPRINT:" 7 then
          let cmd := set_type RRD_CONF_GPRINT zeroed in
          let element := advance 7 element in
          let (vname, element) := ap_getword element ":" in
          let cmd := set p.vname (Str vname) cmd in
          let cmd := set p.format (Str element) cmd in
          push cmd
        else None
      else if Ascii.eqb c0 "H" then
        if strncmp0 element "HRULE:" 6 then
          let cmd := set_type RRD_CONF_HRULE zeroed in
          let element := advance 6 element in
          let (vncol, element) := ap_getword element ":" in
          let (legend, element) := getword_quote element ":" in
          let cmd := set r.legend (Str legend) cmd in
          let cmd := set r.elegend (of_expr expr1) cmd in
          let cmd := set r.args (Str element) cmd in
          let (val, vncol) := apr_cstr_tokenize "#" vncol in
          let cmd := set r.val (of_str val) cmd in
          let cmd := set r.colour (Str vncol) cmd in
          push cmd
        else None
      else if Ascii.eqb c0 "L" then
        if strncmp0 element "LINE" 4 then
          let cmd := set_type RRD_CONF_LINE zeroed in
          let (line, element) := ap_getword element ":" in
          let cmd := set l.line (Str line) cmd in
          let (vncol, element) := ap_getword element ":" in
          let (legend, element) := getword_quote element ":" in
          let cmd := set l.legend (Str legend) cmd in
          let cmd := set l.elegend (of_expr expr1) cmd in
          let cmd := set l.args (Str element) cmd in
          let (vname, vncol) := apr_cstr_tokenize "#" vncol in
          let cmd := set l.vname (of_str vname) cmd in
          let cmd := set l.colour (Str vncol) cmd in
          let cmd := set l.elegend (of_expr expr1) cmd in
          push cmd
        else None
      else if Ascii.eqb c0 "P" then
        if strncmp0 element "PRINT:" 6 then
          let cmd := set_type RRD_CONF_PRINT zeroed in
          let element := advance 6 element in
          let (vname, element) := ap_getword element ":" in
          let cmd := set p.vname (Str vname) cmd in
          let cmd := set p.format (Str element) cmd in
          push cmd
        else None
      else if Ascii.eqb c0 "S" then
        if strncmp0 element "SHIFT:" 6 then
          let cmd := set_type RRD_CONF_SHIFT zeroed in
          let element := advance 6 element in
          let (vname, element) := ap_getword element ":" in
          let cmd := set s.vname (Str vname) cmd in
          let cmd := set s.shift (Str element) cmd in
          push cmd
        else None
      else if Ascii.eqb c0 "T" then
        if strncmp0 element "TICK:" 5 then
          let cmd := set_type RRD_CONF_TICK zeroed in
          let element := advance 5 element in
          let (vncol, element) := ap_getword element ":" in
          let (fraction, element) := ap_getword element ":" in
          let cmd := set t.fraction (Str fraction) cmd in
          let (legend, element) := getword_quote element ":" in
          let cmd := set t.legend (Str legend) cmd in
          let cmd := set t.elegend (of_expr expr1) cmd in
          let cmd := set t.args (Str element) cmd in
          let (vname, vncol) := apr_cstr_tokenize "#" vncol in
          let cmd := set t.vname (of_str vname) cmd in
          let cmd := set t.colour (Str vncol) cmd in
          push cmd
        else if strncmp0 element "TEXTALIGN:" 10 then
          let cmd := set_type RRD_CONF_TEXTALIGN zeroed in
          let (word, element) := ap_getword element ":" in
          let cmd := set e.element (Str word) cmd in
          let (legend, element) := getword_quote element ":" in
          let cmd := set a.legend (Str legend) cmd in
          let cmd := set e.elegend (of_expr expr1) cmd in
          push cmd
        else None
      else if Ascii.eqb c0 "V" then
        if strncmp0 element "VDEF:" 5 then
          let cmd := set_type RRD_CONF_VDEF zeroed in
          let element := advance 5 element in
          let (vname, element) := ap_getword element "=" in
          let cmd := set v.vname (Str vname) cmd in
          let (dsname, element) := ap_getword element "," in
          let cmd := set v.dsname (Str dsname) cmd in
          let cmd := set v.rpn (Str element) cmd in
          push cmd
        else if strncmp0 element "VRULE:" 6 then
          let cmd := set_type RRD_CONF_VRULE zeroed in
          let element := advance 6 element in
          let (vncol, element) := ap_getword element ":" in
          let (legend, element) := getword_quote element ":" in
          let cmd := set r.legend (Str legend) cmd in
          let cmd := set r.elegend (of_expr expr1) cmd in
          let cmd := set r.args (Str element) cmd in
          let (val, vncol) := apr_cstr_tokenize "#" vncol in
          let cmd := set r.val (of_str val) cmd in
          let cmd := set r.colour (Str vncol) cmd in
          push cmd
        else None
      else None
  end.

(** ** Option parser *)

(** [parse_option(p, key, val, eval, opts)]: the [switch] on [key[0]] and
    the [strcmp] chains are membership in the two key tables. *)
Definition parse_option (key : string) (val : option string)
    (eval : option (ap_expr_info_t)) (opts : list rrd_opt_t)
  : option (list rrd_opt_t) :=
  match val with
  | Some _ =>
      if bool_decide (key ∈ keys_with_value)
      then Some (opts ++ [Opt key val eval])%list
      else None
  | None =>
      if bool_decide (key ∈ keys_without_value)
      then Some (opts ++ [Opt key None None])%list
      else None
  end.

(** ** Specification assembler *)

(** The second [while] of [parse_query]: one iteration per token of the
    query string. *)
Fixpoint parse_query_loop (fuel : nat) (args : string) (st : rrd_cmds_t)
  : result rrd_cmds_t :=
  match fuel with
  | 0 => OK st
  | S fuel' =>
      match apr_cstr_tokenize "&" args with
      | (None, _) => OK st
      | (Some arg, args) =>
          match arg with
          | "" => parse_query_loop fuel' args st
          | _ =>
              match apr_punescape_url arg with
              | None =>
                  Failed HTTP_BAD_REQUEST
                    ("The following element could not be unescaped: " +:+ arg)
              | Some element =>
                  match parse_element element None None (cmds st) with
                  | Some cmds' =>
                      parse_query_loop fuel' args
                        (Cmds cmds' (opts st) (names st))
                  | None =>
                      let (key, element) := apr_cstr_tokenize "=" element in
                      let val := element in
                      match key with
                      | None => Fault
                      | Some key =>
                          match parse_option key (Some val) None (opts st) with
                          | Some opts' =>
                              parse_query_loop fuel' args
                                (Cmds (cmds st) opts' (names st))
                          | None =>
                              Failed HTTP_BAD_REQUEST
                                ("Query was not recognised: " +:+ arg)
                          end
                      end
                  end
              end
          end
      end
  end.

(** [parse_query(r, &cmds)]; [conf] is the module configuration of [r].
    The first [while] only sizes the two arrays. *)
Definition parse_query (r : request_rec) (conf : rrd_conf) : result rrd_cmds_t :=
  let cmds := Cmds (elements conf) (options conf) ∅ in
  match args r with
  | None => OK cmds
  | Some args => parse_query_loop (S (String.length args)) args cmds
  end.

(** ** Resolver *)

(** The command at [cmds->cmds->elts[i]] *)
Definition cmd_at (st : rrd_cmds_t) (i : nat) : result rrd_cmd_t :=
  match cmds st !! i with Some cmd => OK cmd | None => Fault end.

Definition store (i : nat) (cmd : rrd_cmd_t) (st : rrd_cmds_t) : rrd_cmds_t :=
  Cmds (<[i := cmd]> (cmds st)) (opts st) (names st).

(** [apr_hash_get(cmds->names, key, APR_HASH_KEY_STRING)]; hashing a NULL
    key dereferences it *)
Definition names_get (st : rrd_cmds_t) (key : word) : result (option nat) :=
  match key with Str k => OK (names st !! k) | _ => Fault end.

(** [apr_hash_set(cmds->names, key, APR_HASH_KEY_STRING, cmd)] *)
Definition names_set (key : word) (i : nat) (st : rrd_cmds_t) : result rrd_cmds_t :=
  match key with
  | Str k => OK (Cmds (cmds st) (opts st) (<[k := i]> (names st)))
  | _ => Fault
  end.

Definition requests_of (cmd : rrd_cmd_t) : result (list (request_rec)) :=
  match get cmd d.requests with Requests arr => OK arr | _ => Fault end.

Definition expr_failed {A} (err : string) : result A :=
  Failed HTTP_INTERNAL_SERVER_ERROR
    ("While evaluating an element expression: " +:+ err).

(** [resolve_def_cb(w, fname)], with [ctx->cmd] passed and returned *)
Definition resolve_def_cb (r : request_rec) (fname : string) (cmd : rrd_cmd_t)
  : result rrd_cmd_t :=
  let rr := ap_sub_req_lookup_file fname r in
  if status_ok rr then
    arr ← requests_of cmd;
    OK (set_num (S (num cmd)) (set d.requests (Requests (arr ++ [rr])) cmd))
  else OK cmd.

Fixpoint resolve_def_walk (r : request_rec) (fnames : list string) (cmd : rrd_cmd_t)
  : result rrd_cmd_t :=
  match fnames with
  | [] => OK cmd
  | fname :: fnames' =>
      cmd ← resolve_def_cb r fname cmd;
      resolve_def_walk r fnames' cmd
  end.

(** The inner [for] of the environment lookup of [resolve_def]: [set]
    after the loop.  [set] is a hash used as a set; its list is in the
    order the hash is walked, here the order of first insertion. *)
Fixpoint resolve_def_env_values (eval : ap_expr_info_t)
    (requests : list (request_rec)) (set : list string) : result (list string) :=
  match requests with
  | [] => OK set
  | rr :: requests' =>
      match ap_expr_str_exec rr eval with
      | ExprError err => expr_failed err
      | Value val =>
          resolve_def_env_values eval requests'
            (match val with
             | "" => set
             | _ => if bool_decide (val ∈ set) then set else (set ++ [val])%list
             end)
      end
  end.

(** The outer [for] of the environment lookup: the request with its
    [subprocess_env] updated *)
Fixpoint resolve_def_env (env : list (string * ap_expr_info_t))
    (requests : list (request_rec)) (r : request_rec) : result (request_rec) :=
  match env with
  | [] => OK r
  | (key, eval) :: env' =>
      set ← resolve_def_env_values eval requests [];
      resolve_def_env env' requests
        (match set with
         | [] => r
         | _ => subprocess_env_setn r key (apr_array_pstrcat set ",")
         end)
  end.

Definition resolve_def (conf : rrd_conf) (r : request_rec) (i : nat)
    (st : rrd_cmds_t) : result (request_rec * rrd_cmds_t) :=
  cmd ← cmd_at st i;
  path ← match get cmd d.epath with
         | Expr epath =>
             match ap_expr_str_exec r epath with
             | ExprError err => expr_failed err
             | Value path => OK path
             end
         | _ => match get cmd d.path with Str path => OK path | _ => Fault end
         end;
  dirpath ← match get cmd d.edirpath with
            | Expr edirpath =>
                match ap_expr_str_exec r edirpath with
                | ExprError err => expr_failed err
                | Value dirpath => OK dirpath
                end
            | _ => OK (default (filename r) (before_last (filename r) "/"))
            end;
  let (fnames, err) := ap_dir_fnmatch dirpath path in
  cmd ← resolve_def_walk r fnames cmd;
  match err with
  | Some err =>
      Failed HTTP_BAD_REQUEST
        ("While parsing DEF path '" +:+ path +:+ "': " +:+ err)
  | None =>
      requests ← requests_of cmd;
      r ← resolve_def_env (env conf) requests r;
      let cmd := set_def (Some i) cmd in
      st ← names_set (get cmd d.vname) i (store i cmd st);
      OK (r, st)
  end.

Definition resolve_vdef (i : nat) (st : rrd_cmds_t) : result rrd_cmds_t :=
  cmd ← cmd_at st i;
  ref ← names_get st (get cmd v.dsname);
  match ref with
  | Some j =>
      refcmd ← cmd_at st j;
      let cmd := set v.ref (Ref j) cmd in
      let cmd := set_def (def refcmd) cmd in
      let cmd := set_num (num refcmd) cmd in
      names_set (get cmd v.vname) i (store i cmd st)
  | None =>
      Failed HTTP_BAD_REQUEST
        ("While parsing VDEF '" +:+ fmt_s (get cmd v.vname) +:+ "': '"
         +:+ fmt_s (get cmd v.dsname) +:+ "' was not found")
  end.

(** The [for] of [resolve_cdef] over [cmd->c.rpns]: the array and the
    command after it *)
Fixpoint resolve_cdef_rpns (st : rrd_cmds_t) (rpns : list rrd_rpn_t) (cmd : rrd_cmd_t)
  : result (list rrd_rpn_t * rrd_cmd_t) :=
  match rpns with
  | [] => OK ([], cmd)
  | rp :: rpns' =>
      '(rp, cmd) ←
        (if is_null (get cmd c.ref) then
           match names st !! rpn rp with
           | Some j =>
               refcmd ← cmd_at st j;
               OK (Rpn (rpn rp) (def refcmd),
                   set_def (def refcmd) (set c.ref (Ref j) cmd))
           | None => OK (rp, cmd)
           end
         else OK (rp, cmd));
      '(rpns', cmd) ← resolve_cdef_rpns st rpns' cmd;
      OK (rp :: rpns', cmd)
  end.

Definition resolve_cdef (i : nat) (st : rrd_cmds_t) : result rrd_cmds_t :=
  cmd ← cmd_at st i;
  rpns ← match get cmd c.rpns with Rpns arr => OK arr | _ => Fault end;
  '(rpns, cmd) ← resolve_cdef_rpns st rpns cmd;
  let cmd := set c.rpns (Rpns rpns) cmd in
  cmd ← match get cmd c.ref with
        | Ref j => refcmd ← cmd_at st j; OK (set_num (num refcmd) cmd)
        | _ => OK cmd
        end;
  names_set (get cmd c.vname) i (store i cmd st).

(** The body shared, word for word but for the member and the keyword of
    the message, by [resolve_area], [resolve_line], [resolve_tick],
    [resolve_shift], [resolve_gprint] and [resolve_print]. *)
Definition resolve_ref (vname : member) (keyword : string) (i : nat) (st : rrd_cmds_t)
  : result rrd_cmds_t :=
  cmd ← cmd_at st i;
  ref ← names_get st (get cmd vname);
  match ref with
  | Some j =>
      refcmd ← cmd_at st j;
      OK (store i (set_def (def refcmd) cmd) st)
  | None =>
      Failed HTTP_BAD_REQUEST
        ("While parsing " +:+ keyword +:+ ": '" +:+ fmt_s (get cmd vname)
         +:+ "' was not found")
  end.

Definition resolve_area := resolve_ref a.vname "AREA".
Definition resolve_line := resolve_ref l.vname "LINE".
Definition resolve_tick := resolve_ref t.vname "TICK".
Definition resolve_shift := resolve_ref s.vname "SHIFT".
Definition resolve_gprint := resolve_ref p.vname "GPRINT".
Definition resolve_print := resolve_ref p.vname "PRINT".

(** The body of the [for] of [resolve_rrds] *)
Definition resolve_cmd (conf : rrd_conf) (i : nat) (rst : request_rec * rrd_cmds_t)
  : result (request_rec * rrd_cmds_t) :=
  let (r, st) := rst in
  cmd ← cmd_at st i;
  match type cmd with
  | RRD_CONF_DEF => resolve_def conf r i st
  | RRD_CONF_CDEF => st ← resolve_cdef i st; OK (r, st)
  | RRD_CONF_VDEF => st ← resolve_vdef i st; OK (r, st)
  | RRD_CONF_AREA => st ← resolve_area i st; OK (r, st)
  | RRD_CONF_LINE => st ← resolve_line i st; OK (r, st)
  | RRD_CONF_TICK => st ← resolve_tick i st; OK (r, st)
  | RRD_CONF_SHIFT => st ← resolve_shift i st; OK (r, st)
  | RRD_CONF_GPRINT => st ← resolve_gprint i st; OK (r, st)
  | RRD_CONF_PRINT => st ← resolve_print i st; OK (r, st)
  | _ => OK (r, st)
  end.

(** [for (i = ...; i < cmds->cmds->nelts; ++i)] with [n] iterations left *)
Fixpoint resolve_loop (conf : rrd_conf) (n i : nat) (rst : request_rec * rrd_cmds_t)
  : result (request_rec * rrd_cmds_t) :=
  match n with
  | 0 => OK rst
  | S n' =>
      rst ← resolve_cmd conf i rst;
      resolve_loop conf n' (S i) rst
  end.

Definition resolve_rrds (conf : rrd_conf) (r : request_rec) (st : rrd_cmds_t)
  : result (request_rec * rrd_cmds_t) :=
  resolve_loop conf (length (cmds st)) 0 (r, st).

(** ** Generator *)

(** [APR_ARRAY_PUSH] of [arg] onto [args] *)
Definition push (args : list string) (arg : string) : list string :=
  (args ++ [arg])%list.

(** The legend of an element, as every generator computes it:
    [legend = cmd->x.legend], and when [cmd->x.elegend] is set the value of
    the expression for the request [rr], colon-escaped.  [rr] is [None]
    when the generator reads it past the end of [requests]. *)
Definition eval_legend (rr : option (request_rec)) (legend elegend : word)
  : result word :=
  match elegend with
  | Expr elegend =>
      match rr with
      | None => Fault
      | Some rr =>
          match ap_expr_str_exec rr elegend with
          | ExprError err => expr_failed err
          | Value legend => OK (Str (pescape_colon legend))
          end
      end
  | _ => OK legend
  end.

(** [cmd->def], dereferenced *)
Definition def_of (st : rrd_cmds_t) (cmd : rrd_cmd_t) : option (result rrd_cmd_t) :=
  match def cmd with
  | None => None
  | Some dp => Some (cmd_at st dp)
  end.

Definition generate_element (r : request_rec) (cmd : rrd_cmd_t) (args : list string)
  : result (list string) :=
  legend ← eval_legend (Some r) (get cmd e.legend) (get cmd e.elegend);
  OK (push args (fmt_s (get cmd e.element) +:+ ":" +:+ fmt_s legend)).

(** The body shared by [generate_gprint], [generate_print] and
    [generate_shift], which differ in the keyword and in the members. *)
Fixpoint generate_ref_each (keyword : string) (vname format : word) (n j : nat)
    (args : list string) : list string :=
  match n with
  | 0 => args
  | S n' =>
      generate_ref_each keyword vname format n' (S j)
        (push args (keyword +:+ ":" +:+ fmt_s vname +:+ "w" +:+ dec j +:+ ":"
                    +:+ fmt_s format))
  end.

Definition generate_ref (keyword : string) (vname format : member)
    (st : rrd_cmds_t) (cmd : rrd_cmd_t) (args : list string) : result (list string) :=
  match def_of st cmd with
  | None =>
      Failed HTTP_BAD_REQUEST
        (keyword +:+ " element referred to '" +:+ fmt_s (get cmd vname)
         +:+ "', which does not exist")
  | Some dcmd =>
      dcmd ← dcmd;
      match num dcmd with
      | 0 => OK args
      | 1 =>
          OK (push args (keyword +:+ ":" +:+ fmt_s (get cmd vname) +:+ ":"
                         +:+ fmt_s (get cmd format)))
      | n => OK (generate_ref_each keyword (get cmd vname) (get cmd format) n 0 args)
      end
  end.

Definition generate_gprint := generate_ref "GPRINT" p.vname p.format.
Definition generate_print := generate_ref "PRINT" p.vname p.format.
Definition generate_shift := generate_ref "SHIFT" s.vname s.shift.

(** [generate_hrule] and [generate_vrule] *)
Definition generate_rule (keyword : string) (r : request_rec) (cmd : rrd_cmd_t)
    (args : list string) : result (list string) :=
  legend ← eval_legend (Some r) (get cmd r.legend) (get cmd r.elegend);
  OK (push args
        (keyword +:+ ":" +:+ fmt_s (get cmd r.val)
         +:+ (if is_null (get cmd r.colour) then "" else "#")
         +:+ (if is_null (get cmd r.colour) then "" else fmt_s (get cmd r.colour))
         +:+ ":" +:+ fmt_s legend
         +:+ if_first (get cmd r.args) ":" "" +:+ fmt_s (get cmd r.args))).

Definition generate_hrule := generate_rule "HRULE".
Definition generate_vrule := generate_rule "VRULE".

(** The [for (k = *i + 1; ...)] of [generate_tick], [generate_area] and
    [generate_line]: [rest] is the array from index [k] on; the result is
    [skip] and [args]. *)
Fixpoint absorb (cmd_def : option nat) (i j k : nat) (rest : list rrd_cmd_t)
    (skip : nat) (args : list string) : nat * list string :=
  match rest with
  | [] => (skip, args)
  | pcmd :: rest' =>
      if decide (def pcmd = cmd_def) then
        match type pcmd with
        | RRD_CONF_PRINT =>
            absorb cmd_def i j (S k) rest' skip
              (push args ("PRINT:" +:+ fmt_s (get pcmd p.vname) +:+ "w" +:+ dec j
                          +:+ ":" +:+ fmt_s (get pcmd p.format)))
        | RRD_CONF_GPRINT =>
            absorb cmd_def i j (S k) rest' skip
              (push args ("GPRINT:" +:+ fmt_s (get pcmd p.vname) +:+ "w" +:+ dec j
                          +:+ ":" +:+ fmt_s (get pcmd p.format)))
        | _ => (k - i - 1, args)
        end
      else (k - i - 1, args)
  end.

(** The [for (j = ...)] of the three graphical generators, which differ
    in the members read and in the format of the line: [fmt j legend] is
    the [apr_psprintf] of the generator. *)
Fixpoint generate_graph_each (fmt : nat -> word -> string) (legend elegend : word)
    (st : rrd_cmds_t) (cmd : rrd_cmd_t) (requests : list (request_rec))
    (i n j skip : nat) (args : list string) : result (nat * list string) :=
  match n with
  | 0 => OK (skip, args)
  | S n' =>
      legend_j ← eval_legend (requests !! j) legend elegend;
      let args := push args (fmt j legend_j) in
      let (skip, args) := absorb (def cmd) i j (S i) (drop (S i) (cmds st)) skip args in
      generate_graph_each fmt legend elegend st cmd requests i n' (S j) skip args
  end.

(** The three graphical generators: [fmt1] is the format of the branch
    for one result, [fmtn] that of the branch for more than one.  The
    result is [args] and [*i]. *)
Definition generate_graph (keyword : string) (vname legend elegend : member)
    (fmt1 : rrd_cmd_t -> word -> string) (fmtn : rrd_cmd_t -> nat -> word -> string)
    (st : rrd_cmds_t) (cmd : rrd_cmd_t) (args : list string) (i : nat)
  : result (list string * nat) :=
  match def_of st cmd with
  | None =>
      Failed HTTP_BAD_REQUEST
        (keyword +:+ " element referred to '" +:+ fmt_s (get cmd vname)
         +:+ "', which does not exist")
  | Some dcmd =>
      dcmd ← dcmd;
      match num dcmd with
      | 0 => OK (args, i)
      | 1 =>
          match get dcmd d.requests with
          | Requests requests =>
              legend ← eval_legend (requests !! 0) (get cmd legend) (get cmd elegend);
              OK (push args (fmt1 cmd legend), i)
          | _ => Fault
          end
      | n =>
          match get dcmd d.requests with
          | Requests requests =>
              '(skip, args) ← generate_graph_each (fmtn cmd) (get cmd legend)
                                (get cmd elegend) st cmd requests i n 0 0 args;
              OK (args, i + skip)
          | _ => Fault
          end
      end
  end.

Definition colour_of (colour : word) : string :=
  (if is_null colour then "" else "#") +:+ (if is_null colour then "" else fmt_s colour).

Definition args_of (args : word) : string :=
  if_first args ":" "" +:+ fmt_s args.

Definition tick_fmt1 (cmd : rrd_cmd_t) (legend : word) : string :=
  "TICK:" +:+ fmt_s (get cmd t.vname) +:+ colour_of (get cmd t.colour) +:+ ":"
  +:+ fmt_s (get cmd t.fraction) +:+ ":" +:+ fmt_s legend +:+ args_of (get cmd t.args).

Definition tick_fmtn (cmd : rrd_cmd_t) (j : nat) (legend : word) : string :=
  "TICK:" +:+ fmt_s (get cmd t.vname) +:+ "w" +:+ dec j +:+ colour_of (get cmd t.colour)
  +:+ ":" +:+ fmt_s (get cmd t.fraction) +:+ ":" +:+ fmt_s legend
  +:+ args_of (get cmd t.args).

Definition area_fmt1 (cmd : rrd_cmd_t) (legend : word) : string :=
  "AREA:" +:+ fmt_s (get cmd a.vname) +:+ colour_of (get cmd a.colour) +:+ ":"
  +:+ fmt_s legend +:+ args_of (get cmd a.args).

Definition area_fmtn (cmd : rrd_cmd_t) (j : nat) (legend : word) : string :=
  "AREA:" +:+ fmt_s (get cmd a.vname) +:+ "w" +:+ dec j +:+ colour_of (get cmd a.colour)
  +:+ ":" +:+ fmt_s legend +:+ args_of (get cmd a.args).

Definition line_fmt1 (cmd : rrd_cmd_t) (legend : word) : string :=
  fmt_s (get cmd l.line) +:+ ":" +:+ fmt_s (get cmd l.vname)
  +:+ colour_of (get cmd l.colour) +:+ ":" +:+ fmt_s legend
  +:+ args_of (get cmd l.args).

Definition line_fmtn (cmd : rrd_cmd_t) (j : nat) (legend : word) : string :=
  fmt_s (get cmd l.line) +:+ ":" +:+ fmt_s (get cmd l.vname) +:+ "w" +:+ dec j
  +:+ colour_of (get cmd l.colour) +:+ ":" +:+ fmt_s legend
  +:+ args_of (get cmd l.args).

Definition generate_tick :=
  generate_graph "TICK" t.vname t.legend t.elegend tick_fmt1 tick_fmtn.
Definition generate_area :=
  generate_graph "AREA" a.vname a.legend a.elegend area_fmt1 area_fmtn.
Definition generate_line :=
  generate_graph "LINE" l.vname l.legend l.elegend line_fmt1 line_fmtn.

Fixpoint generate_vdef_each (cmd : rrd_cmd_t) (n j : nat) (args : list string)
  : list string :=
  match n with
  | 0 => args
  | S n' =>
      generate_vdef_each cmd n' (S j)
        (push args ("VDEF:" +:+ fmt_s (get cmd v.vname) +:+ "w" +:+ dec j +:+ "="
                    +:+ fmt_s (get cmd v.dsname) +:+ "w" +:+ dec j +:+ ","
                    +:+ fmt_s (get cmd v.rpn)))
  end.

Definition generate_vdef (st : rrd_cmds_t) (cmd : rrd_cmd_t) (args : list string)
  : result (list string) :=
  match def_of st cmd with
  | None =>
      Failed HTTP_BAD_REQUEST
        ("VDEF element referred to '" +:+ fmt_s (get cmd v.vname)
         +:+ "', which does not exist")
  | Some dcmd =>
      dcmd ← dcmd;
      match num dcmd with
      | 0 => OK args
      | 1 =>
          OK (push args ("VDEF:" +:+ fmt_s (get cmd v.vname) +:+ "="
                         +:+ fmt_s (get cmd v.dsname) +:+ "," +:+ fmt_s (get cmd v.rpn)))
      | n => OK (generate_vdef_each cmd n 0 args)
      end
  end.

(** One operand of the rewritten CDEF: the two branches of the inner
    [for] of [generate_cdef].  [None] when [rp->def] dangles. *)
Definition generate_cdef_rpn (st : rrd_cmds_t) (j : nat) (rp : rrd_rpn_t)
  : result string :=
  match rpn_def rp with
  | None => OK (rpn rp)
  | Some dp =>
      dcmd ← cmd_at st dp;
      if (num dcmd <? 2)%nat then OK (rpn rp)
      else OK (rpn rp +:+ "w" +:+ dec j)
  end.

(** The inner [for (k = ...)] of [generate_cdef]: the text written after
    [CDEF:...=]; [k] says whether a comma comes first. *)
Fixpoint generate_cdef_rpns (st : rrd_cmds_t) (j : nat) (k : nat) (rpns : list rrd_rpn_t)
  : result string :=
  match rpns with
  | [] => OK ""
  | rp :: rpns' =>
      tok ← generate_cdef_rpn st j rp;
      rest ← generate_cdef_rpns st j (S k) rpns';
      OK ((match k with 0 => "" | _ => "," end) +:+ tok +:+ rest)
  end.

Fixpoint generate_cdef_each (st : rrd_cmds_t) (cmd : rrd_cmd_t) (rpns : list rrd_rpn_t)
    (n j : nat) (args : list string) : result (list string) :=
  match n with
  | 0 => OK args
  | S n' =>
      body ← generate_cdef_rpns st j 0 rpns;
      generate_cdef_each st cmd rpns n' (S j)
        (push args ("CDEF:" +:+ fmt_s (get cmd c.vname) +:+ "w" +:+ dec j +:+ "="
                    +:+ body))
  end.

Definition generate_cdef (st : rrd_cmds_t) (cmd : rrd_cmd_t) (args : list string)
  : result (list string) :=
  match def_of st cmd with
  | None =>
      Failed HTTP_BAD_REQUEST
        ("CDEF element '" +:+ fmt_s (get cmd c.vname)
         +:+ "' referred to no existing definitions")
  | Some dcmd =>
      dcmd ← dcmd;
      match num dcmd with
      | 0 => OK args
      | 1 =>
          OK (push args ("CDEF:" +:+ fmt_s (get cmd c.vname) +:+ "="
                         +:+ fmt_s (get cmd c.rpn)))
      | _ =>
          match get cmd c.rpns with
          | Rpns rpns => generate_cdef_each st cmd rpns (num cmd) 0 args
          | _ => Fault
          end
      end
  end.

(** The first [for] of the last branch of [generate_def] *)
Fixpoint generate_def_each (cmd : rrd_cmd_t) (requests : list (request_rec))
    (j : nat) (args : list string) : list string :=
  match requests with
  | [] => args
  | rr :: requests' =>
      generate_def_each cmd requests' (S j)
        (push args ("DEF:" +:+ fmt_s (get cmd d.vname) +:+ "w" +:+ dec j +:+ "="
                    +:+ pescape_colon (filename rr) +:+ ":"
                    +:+ fmt_s (get cmd d.dsname) +:+ ":" +:+ fmt_s (get cmd d.cf)))
  end.

(** The second [for]: the operands of the summary CDEF *)
Fixpoint generate_def_sum (cmd : rrd_cmd_t) (n j : nat) : string :=
  match n with
  | 0 => ""
  | S n' =>
      (match j with 0 => "" | _ => "," end) +:+ fmt_s (get cmd d.vname) +:+ "w"
      +:+ dec j +:+ (match j with 0 => "" | _ => ",+" end)
      +:+ generate_def_sum cmd n' (S j)
  end.

Definition generate_def (cmd : rrd_cmd_t) (args : list string) : result (list string) :=
  match get cmd d.cf with
  | Str cf =>
      match ap_strstr_c cf ":daemon=" with
      | Some _ =>
          Failed HTTP_BAD_REQUEST "DEF elements must not contain a 'daemon' parameter"
      | None =>
          requests ← requests_of cmd;
          match requests with
          | [] => OK args
          | [rr] =>
              OK (push args ("DEF:" +:+ fmt_s (get cmd d.vname) +:+ "="
                             +:+ pescape_colon (filename rr) +:+ ":"
                             +:+ fmt_s (get cmd d.dsname) +:+ ":"
                             +:+ fmt_s (get cmd d.cf)))
          | _ =>
              let args := generate_def_each cmd requests 0 args in
              OK (push args ("CDEF:" +:+ fmt_s (get cmd d.vname) +:+ "="
                             +:+ generate_def_sum cmd (length requests) 0))
          end
      end
  | _ => Fault
  end.

(** The [for] over the options of [generate_args] *)
Fixpoint generate_opts (r : request_rec) (opts : list rrd_opt_t) (args : list string)
  : result (list string) :=
  match opts with
  | [] => OK args
  | opt :: opts' =>
      let args := push args ("--" +:+ key opt) in
      match eval opt with
      | Some eval =>
          match ap_expr_str_exec r eval with
          | ExprError err =>
              Failed HTTP_INTERNAL_SERVER_ERROR
                ("While evaluating expressions for '" +:+ key opt +:+ "': " +:+ err)
          | Value val => generate_opts r opts' (push args val)
          end
      | None =>
          match val opt with
          | Some val => generate_opts r opts' (push args val)
          | None => generate_opts r opts' args
          end
      end
  end.

(** The [switch] of the last [for] of [generate_args]: [args] and [i]
    after the generator of the command at [i] *)
Definition generate_cmd (r : request_rec) (st : rrd_cmds_t) (cmd : rrd_cmd_t)
    (args : list string) (i : nat) : result (list string * nat) :=
  match type cmd with
  | RRD_CONF_DEF => args ← generate_def cmd args; OK (args, i)
  | RRD_CONF_CDEF => args ← generate_cdef st cmd args; OK (args, i)
  | RRD_CONF_VDEF => args ← generate_vdef st cmd args; OK (args, i)
  | RRD_CONF_LINE => generate_line st cmd args i
  | RRD_CONF_AREA => generate_area st cmd args i
  | RRD_CONF_TICK => generate_tick st cmd args i
  | RRD_CONF_SHIFT => args ← generate_shift st cmd args; OK (args, i)
  | RRD_CONF_PRINT => args ← generate_print st cmd args; OK (args, i)
  | RRD_CONF_GPRINT => args ← generate_gprint st cmd args; OK (args, i)
  | RRD_CONF_HRULE => args ← generate_hrule r cmd args; OK (args, i)
  | RRD_CONF_VRULE => args ← generate_vrule r cmd args; OK (args, i)
  | RRD_CONF_COMMENT
  | RRD_CONF_TEXTALIGN => args ← generate_element r cmd args; OK (args, i)
  end.

(** The last [for] of [generate_args], from index [i]; a generator may
    advance [i], and the fuel bounds the number of iterations. *)
Fixpoint generate_cmds (fuel : nat) (r : request_rec) (st : rrd_cmds_t) (i : nat)
    (args : list string) : result (list string) :=
  match fuel with
  | 0 => OK args
  | S fuel' =>
      match cmds st !! i with
      | None => OK args
      | Some cmd =>
          '(args, i) ← generate_cmd r st cmd args i;
          generate_cmds fuel' r st (S i) args
      end
  end.

(** [generate_args(r, cmds, &args)].  [format] is
    [conf->format ? conf->format : parse_rrdgraph_suffix(r)], which
    [lookup_content_type] dereferences. *)
Definition generate_args (r : request_rec) (st : rrd_cmds_t) (format : option string)
  : result (list string) :=
  match format with
  | None => Fault
  | Some format =>
      let args := ["rrdgraph"; "-"; "--imgformat"; format] in
      args ← generate_opts r (opts st) args;
      generate_cmds (length (cmds st)) r st 0 args
  end.

(** The three stages of [get_rrdgraph] before the call of the render
    engine *)
Definition compile (conf : rrd_conf) (r : request_rec) (format : option string)
  : result (list string) :=
  st ← parse_query r conf;
  '(r, st) ← resolve_rrds conf r st;
  generate_args r st format.

End compiler.

(** ** A host for the examples *)

(** A request is its file name and its query string; an expression is a
    prefix put before the file name of the request; the wildcard [*.rrd]
    matches [h1.rrd] and [h2.rrd], the path [one.rrd] matches itself and
    nothing else matches; every file is readable; URL decoding leaves
    text alone. *)
Definition example_host : host := {|
  ap_expr_info_t := string;
  request_rec := string * option string;
  filename := fst;
  args := snd;
  status_ok := fun _ => true;
  ap_expr_str_exec := fun rr expr => Value (expr +:+ fst rr);
  ap_dir_fnmatch := fun dirpath path =>
    if String.eqb path "*.rrd" then (["h1.rrd"; "h2.rrd"], None)
    else if String.eqb path "one.rrd" then (["one.rrd"], None)
    else ([], None);
  ap_sub_req_lookup_file := fun fname r => (fname, None);
  subprocess_env_setn := fun r _ _ => r;
  apr_punescape_url := Some;
|}.

Definition example_conf : @rrd_conf example_host := Conf [] [] [] None.

(** [compile] on a query string, for the file [/rrd/graph.png] *)
Definition example_compile (query : string) : result (list string) :=
  @compile example_host example_conf ("/rrd/graph.png", Some query) (Some "PNG").

Definition example_request (query : string) : @request_rec example_host :=
  ("/rrd/graph.png", Some query).

(** The expression that puts [prefix] before the file name *)
Definition example_expr (prefix : string) : @ap_expr_info_t example_host := prefix.

(** The sub-request of a matched file *)
Definition example_source (fname : string) : @request_rec example_host :=
  (fname, None).

(** The command list of a query string after the resolver went through
    its first [k] commands *)
Definition example_state (query : string) (k : nat) : @rrd_cmds_t example_host :=
  match @parse_query example_host (example_request query) example_conf with
  | OK st =>
      match @resolve_loop example_host example_conf k 0 (example_request query, st) with
      | OK (_, st') => st'
      | _ => st
      end
  | _ => Cmds [] [] ∅
  end.

Definition example_cmd (query : string) (k i : nat) : @rrd_cmd_t example_host :=
  default zeroed (cmds (example_state query k) !! i).

(** ** Specification-side definitions *)

(** Spec side: [colonEscape] as the specification words it, every [:]
    prefixed with a backslash and every other character kept. *)
Fixpoint colonEscape (s : string) : string :=
  match s with
  | "" => ""
  | String c s' =>
      if Ascii.eqb c ":" then String "\" (String ":" (colonEscape s'))
      else String c (colonEscape s')
  end.

Definition cons_char (c : ascii) (fields : list string) : list string :=
  match fields with
  | field :: fields' => String c field :: fields'
  | [] => [String c ""]
  end.

(** Spec side: the reading of an argument by its consumer, which is not
    part of the module, as the specification words it.  The argument is
    split on the colons that no backslash precedes, and a backslash
    followed by a colon reads as a colon. *)
Fixpoint split_unescaped (s : string) : list string :=
  match s with
  | "" => [""]
  | String c s' =>
      if Ascii.eqb c "\" then
        match s' with
        | String c' s'' =>
            if Ascii.eqb c' ":" then cons_char ":" (split_unescaped s'')
            else cons_char "\" (split_unescaped s')
        | "" => cons_char "\" (split_unescaped s')
        end
      else if Ascii.eqb c ":" then "" :: split_unescaped s'
      else cons_char c (split_unescaped s')
  end.

Fixpoint ends_with_backslash (s : string) : bool :=
  match s with
  | "" => false
  | String c "" => Ascii.eqb c "\"
  | String _ s' => ends_with_backslash s'
  end.

Fixpoint has_colon (s : string) : bool :=
  match s with
  | "" => false
  | String c s' => Ascii.eqb c ":" || has_colon s'
  end.

(** The query of the example for the literal legend: a LINE whose quoted
    legend is [a:b] *)
Definition quoted_legend_query : string :=
  "DEF:a=one.rrd:in:AVERAGE&LINE1:a#ff:" +:+ String "034" ("a:b" +:+ String "034" "").

Section names.

Context `{H : host}.

(** The name a command defines: the [vname] of a DEF, a CDEF or a VDEF *)
Definition defines (cmd : rrd_cmd_t) : option string :=
  match type cmd with
  | RRD_CONF_DEF | RRD_CONF_CDEF | RRD_CONF_VDEF =>
      match get cmd d.vname with Str n => Some n | _ => None end
  | _ => None
  end.

(** The member that names what a command refers to: the [vname] of the
    graphical and printing commands, the [dsname] of a VDEF *)
Definition reference (cmd : rrd_cmd_t) : option word :=
  match type cmd with
  | RRD_CONF_AREA => Some (get cmd a.vname)
  | RRD_CONF_LINE => Some (get cmd l.vname)
  | RRD_CONF_TICK => Some (get cmd t.vname)
  | RRD_CONF_SHIFT => Some (get cmd s.vname)
  | RRD_CONF_PRINT | RRD_CONF_GPRINT => Some (get cmd p.vname)
  | RRD_CONF_VDEF => Some (get cmd v.dsname)
  | _ => None
  end.

(** A command as [parse_element] leaves it: neither backing DEF nor
    multiplicity, no source in a DEF, no anchor in a CDEF *)
Definition parsed (cmd : rrd_cmd_t) : Prop :=
  def cmd = None /\ num cmd = 0
  /\ match type cmd with
     | RRD_CONF_DEF => get cmd d.requests = Requests []
     | RRD_CONF_CDEF => get cmd c.ref = NULL
     | _ => True
     end.

(** A DEF as [resolve_def] leaves it, at index [dp]: it backs itself and
    its multiplicity is the number of its sources *)
Definition resolved_def (dp : nat) (dcmd : rrd_cmd_t) : Prop :=
  type dcmd = RRD_CONF_DEF /\ def dcmd = Some dp
  /\ exists requests, get dcmd d.requests = Requests requests
                      /\ length requests = num dcmd.

(** The command [cmd] of a state resolved up to index [k]: its backing
    DEF, if it has one, is a resolved DEF before [k], whose multiplicity a
    DEF, a CDEF and a VDEF carry themselves *)
Definition backed (st : rrd_cmds_t) (k : nat) (cmd : rrd_cmd_t) : Prop :=
  forall dp, def cmd = Some dp ->
    dp < k
    /\ exists dcmd, cmds st !! dp = Some dcmd /\ resolved_def dp dcmd
                    /\ (is_Some (defines cmd) -> num cmd = num dcmd).

(** Spec side: the name table after the commands [cmds], the first of
    which has index [i], were resolved in order from the table [names] *)
Fixpoint names_after (cmds : list rrd_cmd_t) (i : nat) (names : gmap string nat)
  : gmap string nat :=
  match cmds with
  | [] => names
  | cmd :: cmds' =>
      names_after cmds' (S i)
        (match defines cmd with Some n => <[n := i]> names | None => names end)
  end.

End names.

Section lines.

Context `{H : host}.


(** Spec side: a name with the index suffix of the source [j] *)
Definition suffixed (vname : string) (j : nat) : string := vname +:+ "w" +:+ dec j.

(** The command with the name in its member [vname] suffixed *)
Definition suffixed_cmd (vname : member) (j : nat) (cmd : rrd_cmd_t) : rrd_cmd_t :=
  set vname (Str (suffixed (fmt_s (get cmd vname)) j)) cmd.


(** The PRINT and GPRINT lines a graphical command at index [i] puts
    after its line for the source [j], and the number of commands the
    main loop skips after it *)
Definition absorbed (st : rrd_cmds_t) (cmd : rrd_cmd_t) (i j : nat) : list string :=
  snd (absorb (def cmd) i j (S i) (drop (S i) (cmds st)) 0 []).

Definition skipped (st : rrd_cmds_t) (cmd : rrd_cmd_t) (i : nat) : nat :=
  fst (absorb (def cmd) i 0 (S i) (drop (S i) (cmds st)) 0 []).

(** Spec side: the lines of a graphical command of multiplicity [m]
    whose line for one result is [fmt1] and whose legend for the source
    [j] is [leg j]: each line of a source is followed by what it absorbs *)
Definition graph_lines (vname : member) (fmt1 : rrd_cmd_t -> word -> string)
    (st : rrd_cmds_t) (cmd : rrd_cmd_t) (i m : nat) (leg : nat -> word) : list string :=
  match m with
  | 0 => []
  | 1 => [fmt1 cmd (leg 0)]
  | _ => flat_map (fun j => fmt1 (suffixed_cmd vname j cmd) (leg j) :: absorbed st cmd i j)
           (seq 0 m)
  end.



Definition daemon_message : string :=
  "DEF elements must not contain a 'daemon' parameter".

Definition printish (cmd : rrd_cmd_t) : Prop :=
  type cmd = RRD_CONF_PRINT \/ type cmd = RRD_CONF_GPRINT.

(** The [n] commands after index [i] are PRINT or GPRINT commands *)
Definition print_run (cmds : list rrd_cmd_t) (i n : nat) : Prop :=
  forall x, i < x <= i + n -> exists cmd, cmds !! x = Some cmd /\ printish cmd.

(** What one step of the resolver keeps of a command: its type and its
    first member, which holds the name that a DEF, a CDEF or a VDEF
    defines *)
Definition kept (cmd cmd' : rrd_cmd_t) : Prop :=
  type cmd' = type cmd /\ get cmd' d.vname = get cmd d.vname.

(** A command the scan of a graphical command takes in: a PRINT or a
    GPRINT with the same backing DEF *)
Definition absorbable (cmd_def : option nat) (pcmd : rrd_cmd_t) : Prop :=
  def pcmd = cmd_def /\ printish pcmd.

(** What holds of a state that the resolver brought from a parsed command
    list to index [k] *)
Definition resolved_upto (k : nat) (st : rrd_cmds_t) : Prop :=
  (forall n j, names st !! n = Some j ->
     j < k /\ exists cmd, cmds st !! j = Some cmd /\ is_Some (defines cmd))
  /\ (forall j cmd, j < k -> cmds st !! j = Some cmd -> backed st k cmd)
  /\ (forall j cmd, k <= j -> cmds st !! j = Some cmd -> parsed cmd).

(** The members the resolver writes in a command of type [ty]: the
    array of sources of a DEF, the token array and the anchor of a CDEF,
    the command a VDEF refers to *)
Definition resolver_writes (ty : rrd_conf_e) (m : member) : Prop :=
  match ty with
  | RRD_CONF_DEF => m = d.requests
  | RRD_CONF_CDEF => m = c.rpns \/ m = c.ref
  | RRD_CONF_VDEF => m = v.ref
  | _ => False
  end.

(** What the resolver keeps of a command: its type and every member it
    does not write *)
Definition unwritten (cmd cmd' : rrd_cmd_t) : Prop :=
  type cmd' = type cmd
  /\ forall m, ~ resolver_writes (type cmd) m -> get cmd' m = get cmd m.




(** Spec side: a legend field [field], followed in the argument by
    [tail], reads back as [t]: the first of the texts between colons that
    no backslash precedes *)
Definition reads_back (t field tail : string) : Prop :=
  head (split_unescaped (field +:+ tail)) = Some t.

(** The fields before the legend in the argument of each command with a
    legend *)
Definition rule_head (keyword : string) (cmd : rrd_cmd_t) : string :=
  keyword +:+ ":" +:+ fmt_s (get cmd r.val) +:+ colour_of (get cmd r.colour) +:+ ":".

Definition line_head (cmd : rrd_cmd_t) : string :=
  fmt_s (get cmd l.line) +:+ ":" +:+ fmt_s (get cmd l.vname)
  +:+ colour_of (get cmd l.colour) +:+ ":".

Definition area_head (cmd : rrd_cmd_t) : string :=
  "AREA:" +:+ fmt_s (get cmd a.vname) +:+ colour_of (get cmd a.colour) +:+ ":".

Definition tick_head (cmd : rrd_cmd_t) : string :=
  "TICK:" +:+ fmt_s (get cmd t.vname) +:+ colour_of (get cmd t.colour) +:+ ":"
  +:+ fmt_s (get cmd t.fraction) +:+ ":".

End lines.

(** ** Notions for the statements about texts *)

(** [strchr(s, c) == NULL]: the text [s] holds no [c] *)
Definition lacks (c : ascii) (s : string) : Prop := snd (strchr_split s c) = None.

(** The text that reads back as [t] between two quotes [q]: [t] with a
    backslash before every [q] and before every backslash *)
Fixpoint quote_escape (q : ascii) (t : string) : string :=
  match t with
  | "" => ""
  | String c t' =>
      if Ascii.eqb c q || Ascii.eqb c "\"
      then String "\" (String c (quote_escape q t'))
      else String c (quote_escape q t')
  end.

(** The texts [parse_element] compares the start of an element with, each
    cut at the count given to [strncmp] *)
Definition element_keywords : list string :=
  [ "AREA:"; "CDEF:"; "COMMENT"; "DEF:"; "GPRINT:"; "HRULE:"; "LINE"; "PRINT:";
    "SHIFT:"; "TICK:"; "TEXTALIGN:"; "VDEF:"; "VRULE:" ].

(** ** Formats and content types *)

(** [tolower(c)] in the C locale *)
Definition tolower (c : ascii) : ascii :=
  let n := nat_of_ascii c in
  if ((65 <=? n)%nat && (n <=? 90)%nat) then ascii_of_nat (n + 32) else c.

(** [strcasecmp(s1, s2) == 0] *)
Fixpoint strcasecmp0 (s1 s2 : string) : bool :=
  match s1, s2 with
  | "", "" => true
  | String a s1', String b s2' =>
      Ascii.eqb (tolower a) (tolower b) && strcasecmp0 s1' s2'
  | _, _ => false
  end.

(** [ap_strrchr_c(s, c)]: the suffix of [s] at the last [c], [None] for
    NULL *)
Fixpoint ap_strrchr_c (s : string) (c : ascii) : option string :=
  match s with
  | "" => None
  | String a s' =>
      match ap_strrchr_c s' c with
      | Some t => Some t
      | None => if Ascii.eqb a c then Some s else None
      end
  end.

(** [lookup_content_type(format)], [None] for NULL *)
Definition lookup_content_type (format : string) : option string :=
  match format with
  | "" => None
  | String c _ =>
      if Ascii.eqb c "p" || Ascii.eqb c "P" then
        if strcasecmp0 format "PNG" then Some "image/png"
        else if strcasecmp0 format "PDF" then Some "application/pdf"
        else None
      else if Ascii.eqb c "s" || Ascii.eqb c "S" then
        if strcasecmp0 format "SVG" then Some "image/svg+xml"
        else if strcasecmp0 format "SSV" then Some "text/plain"
        else None
      else if Ascii.eqb c "e" || Ascii.eqb c "E" then
        if strcasecmp0 format "EPS" then Some "application/eps"
        else None
      else if Ascii.eqb c "x" || Ascii.eqb c "X" then
        if strcasecmp0 format "XML" then Some "application/xml"
        else if strcasecmp0 format "XMLENUM" then Some "application/xml"
        else None
      else if Ascii.eqb c "j" || Ascii.eqb c "J" then
        if strcasecmp0 format "JSON" then Some "application/json"
        else if strcasecmp0 format "JSONTIME" then Some "application/json"
        else None
      else if Ascii.eqb c "c" || Ascii.eqb c "C" then
        if strcasecmp0 format "CSV" then Some "text/csv"
        else None
      else if Ascii.eqb c "t" || Ascii.eqb c "T" then
        if strcasecmp0 format "TSV" then Some "text/tab-separated-values"
        else None
      else None
  end.

(** [parse_rrdgraph_suffix(r)], on [r->filename]; [None] for NULL *)
Definition parse_rrdgraph_suffix (filename : string) : option string :=
  match ap_strrchr_c filename "/" with
  | None => None
  | Some fname =>
      match ap_strrchr_c fname "." with
      | None => None
      | Some suffix =>
          match suffix with
          | String _ (String c _) =>
              if Ascii.eqb c "p" || Ascii.eqb c "P" then
                if strcasecmp0 suffix ".png" then Some "PNG"
                else if strcasecmp0 suffix ".pdf" then Some "PDF"
                else None
              else if Ascii.eqb c "s" || Ascii.eqb c "S" then
                if strcasecmp0 suffix ".svg" then Some "SVG"
                else if strcasecmp0 suffix ".ssv" then Some "SSV"
                else None
              else if Ascii.eqb c "e" || Ascii.eqb c "E" then
                if strcasecmp0 suffix ".eps" then Some "EPS"
                else None
              else if Ascii.eqb c "x" || Ascii.eqb c "X" then
                if strcasecmp0 suffix ".xml" then Some "XML"
                else if strcasecmp0 suffix ".xmlenum" then Some "XMLENUM"
                else None
              else if Ascii.eqb c "j" || Ascii.eqb c "J" then
                if strcasecmp0 suffix ".json" then Some "JSON"
                else if strcasecmp0 suffix ".jsontime" then Some "JSONTIME"
                else None
              else if Ascii.eqb c "c" || Ascii.eqb c "C" then
                if strcasecmp0 suffix ".csv" then Some "CSV"
                else None
              else if Ascii.eqb c "t" || Ascii.eqb c "T" then
                if strcasecmp0 suffix ".tsv" then Some "TSV"
                else None
              else None
          | _ => None
          end
      end
  end.

(** The image formats, as the comment of [parse_rrdgraph_suffix] lists
    them *)
Definition graph_formats : list string :=
  [ "PNG"; "SVG"; "EPS"; "PDF"; "XML"; "XMLENUM"; "JSON"; "JSONTIME"; "CSV"; "TSV";
    "SSV" ].

(** ** Shapes of commands and options *)

Section shapes.

Context `{H : host}.

(** No member of the command holds an expression *)
Definition expression_free (cmd : rrd_cmd_t) : Prop :=
  Forall (fun w => forall expr, w <> Expr expr) (vec_to_list (u cmd)).

(** An option as the query string gives it: a key of the table of options
    with a value, a value, and no expression *)
Definition query_option (opt : rrd_opt_t) : Prop :=
  key opt ∈ keys_with_value /\ is_Some (val opt) /\ eval opt = None.

(** The members the generator dereferences, in a command array of [n]
    commands: the consolidation function and the sources of a DEF, and the
    tokens of a CDEF, whose backing DEF pointers are in the array *)
Definition shaped (n : nat) (cmd : rrd_cmd_t) : Prop :=
  match type cmd with
  | RRD_CONF_DEF =>
      (exists cf, get cmd d.cf = Str cf)
      /\ (exists requests, get cmd d.requests = Requests requests)
  | RRD_CONF_CDEF =>
      exists rpns, get cmd c.rpns = Rpns rpns
                   /\ Forall (fun rp => forall dp, rpn_def rp = Some dp -> dp < n) rpns
  | _ => True
  end.

(** A command array the resolver went through: every backing DEF is a
    resolved DEF of the array, and every command has its shape *)
Definition resolved (st : rrd_cmds_t) : Prop :=
  resolved_upto (length (cmds st)) st
  /\ forall j cmd, cmds st !! j = Some cmd -> shaped (length (cmds st)) cmd.

(** A command of the configuration as a request finds it: as
    [parse_element] left it, the sources of the request before popped *)
Definition configured (cmd : rrd_cmd_t) : Prop := parsed cmd /\ shaped 0 cmd.

(** An option as a directive gives it: a key of the table of options
    with a value, with its value and the expression the value was parsed
    to, or a key of the table of options without a value, alone *)
Definition directive_option (opt : rrd_opt_t) : Prop :=
  (key opt ∈ keys_with_value /\ is_Some (val opt) /\ is_Some (eval opt))
  \/ (key opt ∈ keys_without_value /\ val opt = None /\ eval opt = None).



End shapes.

(** ** Configuration *)

Module Config.

Section config.

Context `{H : host}.

(** [ap_expr_parse_cmd(cmd, expr, AP_EXPR_FLAG_STRING_RESULT, &expr_err,
    NULL)]: the expression, or what it leaves in [expr_err] *)
Variable ap_expr_parse_cmd : string -> ap_expr_info_t + string.

(** [rrd_conf] with all its fields, as the directives build it; [env] is
    the hash, and [graph] the flag of the directive *)
Record rrd_conf := Conf {
  location : option string;
  options : list rrd_opt_t;
  elements : list rrd_cmd_t;
  env : gmap string ap_expr_info_t;
  format : option string;
  graph : bool;
  location_set : bool;
  format_set : bool;
  graph_set : bool;
}.

(** [create_rrd_config(p, dummy)] *)
Definition create_rrd_config : rrd_conf :=
  {| location := None; options := []; elements := []; env := ∅; format := None;
     graph := false; location_set := false; format_set := false;
     graph_set := false |}.

(** [merge_rrd_config(p, basev, addv)]: [apr_array_append] puts its first
    array first, and [apr_hash_overlay] lets its first hash win *)
Definition merge_rrd_config (base add : rrd_conf) : rrd_conf :=
  {| options := options add ++ options base;
     elements := elements add ++ elements base;
     env := env add ∪ env base;
     location := if location_set add then location add else location base;
     location_set := location_set add || location_set base;
     format := if format_set add then format add else format base;
     format_set := format_set add || format_set base;
     graph := if graph_set add then graph add else graph base;
     graph_set := graph_set add || graph_set base |}.

(** A directive returns its error message, NULL when there is none, and
    leaves the configuration it was given changed or not *)
Definition directive : Type := option string * rrd_conf.

(** [set_rrd_graph_format(cmd, dconf, format)] *)
Definition set_rrd_graph_format (conf : rrd_conf) (format0 : string) : directive :=
  (None,
   {| location := location conf; options := options conf; elements := elements conf;
      env := env conf; format := Some format0; graph := graph conf;
      location_set := location_set conf; format_set := true;
      graph_set := graph_set conf |}).

(** [conf] with [opts] as [conf->options] *)
Definition with_options (opts : list rrd_opt_t) (conf : rrd_conf) : rrd_conf :=
  {| location := location conf; options := opts; elements := elements conf;
     env := env conf; format := format conf; graph := graph conf;
     location_set := location_set conf; format_set := format_set conf;
     graph_set := graph_set conf |}.

(** [conf] with [cmds] as [conf->elements] *)
Definition with_elements (cmds : list rrd_cmd_t) (conf : rrd_conf) : rrd_conf :=
  {| location := location conf; options := options conf; elements := cmds;
     env := env conf; format := format conf; graph := graph conf;
     location_set := location_set conf; format_set := format_set conf;
     graph_set := graph_set conf |}.

Definition cannot_parse (val expr_err : string) : string :=
  "Cannot parse expression '" +:+ val +:+ "': " +:+ expr_err.

(** The [if (val)] of the directives: [eval] after it, or the message
    returned *)
Definition parse_value (val : option string) : option ap_expr_info_t + string :=
  match val with
  | Some val =>
      match ap_expr_parse_cmd val with
      | inl eval => inl (Some eval)
      | inr expr_err => inr (cannot_parse val expr_err)
      end
  | None => inl None
  end.

(** [set_rrd_graph_option(cmd, dconf, key, val)]; [val] is NULL when the
    directive has one argument *)
Definition set_rrd_graph_option (conf : rrd_conf) (key : string) (val : option string)
  : directive :=
  match parse_value val with
  | inr err => (Some err, conf)
  | inl eval =>
      match parse_option key val eval (options conf) with
      | Some opts => (None, with_options opts conf)
      | None => (Some ("Could not recognise option: " +:+ key), conf)
      end
  end.

(** [set_rrd_graph_element(cmd, dconf, element, val1, val2)] *)
Definition set_rrd_graph_element (conf : rrd_conf) (element : string)
    (val1 val2 : option string) : directive :=
  match parse_value val1 with
  | inr err => (Some err, conf)
  | inl eval1 =>
      match parse_value val2 with
      | inr err => (Some err, conf)
      | inl eval2 =>
          match parse_element element eval1 eval2 (elements conf) with
          | Some cmds => (None, with_elements cmds conf)
          | None => (Some ("RRDGraphElement was not recognised: " +:+ element), conf)
          end
      end
  end.

(** [set_rrd_graph_env(cmd, dconf, key, val)] *)
Definition set_rrd_graph_env (conf : rrd_conf) (key val : string) : directive :=
  match ap_expr_parse_cmd val with
  | inr expr_err => (Some (cannot_parse val expr_err), conf)
  | inl eval =>
      (None,
       {| location := location conf; options := options conf;
          elements := elements conf; env := <[key := eval]> (env conf);
          format := format conf; graph := graph conf;
          location_set := location_set conf; format_set := format_set conf;
          graph_set := graph_set conf |})
  end.

(** [set_rrd_graph(cmd, dconf, flag)] *)
Definition set_rrd_graph (conf : rrd_conf) (flag : bool) : directive :=
  (None,
   {| location := location conf; options := options conf; elements := elements conf;
      env := env conf; format := format conf; graph := flag;
      location_set := location_set conf; format_set := format_set conf;
      graph_set := true |}).

(** A field that no directive set holds what [create_rrd_config] put
    there *)
Definition unset_is_default (conf : rrd_conf) : Prop :=
  (location_set conf = false -> location conf = None)
  /\ (format_set conf = false -> format conf = None)
  /\ (graph_set conf = false -> graph conf = false).

(** The configurations the server builds from the directives of
    [rrd_cmds]: the fresh one, the merges, and what each directive
    leaves *)
Inductive built : rrd_conf -> Prop :=
  | built_create : built create_rrd_config
  | built_merge (base add : rrd_conf) :
      built base -> built add -> built (merge_rrd_config base add)
  | built_graph (conf : rrd_conf) (flag : bool) :
      built conf -> built (set_rrd_graph conf flag).2
  | built_format (conf : rrd_conf) (format0 : string) :
      built conf -> built (set_rrd_graph_format conf format0).2
  | built_option (conf : rrd_conf) (key : string) (val : option string) :
      built conf -> built (set_rrd_graph_option conf key val).2
  | built_element (conf : rrd_conf) (element : string) (val1 val2 : option string) :
      built conf -> built (set_rrd_graph_element conf element val1 val2).2
  | built_env (conf : rrd_conf) (key val : string) :
      built conf -> built (set_rrd_graph_env conf key val).2.

End config.

End Config.

(** ** Request handler *)

(** What a handler returns: [OK], here [AP_OK]; [DECLINED]; an HTTP
    status; and [SIGSEGV] where the C code faults *)
Inductive handler_status :=
  | AP_OK
  | DECLINED
  | HTTP (status : http_status)
  | SIGSEGV.

Section handler.

Context `{H : host}.

(** The render engine and the output filters.
    - [rrd_graph_v args]: the info list, as keys and values, [None] for NULL.
    - [rrd_get_error args]: the error of the call that failed.
    - [ap_pass_brigade r body]: whether, after the brigade with [body] went
      down the filters, [rv == APR_SUCCESS || r->status != HTTP_OK ||
      r->connection->aborted] holds.
    - [finfo_nofile r]: [r->finfo.filetype == APR_NOFILE].
    The mutex around the engine and the freeing of its results leave the
    response as it is. *)
Variable rrd_graph_v : list string -> option (list (string * string)).
Variable rrd_get_error : list string -> string.
Variable ap_pass_brigade : request_rec -> string -> bool.
Variable finfo_nofile : request_rec -> bool.

(** What [get_rrdgraph] answers: its return value, the content type
    when [ap_set_content_type] was called, the content length when
    [ap_set_content_length] was, the bytes written to the brigade, and the
    arguments of [log_message] when it was called *)
Record response := Response {
  ret : handler_status;
  content_type : option (option string);
  content_length : option nat;
  body : string;
  logged : option (string * option string);
}.

(** [conf->format ? conf->format : parse_rrdgraph_suffix(r)] *)
Definition graph_format (conf : rrd_conf) (r : request_rec) : option string :=
  match format conf with
  | Some format0 => Some format0
  | None => parse_rrdgraph_suffix (filename r)
  end.

(** The body of the [for] of [cleanup_args]: every saved request is
    popped, and its pool, which is the host's, destroyed.  The array of a
    configured DEF is the one of the configuration. *)
Definition cleanup_cmd (cmd : rrd_cmd_t) : result rrd_cmd_t :=
  match type cmd with
  | RRD_CONF_DEF =>
      match get cmd d.requests with
      | NULL => OK cmd
      | Requests _ => OK (set d.requests (Requests []) cmd)
      | _ => Fault
      end
  | _ => OK cmd
  end.

Fixpoint cleanup_cmds (cmds : list rrd_cmd_t) : result (list rrd_cmd_t) :=
  match cmds with
  | [] => OK []
  | cmd :: cmds' =>
      cmd ← cleanup_cmd cmd;
      cmds' ← cleanup_cmds cmds';
      OK (cmd :: cmds')
  end.

(** [cleanup_args(r, cmds)], which returns [OK] *)
Definition cleanup_args (st : rrd_cmds_t) : result rrd_cmds_t :=
  cmds' ← cleanup_cmds (cmds st);
  OK (Cmds cmds' (opts st) (names st)).

(** The [while (grinfo)] of [get_rrdgraph]: the value of the first entry
    under the key [image] *)
Fixpoint image_of (grinfo : list (string * string)) : option string :=
  match grinfo with
  | [] => None
  | (key, value) :: grinfo' =>
      if String.eqb key "image" then Some value else image_of grinfo'
  end.

(** A stage returned [status] after [log_message] *)
Definition failed (status : http_status) (message : string)
    (ctype : option (option string)) : response :=
  {| ret := HTTP status; content_type := ctype; content_length := None;
     body := ""; logged := Some (message, None) |}.

Definition faulted (ctype : option (option string)) : response :=
  {| ret := SIGSEGV; content_type := ctype; content_length := None;
     body := ""; logged := None |}.

(** The arrays the request shares with the configuration.
    [apr_array_cat] copies the structs of [conf->elements] into the array
    of the request, and with them the pointers [d.requests] and [c.rpns]:
    what [resolve_def_cb] pushes and [cleanup_args] pops, and the [def]
    that [resolve_cdef] writes into a token, are in the arrays of the
    configuration.  [left_in cmd' cmd] is the element [cmd] of the
    configuration when its copy in the request is [cmd']; the fields of
    the struct and the other members are written in the copy only. *)
Definition left_in (cmd' cmd : rrd_cmd_t) : rrd_cmd_t :=
  match type cmd with
  | RRD_CONF_DEF => set d.requests (get cmd' d.requests) cmd
  | RRD_CONF_CDEF => set c.rpns (get cmd' c.rpns) cmd
  | _ => cmd
  end.

(** The configuration when the command array of the request is [st] *)
Definition left_by (st : rrd_cmds_t) (conf : rrd_conf) : rrd_conf :=
  Conf (options conf)
       (imap (fun i cmd => from_option (fun cmd' => left_in cmd' cmd) cmd (cmds st !! i))
          (elements conf))
       (env conf) (format conf).

(** The command array when [resolve_def] returns an error for the DEF at
    index [i]: once the walk of [ap_dir_fnmatch] is over, the sources it
    pushed are in the array of the DEF, whatever the error *)
Definition resolve_def_left (r : request_rec) (i : nat) (st : rrd_cmds_t) : rrd_cmds_t :=
  default st
    (cmd ← cmds st !! i;
     path ← match get cmd d.epath with
            | Expr epath =>
                match ap_expr_str_exec r epath with
                | ExprError _ => None
                | Value path => Some path
                end
            | _ => match get cmd d.path with Str path => Some path | _ => None end
            end;
     dirpath ← match get cmd d.edirpath with
               | Expr edirpath =>
                   match ap_expr_str_exec r edirpath with
                   | ExprError _ => None
                   | Value dirpath => Some dirpath
                   end
               | _ => Some (default (filename r) (before_last (filename r) "/"))
               end;
     match resolve_def_walk r (ap_dir_fnmatch dirpath path).1 cmd with
     | OK cmd => Some (store i cmd st)
     | _ => None
     end).

(** The command array when the body of the [for] of [resolve_rrds]
    returns an error at index [i]: the resolvers of the other kinds write
    in no shared array before they return an error *)
Definition resolve_cmd_left (i : nat) (rst : request_rec * rrd_cmds_t) : rrd_cmds_t :=
  let (r, st) := rst in
  match type <$> cmds st !! i with
  | Some RRD_CONF_DEF => resolve_def_left r i st
  | _ => st
  end.

(** The command array when [resolve_rrds] returns *)
Fixpoint resolve_left (conf : rrd_conf) (n i : nat) (rst : request_rec * rrd_cmds_t)
  : rrd_cmds_t :=
  match n with
  | 0 => rst.2
  | S n' =>
      match resolve_cmd conf i rst with
      | OK rst' => resolve_left conf n' (S i) rst'
      | _ => resolve_cmd_left i rst
      end
  end.

(** The end of [get_rrdgraph], from the call of the engine on.  The
    status the engine's failure puts in [ret] is replaced by the one of
    [cleanup_args], which is [OK], before [ret] is next read. *)
Definition render (conf : rrd_conf) (r : request_rec) (st : rrd_cmds_t)
    (args : list string) (ctype : option (option string))
  : response * option rrd_conf :=
  let '(logged0, image) :=
    match rrd_graph_v args with
    | None =>
        (Some ("Call to rrd_graph_v failed", Some (rrd_get_error args)), None)
    | Some grinfo => (None, image_of grinfo)
    end in
  let body0 := default "" image in
  match cleanup_args st with
  | OK st =>
      ({| ret := if ap_pass_brigade r body0 then AP_OK
                 else HTTP HTTP_INTERNAL_SERVER_ERROR;
          content_type := ctype; content_length := String.length <$> image;
          body := body0; logged := logged0 |},
       Some (left_by st conf))
  | _ => (faulted ctype, None)
  end.

(** [get_rrdgraph(r)]; [conf] is the module configuration of [r].  The
    result is the response and the configuration as the request leaves it
    to the next one, [None] when the process is gone.  The three stages
    return their errors at once, and only after the call of the engine
    does [cleanup_args] pop the sources of the request. *)
Definition get_rrdgraph (conf : rrd_conf) (r : request_rec)
  : response * option rrd_conf :=
  match parse_query r conf with
  | Failed status message => (failed status message None, Some conf)
  | Fault => (faulted None, None)
  | OK st =>
      match resolve_rrds conf r st with
      | Failed status message =>
          (failed status message None,
           Some (left_by (resolve_left conf (length (cmds st)) 0 (r, st)) conf))
      | Fault => (faulted None, None)
      | OK (r, st) =>
          match graph_format conf r with
          | None => (faulted None, None)
          | Some format0 =>
              let ctype := Some (lookup_content_type format0) in
              match generate_args r st (Some format0) with
              | Failed status message =>
                  (failed status message ctype, Some (left_by st conf))
              | Fault => (faulted ctype, None)
              | OK args => render conf r st args ctype
              end
          end
      end
  end.



End handler.

(** ** A configuration and an engine for the examples *)

(** [RRDGraphElement DEF:a=*.rrd:in:AVERAGE] and [RRDGraphOption title
    hosts], the value read as an expression, in a location without
    [RRDGraphFormat] *)
Definition example_directives : @rrd_conf example_host :=
  Conf (default [] (@parse_option example_host "title" (Some "hosts")
                      (Some (example_expr "hosts of ")) []))
       (default [] (@parse_element example_host "DEF:a=*.rrd:in:AVERAGE" None None []))
       [] None.

(** An engine that draws when there is something to draw, and fails on
    the four arguments every call starts with *)
Definition example_rrd_graph_v (args : list string) : option (list (string * string)) :=
  if decide (length args <= 4) then None
  else Some [("image_width", "400"); ("image", "bytes of the image")].

(** A request under [example_directives]: its query string, the command
    list after [parse_query], and the request and the command list after
    [resolve_rrds] *)
Definition example_query : string := "LINE1:a#ff0000:in&title=x".

Definition example_parsed : @rrd_cmds_t example_host :=
  match @parse_query example_host (example_request example_query) example_directives with
  | OK st => st
  | _ => Cmds [] [] ∅
  end.

Definition example_resolved : @request_rec example_host * @rrd_cmds_t example_host :=
  match @resolve_rrds example_host example_directives (example_request example_query)
          example_parsed with
  | OK rst => rst
  | _ => (example_request example_query, example_parsed)
  end.




(** * Properties *)

(** ** Strings *)

Lemma app_cons (a : ascii) (s1 s2 : string) :
  String a s1 +:+ s2 = String a (s1 +:+ s2).
Proof. reflexivity. Qed.

Lemma app_empty_l (s : string) : "" +:+ s = s.
Proof. reflexivity. Qed.

Lemma app_empty_r (s : string) : s +:+ "" = s.
Proof. induction s as [|a s IH]; [reflexivity|]. rewrite app_cons. by f_equal. Qed.

Lemma app_assoc_str (s1 s2 s3 : string) : (s1 +:+ s2) +:+ s3 = s1 +:+ (s2 +:+ s3).
Proof.
  induction s1 as [|a s1 IH]; [reflexivity|].
  rewrite !app_cons. by f_equal.
Qed.

Ltac str_norm :=
  repeat first [rewrite app_assoc_str | rewrite app_empty_l | rewrite app_empty_r].

Lemma prefix_app (sub post : string) : String.prefix sub (sub +:+ post) = true.
Proof.
  induction sub as [|a sub IH].
  - by destruct post.
  - rewrite app_cons. simpl. destruct (ascii_dec a a); [exact IH|done].
Qed.

Lemma ap_strstr_c_unfold (s sub : string) :
  ap_strstr_c s sub =
  if String.prefix sub s then Some s
  else match s with "" => None | String _ s' => ap_strstr_c s' sub end.
Proof. by destruct s. Qed.

(** [ap_strstr_c] finds the needle wherever it is *)
Lemma ap_strstr_c_found (pre sub post : string) :
  is_Some (ap_strstr_c (pre +:+ sub +:+ post) sub).
Proof.
  induction pre as [|a pre IH].
  - rewrite app_empty_l, ap_strstr_c_unfold, prefix_app. by eexists.
  - rewrite app_cons, ap_strstr_c_unfold.
    destruct (String.prefix sub _); [by eexists|exact IH].
Qed.

(** ** Colon escaping *)

Lemma escape_colon_loop_spec (s : string) (slen : Z) (size : nat) (found : bool) :
  (slen < 0)%Z ->
  exists size',
    escape_colon_loop s slen size found = (colonEscape s, size', found || has_colon s).
Proof.
  revert slen size found.
  induction s as [|c s IH]; intros slen size found Hneg;
    cbn [escape_colon_loop has_colon colonEscape].
  - exists size. by rewrite orb_false_r.
  - destruct (Z.eqb_spec slen 0) as [->|_]; [lia|].
    rewrite (Ascii.eqb_sym ":" c).
    destruct (Ascii.eqb c ":") eqn:Hc; cbn [orb].
    + apply Ascii.eqb_eq in Hc as ->.
      destruct (IH (slen - 1)%Z (S (S size)) true ltac:(lia)) as [size' ->].
      exists size'. by rewrite orb_true_r.
    + destruct (IH (slen - 1)%Z (S size) found ltac:(lia)) as [size' ->].
      by exists size'.
Qed.

Lemma colonEscape_no_colon (s : string) : has_colon s = false -> colonEscape s = s.
Proof.
  induction s as [|c s IH]; cbn [has_colon colonEscape]; [done|].
  destruct (Ascii.eqb c ":"); cbn [orb]; [done|]. intros Hs. by rewrite IH.
Qed.

(** [pescape_colon] computes [colonEscape] *)
Lemma pescape_colon_spec (s : string) : pescape_colon s = colonEscape s.
Proof.
  unfold pescape_colon, escape_colon, APR_ESCAPE_STRING.
  destruct (escape_colon_loop_spec s (-1) 1 false) as [size ->]; [lia|].
  simpl. destruct (has_colon s) eqn:Hc; [done|].
  by rewrite colonEscape_no_colon.
Qed.

Lemma colonEscape_head (s : string) :
  match colonEscape s with String c _ => Ascii.eqb c ":" = false | "" => True end.
Proof.
  destruct s as [|c s]; cbn [colonEscape]; [done|].
  destruct (Ascii.eqb c ":") eqn:Hc; [done|exact Hc].
Qed.

Lemma split_unescaped_backslash (s : string) :
  match s with String c _ => Ascii.eqb c ":" = false | "" => True end ->
  split_unescaped (String "\" s) = cons_char "\" (split_unescaped s).
Proof.
  destruct s as [|c s]; [done|]. intros Hc.
  cbn [split_unescaped]. change (Ascii.eqb "\" "\") with true. by rewrite Hc.
Qed.

(** A colon-escaped text alone is one field, which reads back as the text *)
Lemma split_unescaped_colonEscape (t : string) :
  split_unescaped (colonEscape t) = [t].
Proof.
  induction t as [|c t IH]; [done|].
  cbn [colonEscape]. destruct (Ascii.eqb c ":") eqn:Hc.
  - apply Ascii.eqb_eq in Hc as ->. cbn. by rewrite IH.
  - destruct (Ascii.eqb c "\") eqn:Hb.
    + apply Ascii.eqb_eq in Hb as ->.
      rewrite split_unescaped_backslash by apply colonEscape_head.
      by rewrite IH.
    + cbn [split_unescaped]. by rewrite Hb, Hc, IH.
Qed.

(** A colon-escaped text followed by a separator is the first field,
    unless the text ends in a backslash *)
Lemma split_unescaped_colonEscape_app (t rest : string) :
  ends_with_backslash t = false ->
  split_unescaped (colonEscape t +:+ String ":" rest) = t :: split_unescaped rest.
Proof.
  induction t as [|c t IH]; intros Hend; [done|].
  assert (ends_with_backslash t = false) as Ht.
  { destruct t; [done|exact Hend]. }
  cbn [colonEscape]. destruct (Ascii.eqb c ":") eqn:Hc.
  - apply Ascii.eqb_eq in Hc as ->. rewrite !app_cons.
    cbn [split_unescaped]. change (Ascii.eqb "\" "\") with true.
    change (Ascii.eqb ":" ":") with true. cbn iota. by rewrite IH.
  - rewrite app_cons. destruct (Ascii.eqb c "\") eqn:Hb.
    + apply Ascii.eqb_eq in Hb as ->.
      destruct t as [|c' t]; [done|].
      rewrite split_unescaped_backslash.
      * by rewrite IH.
      * pose proof (colonEscape_head (String c' t)) as Hh.
        destruct (colonEscape (String c' t)) as [|c'' ?] eqn:He; [|exact Hh].
        cbn [colonEscape] in He. by destruct (Ascii.eqb c' ":").
    + cbn [split_unescaped]. by rewrite Hb, Hc, IH.
Qed.

Section properties.

Context `{H : host}.

(** ** The union *)

Lemma get_set_ne (m m' : member) (w : word) (cmd : rrd_cmd_t) :
  m <> m' -> get (set m w cmd) m' = get cmd m'.
Proof. intros Hne. unfold get, set; cbn [u]. by rewrite vlookup_insert_ne. Qed.

Lemma get_set_eq (m : member) (w : word) (cmd : rrd_cmd_t) :
  get (set m w cmd) m = w.
Proof. unfold get, set; cbn [u]. by rewrite vlookup_insert. Qed.

(** ** The daemon check of [generate_def] *)


Lemma generate_def_daemon (cmd : rrd_cmd_t) (pre post : string) (args : list string) :
  get cmd d.cf = Str (pre +:+ ":daemon=" +:+ post) ->
  generate_def cmd args = Failed HTTP_BAD_REQUEST daemon_message.
Proof.
  intros Hcf. unfold generate_def. rewrite Hcf.
  by destruct (ap_strstr_c_found pre ":daemon=" post) as [x ->].
Qed.

(** ** Absorption *)



Lemma print_run_0 (cmds : list rrd_cmd_t) (i : nat) : print_run cmds i 0.
Proof. intros x Hx. lia. Qed.

Lemma absorb_print_run (cmds : list rrd_cmd_t) (cmd_def : option nat) (i j : nat)
    (rest : list rrd_cmd_t) :
  forall (k skip : nat) (args : list string),
    rest = drop k cmds -> i < k ->
    print_run cmds i (k - i - 1) -> print_run cmds i skip ->
    print_run cmds i (fst (absorb cmd_def i j k rest skip args)).
Proof.
  induction rest as [|pcmd rest IH]; intros k skip args Hrest Hk Hrun Hskip; [done|].
  assert (cmds !! k = Some pcmd) as Hpcmd.
  { rewrite <- (Nat.add_0_r k), <- lookup_drop, <- Hrest. done. }
  assert (rest = drop (S k) cmds) as Hrest'.
  { replace (S k) with (k + 1) by lia. rewrite <- (drop_drop cmds 1 k), <- Hrest. done. }
  assert (printish pcmd -> print_run cmds i (S k - i - 1)) as Hext.
  { intros Hp x Hx. destruct (decide (x = k)) as [->|Hne]; [by eexists|].
    apply Hrun. lia. }
  cbn [absorb]. destruct (decide (def pcmd = cmd_def)); [|done].
  destruct (type pcmd) eqn:Hty; try done.
  - apply IH; auto. apply Hext. by left.
  - apply IH; auto. apply Hext. by right.
Qed.

Lemma generate_graph_each_print_run (fmt : nat -> word -> string) (legend elegend : word)
    (st : rrd_cmds_t) (cmd : rrd_cmd_t) (requests : list request_rec) (i n : nat) :
  forall (j skip : nat) (args : list string) (skip' : nat) (args' : list string),
    print_run (cmds st) i skip ->
    generate_graph_each fmt legend elegend st cmd requests i n j skip args
      = OK (skip', args') ->
    print_run (cmds st) i skip'.
Proof.
  induction n as [|n IH]; intros j skip args skip' args' Hskip Hgen.
  - by injection Hgen as <- <-.
  - cbn [generate_graph_each] in Hgen.
    destruct (eval_legend _ legend elegend) as [legend_j| |]; try done.
    cbn [mbind result_bind] in Hgen.
    destruct (absorb _ _ _ _ _ _ _) as [skip1 args1] eqn:Habs.
    eapply IH; [|exact Hgen].
    replace skip1 with (fst (absorb (def cmd) i j (S i) (drop (S i) (cmds st)) skip
                                (push args (fmt j legend_j)))) by by rewrite Habs.
    apply absorb_print_run; auto.
    replace (S i - i - 1) with 0 by lia. apply print_run_0.
Qed.

Lemma generate_graph_print_run (keyword : string) (vname legend elegend : member)
    (fmt1 : rrd_cmd_t -> word -> string) (fmtn : rrd_cmd_t -> nat -> word -> string)
    (st : rrd_cmds_t) (cmd : rrd_cmd_t) (args : list string) (i : nat)
    (args' : list string) (i' : nat) :
  generate_graph keyword vname legend elegend fmt1 fmtn st cmd args i = OK (args', i') ->
  exists skip, i' = i + skip /\ print_run (cmds st) i skip.
Proof.
  unfold generate_graph. destruct (def_of st cmd) as [[dcmd| |]|]; try done.
  cbn [mbind result_bind].
  destruct (num dcmd) as [|[|n]].
  - intros [= <- <-]. exists 0. split; [lia|apply print_run_0].
  - destruct (get dcmd d.requests); try done.
    destruct (eval_legend _ _ _); try done. cbn [mbind result_bind].
    intros [= <- <-]. exists 0. split; [lia|apply print_run_0].
  - destruct (get dcmd d.requests); try done.
    destruct (generate_graph_each _ _ _ _ _ _ _ _ _ _ _) as [[skip args1]| |] eqn:Hgen;
      try done.
    cbn [mbind result_bind]. intros [= <- <-]. exists skip. split; [done|].
    eapply generate_graph_each_print_run; [|exact Hgen]. apply print_run_0.
Qed.

(** A generator leaves [i] alone or moves it over PRINT and GPRINT
    commands only *)
Lemma generate_cmd_print_run (r : request_rec) (st : rrd_cmds_t) (cmd : rrd_cmd_t)
    (args : list string) (i : nat) (args' : list string) (i' : nat) :
  generate_cmd r st cmd args i = OK (args', i') ->
  exists skip, i' = i + skip /\ print_run (cmds st) i skip.
Proof.
  unfold generate_cmd.
  destruct (type cmd);
    try (by apply generate_graph_print_run);
    match goal with
    | |- context [mbind _ ?g] => destruct g; try done
    end;
    cbn [mbind result_bind]; intros [= <- <-];
    (exists 0; split; [lia|apply print_run_0]).
Qed.

(** The main loop reaches every command that is not a PRINT or GPRINT *)
Lemma generate_cmds_rejects (r : request_rec) (st : rrd_cmds_t) (i0 : nat)
    (cmd0 : rrd_cmd_t) :
  cmds st !! i0 = Some cmd0 -> ~ printish cmd0 ->
  (forall args i, exists status message,
      generate_cmd r st cmd0 args i = Failed status message) ->
  forall (fuel i : nat) (args out : list string),
    i <= i0 -> i0 < fuel + i -> generate_cmds fuel r st i args <> OK out.
Proof.
  intros Hcmd0 Hnp Hfail fuel.
  induction fuel as [|fuel IH]; intros i args out Hle Hfuel; [lia|].
  cbn [generate_cmds].
  destruct (cmds st !! i) as [cmd|] eqn:Hcmd.
  2:{ apply lookup_ge_None in Hcmd. apply lookup_lt_Some in Hcmd0. lia. }
  destruct (decide (i = i0)) as [->|Hne].
  - assert (cmd = cmd0) as -> by congruence.
    destruct (Hfail args i0) as (status & message & ->). done.
  - destruct (generate_cmd r st cmd args i) as [[args' i']| |] eqn:Hgen; try done.
    cbn [mbind result_bind].
    apply generate_cmd_print_run in Hgen as (skip & -> & Hrun).
    apply IH; [|lia].
    destruct (decide (i0 <= i + skip)) as [Hin|]; [|lia].
    destruct (Hrun i0 ltac:(lia)) as (cmd' & Hcmd' & Hp).
    assert (cmd' = cmd0) as -> by congruence. done.
Qed.

(** C2.  A DEF whose consolidation function contains [:daemon=], at any
    place and between any texts, is rejected: [generate_def] fails with
    the status of a request error, whatever the matched sources and
    whatever was generated so far, and the message is a constant of the
    module that does not show the value.  The request as a whole is
    rejected too: no argument vector comes out of [generate_args] for a
    command list that holds such a DEF. *)
Theorem daemon_rejected (cmd : rrd_cmd_t) (pre post : string) :
  type cmd = RRD_CONF_DEF ->
  get cmd d.cf = Str (pre +:+ ":daemon=" +:+ post) ->
  (forall (requests : list request_rec) (n : nat) (args : list string),
      generate_def (set_num n (set d.requests (Requests requests) cmd)) args
      = Failed HTTP_BAD_REQUEST "DEF elements must not contain a 'daemon' parameter")
  /\ (forall (r : request_rec) (st : rrd_cmds_t) (format : option string),
        cmd ∈ cmds st ->
        forall out, generate_args r st format <> OK out).
Proof.
  intros Hty Hcf. split.
  - intros requests n args. eapply generate_def_daemon.
    rewrite <- Hcf. unfold set_num, get; cbn [u].
    fold (get (set d.requests (Requests requests) cmd) d.cf).
    by apply get_set_ne.
  - intros r st format [i0 Hcmd0]%list_elem_of_lookup out.
    unfold generate_args. destruct format as [format|]; [|done].
    destruct (generate_opts r (opts st) _) as [args| |]; try done.
    cbn [mbind result_bind].
    eapply generate_cmds_rejects; [exact Hcmd0| | |lia|].
    + unfold printish. rewrite Hty. by intros [|].
    + intros args' i. unfold generate_cmd. rewrite Hty.
      erewrite generate_def_daemon by exact Hcf. by eexists _, _.
    + apply lookup_lt_Some in Hcmd0. lia.
Qed.

(** ** COMMENT and TEXTALIGN *)

(** C10.  For a COMMENT or a TEXTALIGN element of the query string the
    parser stores the first word, and writes the legend through the
    member [a.legend], which shares its slot with [e.elegend]; the next
    statement stores [expr1] in that slot.  The member [e.legend], which
    the generator reads, stays NULL: whatever the legend text, the one
    argument generated is the word, a colon and [(null)]. *)
Theorem comment_legend_lost (rest : string) (cmds : list rrd_cmd_t)
    (r : request_rec) (args : list string) :
  (exists cmd,
      parse_element ("COMMENT:" +:+ rest) None None cmds = Some (cmds ++ [cmd])
      /\ type cmd = RRD_CONF_COMMENT
      /\ get cmd e.element = Str "COMMENT"
      /\ get cmd e.legend = NULL
      /\ generate_element r cmd args = OK (args ++ ["COMMENT:(null)"]))
  /\ (exists cmd,
      parse_element ("TEXTALIGN:" +:+ rest) None None cmds = Some (cmds ++ [cmd])
      /\ type cmd = RRD_CONF_TEXTALIGN
      /\ get cmd e.element = Str "TEXTALIGN"
      /\ get cmd e.legend = NULL
      /\ generate_element r cmd args = OK (args ++ ["TEXTALIGN:(null)"])).
Proof.
  split.
  - rewrite !app_cons, app_empty_l. unfold parse_element.
    cbn -[getword_quote skip_char].
    destruct (getword_quote _ ":") as [legend element].
    eexists. split; [reflexivity|]. by repeat split.
  - rewrite !app_cons, app_empty_l. unfold parse_element.
    cbn -[getword_quote skip_char].
    destruct (getword_quote _ ":") as [legend element].
    eexists. split; [reflexivity|]. by repeat split.
Qed.

(** ** Options without a value *)

(** C7.  [parse_option] accepts each key of the table of options without
    a value when [val] is NULL.  [parse_query] never passes NULL: [val] is
    what [apr_cstr_tokenize] leaves in [element], a pointer to the end of
    the fragment when there is no [=].  So the option is looked up among
    the options with a value, and the bare key is answered with a request
    error. *)
Theorem bare_option_rejected (conf : rrd_conf) (r : request_rec) (key : string) :
  key ∈ keys_without_value ->
  args r = Some key ->
  apr_punescape_url key = Some key ->
  (forall opts, parse_option key None None opts = Some (opts ++ [Opt key None None]))
  /\ parse_query r conf
     = Failed HTTP_BAD_REQUEST ("Query was not recognised: " +:+ key).
Proof.
  intros Hkey Hargs Hurl. unfold parse_query. rewrite Hargs.
  unfold keys_without_value in Hkey.
  repeat (apply elem_of_cons in Hkey as [->|Hkey]);
    try (by apply elem_of_nil in Hkey);
    (split; [done|]);
    cbn -[apr_punescape_url]; rewrite Hurl; reflexivity.
Qed.

(** ** The resolver and the name table *)

Lemma bind_OK {A B} (m : result A) (f : A -> result B) (b : B) :
  m ≫= f = OK b -> exists a, m = OK a /\ f a = OK b.
Proof. destruct m as [a| |]; try done. intros Hf. by exists a. Qed.

Tactic Notation "bind_ok" hyp(Hb) "as" ident(a) ident(Ha) :=
  apply bind_OK in Hb as (a & Ha & Hb).

Lemma names_set_OK (key : word) (i : nat) (st st' : rrd_cmds_t) :
  names_set key i st = OK st' ->
  exists k, key = Str k /\ st' = Cmds (cmds st) (opts st) (<[k := i]> (names st)).
Proof. destruct key; try done. intros [= <-]. by eexists. Qed.

Lemma cmd_at_OK (st : rrd_cmds_t) (i : nat) (cmd : rrd_cmd_t) :
  cmd_at st i = OK cmd <-> cmds st !! i = Some cmd.
Proof. unfold cmd_at. destruct (cmds st !! i); split; congruence. Qed.


Lemma kept_defines (cmd cmd' : rrd_cmd_t) : kept cmd cmd' -> defines cmd' = defines cmd.
Proof. intros [Hty Hget]. unfold defines. by rewrite Hty, Hget. Qed.

Lemma resolve_def_walk_kept (r : request_rec) (fnames : list string) :
  forall cmd cmd',
    resolve_def_walk r fnames cmd = OK cmd' ->
    type cmd' = type cmd /\ def cmd' = def cmd
    /\ forall m, m <> d.requests -> get cmd' m = get cmd m.
Proof.
  induction fnames as [|fname fnames IH]; intros cmd cmd' Hwalk.
  - by injection Hwalk as <-.
  - cbn [resolve_def_walk] in Hwalk. bind_ok Hwalk as cmd1 Hcb.
    apply IH in Hwalk as (Hty & Hdef & Hget).
    unfold resolve_def_cb in Hcb.
    destruct (status_ok _); [|by injection Hcb as <-].
    bind_ok Hcb as arr Harr. injection Hcb as <-.
    split_and!; [done..|].
    intros m Hm. rewrite Hget by done. unfold set_num, get; cbn [u].
    fold (get (set d.requests (Requests (arr ++ [ap_sub_req_lookup_file fname r])) cmd) m).
    by rewrite get_set_ne.
Qed.

Lemma resolve_ref_OK (vname : member) (keyword : string) (i : nat) (st st' : rrd_cmds_t)
    (cmd : rrd_cmd_t) :
  cmds st !! i = Some cmd ->
  resolve_ref vname keyword i st = OK st' ->
  exists n j refcmd,
    get cmd vname = Str n /\ names st !! n = Some j /\ cmds st !! j = Some refcmd
    /\ st' = store i (set_def (def refcmd) cmd) st.
Proof.
  intros Hcmd Hres. unfold resolve_ref in Hres.
  bind_ok Hres as cmd0 Hat. apply cmd_at_OK in Hat. rewrite Hcmd in Hat.
  injection Hat as <-.
  bind_ok Hres as ref Href. unfold names_get in Href.
  destruct (get cmd vname) as [|n| | | | |] eqn:Hget; try done.
  injection Href as <-. destruct (names st !! n) as [j|] eqn:Hn; [|done].
  bind_ok Hres as refcmd Hrefcmd. apply cmd_at_OK in Hrefcmd. injection Hres as <-.
  by exists n, j, refcmd.
Qed.

Lemma resolve_ref_None (vname : member) (keyword : string) (i : nat) (st : rrd_cmds_t)
    (cmd : rrd_cmd_t) (n : string) :
  cmds st !! i = Some cmd ->
  get cmd vname = Str n ->
  names st !! n = None ->
  resolve_ref vname keyword i st
  = Failed HTTP_BAD_REQUEST
      ("While parsing " +:+ keyword +:+ ": '" +:+ n +:+ "' was not found").
Proof.
  intros Hcmd Hget Hn. unfold resolve_ref.
  apply cmd_at_OK in Hcmd. rewrite Hcmd. cbn [mbind result_bind].
  rewrite Hget. cbn [names_get mbind result_bind]. by rewrite Hn.
Qed.

Lemma resolve_vdef_OK (i : nat) (st st' : rrd_cmds_t) (cmd : rrd_cmd_t) :
  cmds st !! i = Some cmd ->
  resolve_vdef i st = OK st' ->
  exists n j refcmd k,
    get cmd v.dsname = Str n /\ names st !! n = Some j /\ cmds st !! j = Some refcmd
    /\ get cmd v.vname = Str k
    /\ st' = Cmds (<[i := set_num (num refcmd)
                          (set_def (def refcmd) (set v.ref (Ref j) cmd))]> (cmds st))
                  (opts st) (<[k := i]> (names st)).
Proof.
  intros Hcmd Hres. unfold resolve_vdef in Hres.
  bind_ok Hres as cmd0 Hat. apply cmd_at_OK in Hat. rewrite Hcmd in Hat.
  injection Hat as <-.
  bind_ok Hres as ref Href. unfold names_get in Href.
  destruct (get cmd v.dsname) as [|n| | | | |] eqn:Hget; try done.
  injection Href as <-. destruct (names st !! n) as [j|] eqn:Hn; [|done].
  bind_ok Hres as refcmd Hrefcmd. apply cmd_at_OK in Hrefcmd.
  apply names_set_OK in Hres as (k & Hk & ->).
  exists n, j, refcmd, k. split_and!; try done.
  rewrite <- Hk. unfold set_num, set_def, get; cbn [u].
  fold (get (set v.ref (Ref j) cmd) v.vname). by rewrite get_set_ne.
Qed.

Lemma resolve_vdef_None (i : nat) (st : rrd_cmds_t) (cmd : rrd_cmd_t) (n : string) :
  cmds st !! i = Some cmd ->
  get cmd v.dsname = Str n ->
  names st !! n = None ->
  resolve_vdef i st
  = Failed HTTP_BAD_REQUEST
      ("While parsing VDEF '" +:+ fmt_s (get cmd v.vname) +:+ "': '" +:+ n
       +:+ "' was not found").
Proof.
  intros Hcmd Hget Hn. unfold resolve_vdef.
  apply cmd_at_OK in Hcmd. rewrite Hcmd. cbn [mbind result_bind].
  rewrite Hget. cbn [names_get mbind result_bind]. by rewrite Hn.
Qed.

(** The loop of [resolve_cdef] keeps the type and every member but
    [c.ref] *)
Lemma resolve_cdef_rpns_kept (st : rrd_cmds_t) (rpns : list rrd_rpn_t) :
  forall cmd rpns' cmd',
    resolve_cdef_rpns st rpns cmd = OK (rpns', cmd') ->
    type cmd' = type cmd /\ num cmd' = num cmd
    /\ forall m, m <> c.ref -> get cmd' m = get cmd m.
Proof.
  induction rpns as [|rp rpns IH]; intros cmd rpns' cmd' Hres.
  - by injection Hres as <- <-.
  - cbn [resolve_cdef_rpns] in Hres. bind_ok Hres as x Hx. destruct x as [rp1 cmd1].
    bind_ok Hres as y Hy. destruct y as [rpns1 cmd2]. injection Hres as <- <-.
    apply IH in Hy as (Hty & Hnum & Hget).
    destruct (is_null (get cmd c.ref)).
    + destruct (names st !! rpn rp) as [j|].
      * bind_ok Hx as refcmd Hrefcmd. injection Hx as <- <-.
        split_and!; [done..|]. intros m Hm. rewrite Hget by done.
        unfold set_def, get; cbn [u].
        fold (get (set c.ref (Ref j) cmd) m). by rewrite get_set_ne.
      * by injection Hx as <- <-.
    + by injection Hx as <- <-.
Qed.

Lemma resolve_cdef_OK (i : nat) (st st' : rrd_cmds_t) (cmd : rrd_cmd_t) :
  cmds st !! i = Some cmd ->
  resolve_cdef i st = OK st' ->
  exists k cmd',
    get cmd c.vname = Str k /\ kept cmd cmd'
    /\ st' = Cmds (<[i := cmd']> (cmds st)) (opts st) (<[k := i]> (names st)).
Proof.
  intros Hcmd Hres. unfold resolve_cdef in Hres.
  bind_ok Hres as cmd0 Hat. apply cmd_at_OK in Hat. rewrite Hcmd in Hat.
  injection Hat as <-.
  bind_ok Hres as rpns0 Hrpns0. bind_ok Hres as y Hloop. destruct y as [rpns cmd1].
  bind_ok Hres as x0 Hnum1. apply names_set_OK in Hres as (k & Hk & ->).
  apply resolve_cdef_rpns_kept in Hloop as (Hty & Hnum & Hget).
  assert (type x0 = type cmd /\ forall m, m <> c.ref -> m <> c.rpns ->
                                     get x0 m = get cmd m) as [Hty0 Hget0].
  { destruct (get (set c.rpns (Rpns rpns) cmd1) c.ref);
      try (bind_ok Hnum1 as refcmd Hrefcmd); injection Hnum1 as <-;
      (split; [done|]); intros m Hm1 Hm2;
      unfold set_num, get; cbn [u];
      fold (get (set c.rpns (Rpns rpns) cmd1) m);
      rewrite get_set_ne by done; by apply Hget. }
  exists k, x0. split_and!; [|split|done].
  - rewrite <- Hk. symmetry. by apply Hget0.
  - done.
  - by apply Hget0.
Qed.

Lemma resolve_def_OK (conf : rrd_conf) (r r' : request_rec) (i : nat)
    (st st' : rrd_cmds_t) (cmd : rrd_cmd_t) :
  cmds st !! i = Some cmd ->
  resolve_def conf r i st = OK (r', st') ->
  exists k cmd',
    get cmd d.vname = Str k /\ kept cmd cmd' /\ def cmd' = Some i
    /\ st' = Cmds (<[i := cmd']> (cmds st)) (opts st) (<[k := i]> (names st)).
Proof.
  intros Hcmd Hres. unfold resolve_def in Hres.
  bind_ok Hres as cmd0 Hat. apply cmd_at_OK in Hat. rewrite Hcmd in Hat.
  injection Hat as <-.
  bind_ok Hres as path Hpath. bind_ok Hres as dirpath Hdirpath.
  destruct (ap_dir_fnmatch dirpath path) as [fnames err].
  bind_ok Hres as cmd1 Hwalk. destruct err as [err|]; [done|].
  bind_ok Hres as requests Hrequests. bind_ok Hres as r1 Henv.
  bind_ok Hres as st1 Hset. injection Hres as <- <-.
  apply resolve_def_walk_kept in Hwalk as (Hty' & Hdef' & Hget').
  apply names_set_OK in Hset as (k & Hk & ->).
  exists k, (set_def (Some i) cmd1). split_and!; [|split| |]; try done.
  - rewrite <- Hk. symmetry. by apply Hget'.
  - by apply Hget'.
Qed.

(** The state after one iteration of [resolve_rrds] *)
Lemma resolve_cmd_OK (conf : rrd_conf) (i : nat) (r r' : request_rec)
    (st st' : rrd_cmds_t) (cmd : rrd_cmd_t) :
  cmds st !! i = Some cmd ->
  resolve_cmd conf i (r, st) = OK (r', st') ->
  names st' = match defines cmd with
              | Some n => <[n := i]> (names st)
              | None => names st
              end
  /\ length (cmds st') = length (cmds st)
  /\ (forall j, j <> i -> cmds st' !! j = cmds st !! j)
  /\ exists cmd', cmds st' !! i = Some cmd' /\ kept cmd cmd'.
Proof.
  intros Hcmd Hres. cbn [resolve_cmd] in Hres.
  assert (i < length (cmds st)) as Hlt by by eapply lookup_lt_Some.
  bind_ok Hres as cmd0 Hat. apply cmd_at_OK in Hat. rewrite Hcmd in Hat.
  injection Hat as <-.
  assert (forall cmd' names' st2,
             kept cmd cmd' ->
             st2 = Cmds (<[i := cmd']> (cmds st)) (opts st) names' ->
             length (cmds st2) = length (cmds st)
             /\ (forall j, j <> i -> cmds st2 !! j = cmds st !! j)
             /\ exists cmd', cmds st2 !! i = Some cmd' /\ kept cmd cmd') as Hframe.
  { intros cmd' names' st2 Hkept ->. cbn [cmds].
    split_and!; [by rewrite length_insert| |].
    - intros j Hj. by rewrite list_lookup_insert_ne.
    - exists cmd'. by rewrite list_lookup_insert_eq. }
  assert (forall (vname : member) (keyword : string) (st1 : rrd_cmds_t),
             resolve_ref vname keyword i st = OK st1 ->
             exists cmd', kept cmd cmd'
               /\ st1 = Cmds (<[i := cmd']> (cmds st)) (opts st) (names st)) as Href.
  { intros vname keyword st1 Hr.
    eapply resolve_ref_OK in Hr as (n & j & refcmd & _ & _ & _ & ->); [|done].
    eexists. split; [|reflexivity]. by split. }
  unfold defines.
  destruct (type cmd) eqn:Hty;
    try (injection Hres as <- <-; split_and!; [done..|]; by exists cmd);
    try (bind_ok Hres as st1 Hx; injection Hres as <- <-;
         apply Href in Hx as (cmd' & Hkept & ->);
         split; [done|]; by eapply Hframe).
  - eapply resolve_def_OK in Hres as (k & cmd' & Hk & Hkept & _ & ->); [|done].
    rewrite Hk. split; [done|]. by eapply Hframe.
  - bind_ok Hres as st1 Hx. injection Hres as <- <-.
    eapply resolve_cdef_OK in Hx as (k & cmd' & Hk & Hkept & ->); [|done].
    change c.vname with d.vname in Hk. rewrite Hk. split; [done|]. by eapply Hframe.
  - bind_ok Hres as st1 Hx. injection Hres as <- <-.
    eapply resolve_vdef_OK in Hx as (n & j & refcmd & k & _ & _ & _ & Hk & ->); [|done].
    change v.vname with d.vname in Hk. rewrite Hk. split; [done|].
    eapply Hframe; [|reflexivity]. split; [done|].
    unfold set_num, set_def, get; cbn [u].
    fold (get (set v.ref (Ref j) cmd) d.vname). by rewrite get_set_ne.
Qed.

Lemma resolve_loop_app (conf : rrd_conf) (n1 n2 : nat) :
  forall i rst,
    resolve_loop conf (n1 + n2) i rst
    = resolve_loop conf n1 i rst ≫= resolve_loop conf n2 (i + n1).
Proof.
  induction n1 as [|n1 IH]; intros i rst.
  - cbn. by rewrite Nat.add_0_r.
  - cbn [Nat.add resolve_loop].
    destruct (resolve_cmd conf i rst) as [rst1| |]; try done.
    cbn [mbind result_bind]. rewrite IH. by replace (S i + n1) with (i + S n1) by lia.
Qed.


(** Commands that do not define [n] leave its entry alone *)
Lemma names_after_other (n : string) (l : list rrd_cmd_t) :
  forall i names,
    (forall cmd, cmd ∈ l -> defines cmd <> Some n) ->
    names_after l i names !! n = names !! n.
Proof.
  induction l as [|cmd l IH]; intros i names Hl; [done|].
  cbn [names_after]. rewrite IH.
  - destruct (defines cmd) as [k|] eqn:Hk; [|done].
    rewrite lookup_insert_ne; [done|]. intros ->. by eapply Hl; [left|].
  - intros cmd' Hin. apply Hl. by right.
Qed.


(** The state after the iterations [i], ..., [i + n - 1] of the loop of
    [resolve_rrds] *)
Lemma resolve_loop_OK (conf : rrd_conf) (n : nat) :
  forall i r st r' st',
    i + n <= length (cmds st) ->
    resolve_loop conf n i (r, st) = OK (r', st') ->
    names st' = names_after (take n (drop i (cmds st))) i (names st)
    /\ length (cmds st') = length (cmds st)
    /\ (forall j, j < i \/ i + n <= j -> cmds st' !! j = cmds st !! j).
Proof.
  induction n as [|n IH]; intros i r st r' st' Hlen Hloop.
  - injection Hloop as <- <-. by rewrite take_0.
  - cbn [resolve_loop] in Hloop. bind_ok Hloop as rst1 Hstep.
    destruct rst1 as [r1 st1].
    destruct (lookup_lt_is_Some_2 (cmds st) i ltac:(lia)) as [cmd Hcmd].
    eapply resolve_cmd_OK in Hstep as (Hnames & Hlen1 & Hother & _); [|done].
    apply IH in Hloop as (Hnames' & Hlen' & Hother'); [|lia].
    assert (drop (S i) (cmds st1) = drop (S i) (cmds st)) as Hdrop.
    { apply list_eq. intros x. rewrite !lookup_drop. apply Hother. lia. }
    split_and!.
    + rewrite Hnames', Hdrop, Hnames.
      rewrite (drop_S _ _ _ Hcmd). done.
    + lia.
    + intros j Hj. rewrite Hother' by lia. apply Hother. lia.
Qed.

(** The name table when the resolver reaches the command at [i] *)
Lemma resolve_loop_names (conf : rrd_conf) (i : nat) (r r' : request_rec)
    (st st' : rrd_cmds_t) :
  i <= length (cmds st) ->
  names st = ∅ ->
  resolve_loop conf i 0 (r, st) = OK (r', st') ->
  names st' = names_after (take i (cmds st)) 0 ∅
  /\ forall j, i <= j -> cmds st' !! j = cmds st !! j.
Proof.
  intros Hlen Hempty Hloop.
  apply resolve_loop_OK in Hloop as (Hnames & _ & Hother); [|lia].
  rewrite drop_0, Hempty in Hnames. split; [done|].
  intros j Hj. apply Hother. lia.
Qed.

(** C6.  A command that refers to a name (AREA, LINE, TICK, SHIFT, PRINT
    and GPRINT through [vname], VDEF through [dsname]) which no command
    before it in the sequence defines makes the resolution fail, whatever
    the commands after it define.  When the commands before it resolve,
    the failure is the request error of that command, and its message
    quotes the name. *)
Theorem forward_reference_rejected (conf : rrd_conf) (r : request_rec)
    (st : rrd_cmds_t) (i : nat) (cmd : rrd_cmd_t) (n : string) :
  names st = ∅ ->
  cmds st !! i = Some cmd ->
  reference cmd = Some (Str n) ->
  (forall j cmd', j < i -> cmds st !! j = Some cmd' -> defines cmd' <> Some n) ->
  (forall out, resolve_rrds conf r st <> OK out)
  /\ (forall r' st',
        resolve_loop conf i 0 (r, st) = OK (r', st') ->
        exists pre,
          resolve_rrds conf r st
          = Failed HTTP_BAD_REQUEST (pre +:+ "'" +:+ n +:+ "' was not found")).
Proof.
  intros Hempty Hcmd Href Hbefore.
  assert (i < length (cmds st)) as Hlt by by eapply lookup_lt_Some.
  assert (forall r' st',
             resolve_loop conf i 0 (r, st) = OK (r', st') ->
             exists pre,
               resolve_rrds conf r st
               = Failed HTTP_BAD_REQUEST (pre +:+ "'" +:+ n +:+ "' was not found"))
    as Hfail.
  { intros r' st' Hloop. unfold resolve_rrds.
    replace (length (cmds st)) with (i + S (length (cmds st) - S i)) by lia.
    rewrite resolve_loop_app, Hloop. cbn [mbind result_bind Nat.add resolve_loop].
    apply resolve_loop_names in Hloop as (Hnames & Hother); [|lia|done].
    assert (names st' !! n = None) as Hn.
    { rewrite Hnames, names_after_other; [done|].
      intros cmd' [j Hj]%list_elem_of_lookup.
      apply lookup_take_Some in Hj as [Hj Hji]. by eapply Hbefore. }
    assert (cmds st' !! i = Some cmd) as Hcmd' by (by rewrite Hother).
    unfold resolve_cmd. rewrite (proj2 (cmd_at_OK st' i cmd) Hcmd').
    cbn [mbind result_bind].
    unfold reference in Href.
    destruct (type cmd) eqn:Hty; try done; injection Href as Href;
      unfold resolve_area, resolve_line, resolve_tick, resolve_shift,
        resolve_gprint, resolve_print;
      try (erewrite resolve_ref_None by done; cbn [mbind result_bind];
           match goal with
           | |- exists pre, Failed _ ("While parsing " +:+ ?kw +:+ _) = _ =>
               exists ("While parsing " +:+ kw +:+ ": "); reflexivity
           end).
    erewrite resolve_vdef_None by done. cbn [mbind result_bind].
    exists ("While parsing VDEF '" +:+ fmt_s (get cmd v.vname) +:+ "': ").
    by rewrite !app_assoc_str. }
  split; [|exact Hfail].
  intros out Hout.
  destruct (resolve_loop conf i 0 (r, st)) as [[r' st']| |] eqn:Hloop.
  - destruct (Hfail r' st' eq_refl) as [pre Hpre]. congruence.
  - unfold resolve_rrds in Hout.
    replace (length (cmds st)) with (i + S (length (cmds st) - S i)) in Hout by lia.
    by rewrite resolve_loop_app, Hloop in Hout.
  - unfold resolve_rrds in Hout.
    replace (length (cmds st)) with (i + S (length (cmds st) - S i)) in Hout by lia.
    by rewrite resolve_loop_app, Hloop in Hout.
Qed.


(** ** CDEF *)

Lemma resolve_cdef_rpns_none (st : rrd_cmds_t) (rpns : list rrd_rpn_t) (cmd : rrd_cmd_t) :
  (forall rp, rp ∈ rpns -> names st !! rpn rp = None) ->
  resolve_cdef_rpns st rpns cmd = OK (rpns, cmd).
Proof.
  induction rpns as [|rp rpns IH]; intros Hnone; [done|].
  cbn [resolve_cdef_rpns]. rewrite (Hnone rp) by left.
  destruct (is_null (get cmd c.ref)); cbn [mbind result_bind];
    (rewrite IH; [done|]); intros rp' Hin; apply Hnone; by right.
Qed.

Lemma resolve_cdef_rpns_anchored (st : rrd_cmds_t) (rpns : list rrd_rpn_t)
    (cmd : rrd_cmd_t) :
  is_null (get cmd c.ref) = false ->
  resolve_cdef_rpns st rpns cmd = OK (rpns, cmd).
Proof.
  intros Href. induction rpns as [|rp rpns IH]; [done|].
  cbn [resolve_cdef_rpns]. rewrite Href. cbn [mbind result_bind]. by rewrite IH.
Qed.


(** C3, as amended.  A CDEF as the parser leaves it, none of whose tokens
    is in the name table, resolves without error: it keeps multiplicity 0
    and no backing DEF, and its name enters the table.  The generator
    then rejects it with a request error that names it, and generates
    nothing for it: the main loop of [generate_args] fails with that
    error when it reaches the command, and [generate_args] returns no
    argument vector for any command list that holds it, so not for what
    the resolver makes of the commands that follow. *)
Theorem inert_cdef_rejected (conf : rrd_conf) (i : nat) (st : rrd_cmds_t)
    (cmd : rrd_cmd_t) (k : string) (rpns : list rrd_rpn_t) :
  cmds st !! i = Some cmd ->
  type cmd = RRD_CONF_CDEF ->
  num cmd = 0 -> def cmd = None ->
  get cmd c.vname = Str k -> get cmd c.ref = NULL -> get cmd c.rpns = Rpns rpns ->
  (forall rp, rp ∈ rpns -> names st !! rpn rp = None) ->
  let message := "CDEF element '" +:+ k +:+ "' referred to no existing definitions" in
  exists cmd',
    let st1 := Cmds (<[i := cmd']> (cmds st)) (opts st) (<[k := i]> (names st)) in
    resolve_cdef i st = OK st1
    /\ (forall r, resolve_cmd conf i (r, st) = OK (r, st1))
    /\ type cmd' = RRD_CONF_CDEF /\ num cmd' = 0 /\ def cmd' = None
    /\ (forall st' args,
          generate_cdef st' cmd' args = Failed HTTP_BAD_REQUEST message)
    /\ (forall r st' j fuel args,
          cmds st' !! j = Some cmd' ->
          generate_cmds (S fuel) r st' j args = Failed HTTP_BAD_REQUEST message)
    /\ (forall r st' format out,
          cmd' ∈ cmds st' -> generate_args r st' format <> OK out)
    /\ (forall r n r' st' format out,
          S i + n <= length (cmds st) ->
          resolve_loop conf n (S i) (r, st1) = OK (r', st') ->
          generate_args r' st' format <> OK out).
Proof.
  intros Hcmd Hty Hnum Hdef Hk Hnull Hrpns Hnone message.
  exists (set c.rpns (Rpns rpns) cmd). intros st1.
  assert (get (set c.rpns (Rpns rpns) cmd) c.ref = NULL) as Hnull'.
  { by rewrite get_set_ne. }
  assert (get (set c.rpns (Rpns rpns) cmd) c.vname = Str k) as Hk'.
  { by rewrite get_set_ne. }
  assert (resolve_cdef i st = OK st1) as Hres.
  { unfold resolve_cdef. rewrite (proj2 (cmd_at_OK st i cmd) Hcmd).
    cbn [mbind result_bind]. rewrite Hrpns. cbn [mbind result_bind].
    rewrite resolve_cdef_rpns_none by done. cbn [mbind result_bind].
    rewrite Hnull'. cbn [mbind result_bind]. by rewrite Hk'. }
  assert (forall st' args,
             generate_cdef st' (set c.rpns (Rpns rpns) cmd) args
             = Failed HTTP_BAD_REQUEST message) as Hgen.
  { intros st' args. unfold generate_cdef, def_of. cbn [def set]. rewrite Hdef.
    by rewrite Hk'. }
  assert (forall r st' args j,
             generate_cmd r st' (set c.rpns (Rpns rpns) cmd) args j
             = Failed HTTP_BAD_REQUEST message) as Hstep.
  { intros r st' args j. unfold generate_cmd. cbn [type set]. rewrite Hty.
    by rewrite Hgen. }
  assert (forall r st' format out,
             set c.rpns (Rpns rpns) cmd ∈ cmds st' ->
             generate_args r st' format <> OK out) as Hargs.
  { intros r st' format out [i0 Hcmd0]%list_elem_of_lookup.
    unfold generate_args. destruct format as [format|]; [|done].
    destruct (generate_opts r (opts st') _) as [args| |]; try done.
    cbn [mbind result_bind].
    eapply generate_cmds_rejects; [exact Hcmd0| | |lia|].
    - unfold printish. cbn [type set]. rewrite Hty. by intros [|].
    - intros args' j. rewrite Hstep. by eexists _, _.
    - apply lookup_lt_Some in Hcmd0. lia. }
  split_and!; [done| |done..| | |].
  - intros r. unfold resolve_cmd. rewrite (proj2 (cmd_at_OK st i cmd) Hcmd).
    cbn [mbind result_bind]. rewrite Hty, Hres. done.
  - intros r st' j fuel args Hj. cbn [generate_cmds]. by rewrite Hj, Hstep.
  - done.
  - intros r n r' st' format out Hlen Hloop. apply Hargs.
    assert (i < length (cmds st)) as Hi by by eapply lookup_lt_Some.
    apply resolve_loop_OK in Hloop as (_ & _ & Hkeep).
    2:{ subst st1. cbn [cmds]. rewrite length_insert. lia. }
    apply (list_elem_of_lookup_2 _ i). rewrite Hkeep by lia.
    subst st1. cbn [cmds]. by apply list_lookup_insert_eq.
Qed.




(** ** The backing DEF of a resolved command *)

Lemma resolve_def_walk_requests (r : request_rec) (fnames : list string) :
  forall cmd cmd' arr,
    resolve_def_walk r fnames cmd = OK cmd' ->
    get cmd d.requests = Requests arr ->
    exists arr', get cmd' d.requests = Requests (arr ++ arr')
                 /\ num cmd' = num cmd + length arr'.
Proof.
  induction fnames as [|fname fnames IH]; intros cmd cmd' arr Hwalk Harr.
  - injection Hwalk as <-. exists []. rewrite app_nil_r. split; [done|]. cbn. lia.
  - cbn [resolve_def_walk] in Hwalk. bind_ok Hwalk as cmd1 Hcb.
    unfold resolve_def_cb in Hcb.
    destruct (status_ok _).
    + unfold requests_of in Hcb. rewrite Harr in Hcb. cbn [mbind result_bind] in Hcb.
      injection Hcb as <-.
      eapply IH in Hwalk as (arr' & Harr' & Hnum).
      2:{ unfold set_num, get; cbn [u].
          fold (get (set d.requests
                       (Requests (arr ++ [ap_sub_req_lookup_file fname r])) cmd)
                  d.requests).
          by rewrite get_set_eq. }
      eexists (_ :: arr'). rewrite <- app_assoc in Harr'. split; [exact Harr'|].
      rewrite Hnum. cbn. lia.
    + injection Hcb as <-. by eapply IH.
Qed.

Lemma resolve_def_resolved (conf : rrd_conf) (r r' : request_rec) (i : nat)
    (st st' : rrd_cmds_t) (cmd : rrd_cmd_t) :
  cmds st !! i = Some cmd -> type cmd = RRD_CONF_DEF -> parsed cmd ->
  resolve_def conf r i st = OK (r', st') ->
  exists cmd', cmds st' !! i = Some cmd' /\ kept cmd cmd' /\ resolved_def i cmd'.
Proof.
  intros Hcmd Hty (_ & Hnum0 & Hparsed) Hres. rewrite Hty in Hparsed.
  assert (i < length (cmds st)) as Hlt by by eapply lookup_lt_Some.
  unfold resolve_def in Hres.
  bind_ok Hres as cmd0 Hat. apply cmd_at_OK in Hat. rewrite Hcmd in Hat.
  injection Hat as <-.
  bind_ok Hres as path Hpath. bind_ok Hres as dirpath Hdirpath.
  destruct (ap_dir_fnmatch dirpath path) as [fnames err].
  bind_ok Hres as cmd1 Hwalk. destruct err as [err|]; [done|].
  bind_ok Hres as requests Hrequests. bind_ok Hres as r1 Henv.
  bind_ok Hres as st1 Hset. injection Hres as <- <-.
  pose proof (resolve_def_walk_kept _ _ _ _ Hwalk) as (Hty' & Hdef' & Hget').
  eapply resolve_def_walk_requests in Hwalk as (arr' & Harr' & Hnum'); [|done].
  apply names_set_OK in Hset as (k & Hk & ->).
  exists (set_def (Some i) cmd1). cbn [cmds store].
  split_and!.
  - by rewrite list_lookup_insert_eq.
  - split; [done|]. by apply Hget'.
  - split_and!; [by rewrite <- Hty| done|].
    exists arr'. split; [exact Harr'|]. cbn [num set_def]. lia.
Qed.

Lemma resolve_cdef_rpns_ref (st : rrd_cmds_t) (rpns : list rrd_rpn_t) :
  forall cmd rpns' cmd',
    resolve_cdef_rpns st rpns cmd = OK (rpns', cmd') ->
    get cmd c.ref = NULL ->
    (cmd' = cmd)
    \/ (exists tok j refcmd,
          names st !! tok = Some j /\ cmds st !! j = Some refcmd
          /\ get cmd' c.ref = Ref j /\ def cmd' = def refcmd).
Proof.
  induction rpns as [|rp rpns IH]; intros cmd rpns' cmd' Hres Hnull.
  - injection Hres as <- <-. by left.
  - cbn [resolve_cdef_rpns] in Hres. rewrite Hnull in Hres. cbn [is_null] in Hres.
    destruct (names st !! rpn rp) as [j|] eqn:Hj.
    + bind_ok Hres as x Hx. bind_ok Hx as refcmd Hrefcmd. injection Hx as <-.
      apply cmd_at_OK in Hrefcmd.
      bind_ok Hres as y Hy. destruct y as [rpns1 cmd1]. injection Hres as <- <-.
      rewrite resolve_cdef_rpns_anchored in Hy.
      2:{ unfold set_def, get; cbn [u]. fold (get (set c.ref (Ref j) cmd) c.ref).
          by rewrite get_set_eq. }
      injection Hy as <- <-. right. exists (rpn rp), j, refcmd.
      split_and!; try done.
      unfold set_def, get; cbn [u]. fold (get (set c.ref (Ref j) cmd) c.ref).
      by rewrite get_set_eq.
    + cbn [mbind result_bind] in Hres.
      bind_ok Hres as y Hy. destruct y as [rpns1 cmd1]. injection Hres as <- <-.
      by eapply IH.
Qed.

(** The backing DEF and the multiplicity a CDEF gets: its own as parsed,
    or those of a command of the name table *)
Lemma resolve_cdef_backing (i : nat) (st st' : rrd_cmds_t) (cmd : rrd_cmd_t) :
  cmds st !! i = Some cmd -> get cmd c.ref = NULL ->
  resolve_cdef i st = OK st' ->
  exists cmd', cmds st' !! i = Some cmd' /\ kept cmd cmd'
    /\ ((def cmd' = def cmd /\ num cmd' = num cmd)
        \/ exists tok j refcmd,
            names st !! tok = Some j /\ cmds st !! j = Some refcmd
            /\ def cmd' = def refcmd /\ num cmd' = num refcmd).
Proof.
  intros Hcmd Hnull Hres.
  assert (i < length (cmds st)) as Hlt by by eapply lookup_lt_Some.
  pose proof Hres as Hres0.
  eapply resolve_cdef_OK in Hres0 as (k & cmd0 & Hk & Hkept & ->); [|done].
  exists cmd0. cbn [cmds]. rewrite list_lookup_insert_eq by done.
  split_and!; [done..|].
  unfold resolve_cdef in Hres.
  bind_ok Hres as cmd1 Hat. apply cmd_at_OK in Hat. rewrite Hcmd in Hat.
  injection Hat as <-.
  bind_ok Hres as rpns0 Hrpns0. bind_ok Hres as y Hloop. destruct y as [rpns cmd1].
  bind_ok Hres as cmd2 Hnum. apply names_set_OK in Hres as (k' & Hk' & Hst).
  injection Hst as Hcmds Hnames.
  assert (cmd2 = cmd0) as ->.
  { apply (f_equal (fun l => l !! i)) in Hcmds.
    rewrite !list_lookup_insert_eq in Hcmds by done. congruence. }
  pose proof (resolve_cdef_rpns_kept _ _ _ _ _ Hloop) as (_ & Hnum1 & _).
  eapply resolve_cdef_rpns_ref in Hloop
    as [->|(tok & j & refcmd & Htok & Hrefcmd & Href & Hdef)]; [| |done].
  - left. rewrite get_set_ne, Hnull in Hnum by done. by injection Hnum as <-.
  - right. rewrite get_set_ne, Href in Hnum by done.
    rewrite (proj2 (cmd_at_OK st j refcmd) Hrefcmd) in Hnum.
    injection Hnum as <-. by exists tok, j, refcmd.
Qed.


Lemma backed_mono (st st' : rrd_cmds_t) (k : nat) (cmd : rrd_cmd_t) :
  (forall j, j < k -> cmds st' !! j = cmds st !! j) ->
  backed st k cmd -> backed st' (S k) cmd.
Proof.
  intros Hsame Hb dp Hdp. destruct (Hb dp Hdp) as (Hlt & dcmd & Hdcmd & Hrest).
  split; [lia|]. exists dcmd. by rewrite Hsame.
Qed.

Lemma resolve_cmd_resolved_upto (conf : rrd_conf) (k : nat) (r r' : request_rec)
    (st st' : rrd_cmds_t) :
  resolved_upto k st ->
  resolve_cmd conf k (r, st) = OK (r', st') ->
  resolved_upto (S k) st'.
Proof.
  intros (Hnames & Hbacked & Hparsed) Hstep.
  pose proof Hstep as Hstep0. unfold resolve_cmd in Hstep0.
  bind_ok Hstep0 as cmd Hcmd. apply cmd_at_OK in Hcmd. clear Hstep0.
  assert (k < length (cmds st)) as Hlt by by eapply lookup_lt_Some.
  pose proof (resolve_cmd_OK _ _ _ _ _ _ _ Hcmd Hstep)
    as (Hnames' & Hlen & Hother & cmd' & Hcmd' & Hkept).
  pose proof (Hparsed k cmd (Nat.le_refl k) Hcmd) as (Hdef0 & Hnum0 & Hshape).
  assert (forall j, j < k -> cmds st' !! j = cmds st !! j) as Hsame.
  { intros j Hj. apply Hother. lia. }
  (* what the command at [k] has become *)
  assert (backed st' (S k) cmd') as Hnew.
  { unfold resolve_cmd in Hstep. rewrite (proj2 (cmd_at_OK st k cmd) Hcmd) in Hstep.
    cbn [mbind result_bind] in Hstep.
    assert (forall (vname : member) (keyword : string) (st1 : rrd_cmds_t),
               defines cmd = None ->
               resolve_ref vname keyword k st = OK st1 ->
               forall cmd1, cmds st1 !! k = Some cmd1 -> backed st1 (S k) cmd1) as Href.
    { intros vname keyword st1 Hnone Hr.
      eapply resolve_ref_OK in Hr as (n & j & refcmd & _ & Hn & Hrefcmd & ->); [|done].
      intros cmd1 Hcmd1. cbn [cmds store] in Hcmd1. rewrite list_lookup_insert_eq in Hcmd1 by done.
      injection Hcmd1 as <-.
      destruct (Hnames n j Hn) as (Hj & _).
      intros dp Hdp. cbn [def set_def] in Hdp.
      destruct (Hbacked j refcmd Hj Hrefcmd dp Hdp) as (Hdplt & dcmd & Hdcmd & Hres & _).
      split; [lia|]. exists dcmd. cbn [cmds store].
      rewrite list_lookup_insert_ne by lia. split_and!; [done..|].
      intros [x Hx]. unfold defines in Hx, Hnone. cbn [type set_def] in Hx.
      unfold get in Hx, Hnone. cbn [u set_def] in Hx. by rewrite Hnone in Hx. }
    destruct (type cmd) eqn:Hty;
      try (injection Hstep as <- <-; rewrite Hcmd in Hcmd'; injection Hcmd' as <-;
           intros dp Hdp; congruence);
      try (bind_ok Hstep as st1 Hr; injection Hstep as <- <-;
           unfold resolve_area, resolve_line, resolve_tick, resolve_shift,
             resolve_gprint, resolve_print in Hr;
           eapply Href; [|exact Hr|exact Hcmd']; unfold defines; by rewrite Hty).
    - (* DEF *)
      eapply resolve_def_resolved in Hstep as (cmd1 & Hcmd1 & _ & Hres);
        [|done|done|by unfold parsed; rewrite Hty].
      rewrite Hcmd' in Hcmd1. injection Hcmd1 as <-.
      intros dp Hdp. destruct Hres as (Hty1 & Hdef1 & Hreq).
      rewrite Hdef1 in Hdp. injection Hdp as <-.
      split; [lia|]. exists cmd'. by split_and!.
    - (* CDEF *)
      bind_ok Hstep as st1 Hr. injection Hstep as <- <-.
      eapply resolve_cdef_backing in Hr
        as (cmd1 & Hcmd1 & _ & [[Hd Hn]|(tok & j & refcmd & Htok & Hrefcmd & Hd & Hn)]);
        [| |done|done];
        rewrite Hcmd' in Hcmd1; injection Hcmd1 as <-.
      + intros dp Hdp. congruence.
      + destruct (Hnames tok j Htok) as (Hj & refcmd' & Hrefcmd' & Hnamed).
        assert (refcmd' = refcmd) as -> by congruence.
        intros dp Hdp. rewrite Hd in Hdp.
        destruct (Hbacked j refcmd Hj Hrefcmd dp Hdp)
          as (Hdplt & dcmd & Hdcmd & Hres & Hnumref).
        split; [lia|]. exists dcmd. rewrite Hsame by lia.
        split_and!; [done..|]. intros _. rewrite Hn. by apply Hnumref.
    - (* VDEF *)
      bind_ok Hstep as st1 Hr. injection Hstep as <- <-.
      eapply resolve_vdef_OK in Hr
        as (n & j & refcmd & k' & _ & Hn & Hrefcmd & _ & Hst); [|done].
      subst st1.
      cbn [cmds] in Hcmd'. rewrite list_lookup_insert_eq in Hcmd' by done.
      injection Hcmd' as <-.
      destruct (Hnames n j Hn) as (Hj & refcmd' & Hrefcmd' & Hnamed).
      assert (refcmd' = refcmd) as -> by congruence.
      intros dp Hdp. cbn [def set_num set_def] in Hdp.
      destruct (Hbacked j refcmd Hj Hrefcmd dp Hdp)
        as (Hdplt & dcmd & Hdcmd & Hres & Hnumref).
      split; [lia|]. exists dcmd. cbn [cmds].
      rewrite list_lookup_insert_ne by lia.
      split_and!; [done..|]. intros _. cbn [num set_num]. by apply Hnumref. }
  split_and!.
  - intros n j Hn. rewrite Hnames' in Hn.
    destruct (defines cmd) as [n0|] eqn:Hn0.
    + destruct (decide (n0 = n)) as [->|Hne].
      * rewrite lookup_insert_eq in Hn. injection Hn as <-.
        split; [lia|]. exists cmd'. split; [done|].
        rewrite (kept_defines _ _ Hkept), Hn0. by eexists.
      * rewrite lookup_insert_ne in Hn by done.
        destruct (Hnames n j Hn) as (Hj & c & Hc & Hnamed).
        split; [lia|]. exists c. by rewrite Hsame.
    + destruct (Hnames n j Hn) as (Hj & c & Hc & Hnamed).
      split; [lia|]. exists c. by rewrite Hsame.
  - intros j c Hj Hc. destruct (decide (j = k)) as [->|Hne].
    + rewrite Hcmd' in Hc. by injection Hc as <-.
    + rewrite Hsame in Hc by lia. eapply backed_mono; [done|].
      eapply Hbacked; [|done]. lia.
  - intros j c Hj Hc. rewrite Hother in Hc by lia. eapply Hparsed; [|done]. lia.
Qed.

(** The resolver links every command it passed to a resolved DEF *)
Lemma resolve_loop_resolved_upto (conf : rrd_conf) (k : nat) :
  forall r st r' st',
    names st = ∅ ->
    (forall cmd, cmd ∈ cmds st -> parsed cmd) ->
    resolve_loop conf k 0 (r, st) = OK (r', st') ->
    resolved_upto k st'.
Proof.
  induction k as [|k IH]; intros r st r' st' Hempty Hparsed Hloop.
  - injection Hloop as <- <-. split_and!.
    + intros n j Hn. by rewrite Hempty in Hn.
    + intros j cmd Hj. lia.
    + intros j cmd _ Hcmd. apply Hparsed. by eapply list_elem_of_lookup_2.
  - replace (S k) with (k + 1) in Hloop by lia.
    rewrite resolve_loop_app in Hloop. bind_ok Hloop as rst1 Hfirst.
    destruct rst1 as [r1 st1].
    cbn [resolve_loop Nat.add] in Hloop. bind_ok Hloop as rst2 Hstep.
    injection Hloop as ->.
    eapply resolve_cmd_resolved_upto; [|exact Hstep].
    by eapply IH.
Qed.

(** ** Lines and multiplicity *)





(** [absorb] adds lines to [args], and what it adds and the number of
    commands to skip do not depend on [args] *)
Lemma absorb_app (cmd_def : option nat) (i j : nat) (rest : list rrd_cmd_t) :
  forall k skip args,
    absorb cmd_def i j k rest skip args
    = (fst (absorb cmd_def i j k rest skip []),
       args ++ snd (absorb cmd_def i j k rest skip [])).
Proof.
  induction rest as [|pcmd rest IH]; intros k skip args.
  - cbn. by rewrite app_nil_r.
  - cbn [absorb]. destruct (decide (def pcmd = cmd_def)); [|cbn; by rewrite app_nil_r].
    destruct (type pcmd); try (cbn; by rewrite app_nil_r).
    + rewrite IH. rewrite (IH _ _ (push [] _)). cbn [fst snd]. unfold push.
      by rewrite <- app_assoc.
    + rewrite IH. rewrite (IH _ _ (push [] _)). cbn [fst snd]. unfold push.
      by rewrite <- app_assoc.
Qed.

(** The number of commands to skip does not depend on the source, and
    the lines do not depend on [skip] *)
Lemma absorb_fst_snd (cmd_def : option nat) (i j : nat) (rest : list rrd_cmd_t) :
  forall k skip,
    fst (absorb cmd_def i j k rest skip []) = fst (absorb cmd_def i 0 k rest skip [])
    /\ snd (absorb cmd_def i j k rest skip []) = snd (absorb cmd_def i j k rest 0 []).
Proof.
  induction rest as [|pcmd rest IH]; intros k skip; [done|].
  cbn [absorb]. destruct (decide (def pcmd = cmd_def)); [|done].
  destruct (type pcmd); try done.
  - rewrite absorb_app, (absorb_app _ _ 0), (absorb_app _ _ j _ _ 0). cbn [fst snd].
    destruct (IH (S k) skip) as [-> ->]. done.
  - rewrite absorb_app, (absorb_app _ _ 0), (absorb_app _ _ j _ _ 0). cbn [fst snd].
    destruct (IH (S k) skip) as [-> ->]. done.
Qed.

(** Running the scan again from its own result changes nothing *)
Lemma absorb_fst_idem (cmd_def : option nat) (i : nat) (rest : list rrd_cmd_t) :
  forall k skip,
    fst (absorb cmd_def i 0 k rest
           (fst (absorb cmd_def i 0 k rest skip [])) [])
    = fst (absorb cmd_def i 0 k rest skip []).
Proof.
  induction rest as [|pcmd rest IH]; intros k skip; [done|].
  cbn [absorb]. destruct (decide (def pcmd = cmd_def)); [|done].
  destruct (type pcmd); try done.
  - rewrite !(absorb_app _ _ 0 _ _ _ (push [] _)). cbn [fst]. apply IH.
  - rewrite !(absorb_app _ _ 0 _ _ _ (push [] _)). cbn [fst]. apply IH.
Qed.

Lemma generate_graph_each_lines (fmt : nat -> word -> string) (legend elegend : word)
    (st : rrd_cmds_t) (cmd : rrd_cmd_t) (requests : list request_rec) (i : nat)
    (leg : nat -> word) (n : nat) :
  forall j skip args,
    (forall x, j <= x < j + n -> eval_legend (requests !! x) legend elegend = OK (leg x)) ->
    generate_graph_each fmt legend elegend st cmd requests i n j skip args
    = OK (match n with
          | 0 => skip
          | _ => fst (absorb (def cmd) i 0 (S i) (drop (S i) (cmds st)) skip [])
          end,
          args ++ flat_map (fun x => fmt x (leg x) :: absorbed st cmd i x) (seq j n)).
Proof.
  induction n as [|n IH]; intros j skip args Hleg.
  - cbn. by rewrite app_nil_r.
  - cbn [generate_graph_each seq flat_map]. rewrite Hleg by lia.
    cbn [mbind result_bind]. rewrite absorb_app.
    destruct (absorb_fst_snd (def cmd) i j (drop (S i) (cmds st)) (S i) skip)
      as [-> ->].
    rewrite IH by (intros x Hx; apply Hleg; lia).
    unfold push, absorbed. rewrite <- !app_assoc. cbn [app].
    destruct n as [|n]; [done|]. by rewrite absorb_fst_idem.
Qed.


Lemma flat_map_ext_all {A B} (f g : A -> list B) (l : list A) :
  (forall x, f x = g x) -> flat_map f l = flat_map g l.
Proof. intros Hfg. induction l as [|x l IH]; [done|]. cbn. by rewrite Hfg, IH. Qed.

Lemma line_fmtn_suffixed (cmd : rrd_cmd_t) (j : nat) (legend : word) :
  line_fmtn cmd j legend = line_fmt1 (suffixed_cmd l.vname j cmd) legend.
Proof.
  unfold line_fmtn, line_fmt1, suffixed_cmd, suffixed.
  rewrite get_set_eq, !get_set_ne by done. cbn [fmt_s]. by str_norm.
Qed.

Lemma area_fmtn_suffixed (cmd : rrd_cmd_t) (j : nat) (legend : word) :
  area_fmtn cmd j legend = area_fmt1 (suffixed_cmd a.vname j cmd) legend.
Proof.
  unfold area_fmtn, area_fmt1, suffixed_cmd, suffixed.
  rewrite get_set_eq, !get_set_ne by done. cbn [fmt_s]. by str_norm.
Qed.

Lemma tick_fmtn_suffixed (cmd : rrd_cmd_t) (j : nat) (legend : word) :
  tick_fmtn cmd j legend = tick_fmt1 (suffixed_cmd t.vname j cmd) legend.
Proof.
  unfold tick_fmtn, tick_fmt1, suffixed_cmd, suffixed.
  rewrite get_set_eq, !get_set_ne by done. cbn [fmt_s]. by str_norm.
Qed.


(** The lines of the three graphical generators, and [i] after them *)
Lemma generate_graph_lines (keyword : string) (vname legend elegend : member)
    (fmt1 : rrd_cmd_t -> word -> string) (fmtn : rrd_cmd_t -> nat -> word -> string)
    (st : rrd_cmds_t) (cmd : rrd_cmd_t) (args : list string) (i dp : nat)
    (dcmd : rrd_cmd_t) (requests : list request_rec) (leg : nat -> word) :
  (forall j w, fmtn cmd j w = fmt1 (suffixed_cmd vname j cmd) w) ->
  def cmd = Some dp -> cmds st !! dp = Some dcmd ->
  get dcmd d.requests = Requests requests ->
  (forall j, j < num dcmd ->
        eval_legend (requests !! j) (get cmd legend) (get cmd elegend) = OK (leg j)) ->
  generate_graph keyword vname legend elegend fmt1 fmtn st cmd args i
  = OK (args ++ graph_lines vname fmt1 st cmd i (num dcmd) leg,
        i + match num dcmd with 0 | 1 => 0 | _ => skipped st cmd i end).
Proof.
  intros Hfmt Hdef Hdcmd Hreq Hleg. unfold generate_graph, def_of. rewrite Hdef.
  rewrite (proj2 (cmd_at_OK st dp dcmd) Hdcmd). cbn [mbind result_bind].
  unfold graph_lines. destruct (num dcmd) as [|[|n]].
  - by rewrite app_nil_r, Nat.add_0_r.
  - rewrite Hreq, Hleg by lia. cbn [mbind result_bind]. by rewrite Nat.add_0_r.
  - rewrite Hreq.
    rewrite (generate_graph_each_lines _ _ _ _ _ _ _ leg)
      by (intros x Hx; apply Hleg; lia).
    cbn [mbind result_bind]. unfold skipped. do 3 f_equal.
    apply flat_map_ext_all. intros x. by rewrite Hfmt.
Qed.



(** ** The generators only add to the argument vector *)









(** ** Absorption and the main loop *)


(** When the scan stops at a command, the number of commands to skip is
    the number of commands taken in before it *)
Lemma absorb_stopped (cmd_def : option nat) (i j : nat) (run : list rrd_cmd_t)
    (stop : rrd_cmd_t) (rest : list rrd_cmd_t) :
  (forall pcmd, pcmd ∈ run -> absorbable cmd_def pcmd) ->
  ~ absorbable cmd_def stop ->
  forall skip args,
    fst (absorb cmd_def i j (S i) (run ++ stop :: rest) skip args) = length run.
Proof.
  intros Hrun Hstop.
  assert (forall k skip args,
             fst (absorb cmd_def i j k (run ++ stop :: rest) skip args)
             = k + length run - i - 1) as Hk.
  { induction run as [|pcmd run IH]; intros k skip args.
    - cbn [app absorb length].
      destruct (decide (def stop = cmd_def)) as [Hd|]; [|cbn; lia].
      destruct (type stop) eqn:Hty; cbn; try lia;
        exfalso; apply Hstop; split; try done; unfold printish; auto.
    - cbn [app absorb length].
      destruct (Hrun pcmd ltac:(left)) as [Hd [Hp|Hp]];
        destruct (decide (def pcmd = cmd_def)); try done; rewrite Hp;
        (rewrite IH by (intros pcmd' Hin; apply Hrun; by right)); lia. }
  intros skip args. rewrite Hk. lia.
Qed.

(** When the scan reaches the end of the array, every command after the
    graphical one was taken in, and the number of commands to skip is
    left as it was: 0 in the generators *)
Lemma absorb_trailing (cmd_def : option nat) (i j : nat) (run : list rrd_cmd_t) :
  (forall pcmd, pcmd ∈ run -> absorbable cmd_def pcmd) ->
  forall k skip args,
    fst (absorb cmd_def i j k run skip args) = skip
    /\ length (snd (absorb cmd_def i j k run skip args)) = length args + length run.
Proof.
  intros Hrun. induction run as [|pcmd run IH]; intros k skip args.
  - cbn. split; [done|lia].
  - cbn [absorb length].
    destruct (Hrun pcmd ltac:(left)) as [Hd [Hp|Hp]];
      destruct (decide (def pcmd = cmd_def)); try done; rewrite Hp;
      (destruct (IH ltac:(intros pcmd' Hin; apply Hrun; by right) (S k) skip
                   (push args
                      ((match type pcmd with
                        | RRD_CONF_PRINT => "PRINT:"
                        | _ => "GPRINT:"
                        end) +:+ fmt_s (get pcmd p.vname) +:+ "w" +:+ dec j +:+ ":"
                       +:+ fmt_s (get pcmd p.format)))) as [Hfst Hlen]);
      rewrite Hp in Hfst, Hlen; rewrite Hfst, Hlen;
      unfold push; rewrite length_app; cbn; (split; [done|lia]).
Qed.

(** ** Legends *)

Lemma reads_back_escaped (t a : string) :
  ends_with_backslash t = false \/ a = "" ->
  reads_back t (colonEscape t) (args_of (Str a)).
Proof.
  intros Hend. unfold reads_back, args_of, if_first. cbn [fmt_s].
  destruct a as [|c a].
  - str_norm. by rewrite split_unescaped_colonEscape.
  - destruct Hend as [Hend|]; [|done].
    change (":" +:+ String c a) with (String ":" (String c a)).
    by rewrite split_unescaped_colonEscape_app.
Qed.

Lemma eval_legend_Expr (rr : request_rec) (legend : word) (elegend : ap_expr_info_t)
    (t : string) :
  ap_expr_str_exec rr elegend = Value t ->
  eval_legend (Some rr) legend (Expr elegend) = OK (Str (colonEscape t)).
Proof. intros Ht. unfold eval_legend. by rewrite Ht, pescape_colon_spec. Qed.

Lemma rule_legend (keyword : string) (r : request_rec) (cmd : rrd_cmd_t)
    (args : list string) (elegend : ap_expr_info_t) (t : string) :
  get cmd r.elegend = Expr elegend ->
  ap_expr_str_exec r elegend = Value t ->
  generate_rule keyword r cmd args
  = OK (args ++ [rule_head keyword cmd +:+ colonEscape t +:+ args_of (get cmd r.args)]).
Proof.
  intros He Ht. unfold generate_rule. rewrite He, (eval_legend_Expr _ _ _ _ Ht).
  cbn [mbind result_bind fmt_s]. unfold push, rule_head, colour_of, args_of.
  do 3 f_equal. by str_norm.
Qed.

Lemma graph_legend (keyword : string) (vname legend elegend : member)
    (fmt1 : rrd_cmd_t -> word -> string) (fmtn : rrd_cmd_t -> nat -> word -> string)
    (st : rrd_cmds_t) (cmd : rrd_cmd_t) (args : list string) (i dp : nat)
    (dcmd : rrd_cmd_t) (requests : list request_rec) (expr : ap_expr_info_t)
    (t : nat -> string) :
  (forall j w, fmtn cmd j w = fmt1 (suffixed_cmd vname j cmd) w) ->
  def cmd = Some dp -> cmds st !! dp = Some dcmd ->
  get dcmd d.requests = Requests requests ->
  get cmd elegend = Expr expr ->
  (forall j, j < num dcmd ->
     exists rr, requests !! j = Some rr /\ ap_expr_str_exec rr expr = Value (t j)) ->
  generate_graph keyword vname legend elegend fmt1 fmtn st cmd args i
  = OK (args ++ graph_lines vname fmt1 st cmd i (num dcmd)
                  (fun j => Str (colonEscape (t j))),
        i + match num dcmd with 0 | 1 => 0 | _ => skipped st cmd i end).
Proof.
  intros Hfmt Hdef Hdcmd Hreq He Ht.
  eapply generate_graph_lines; [done..|].
  intros j Hj. destruct (Ht j Hj) as (rr & -> & Hval). rewrite He.
  by apply eval_legend_Expr.
Qed.

(** C9, as amended.  [pescape_colon] puts a backslash before every colon
    and returns a text without a colon as it is.  The generators apply it
    to the value of a legend expression, and copy a literal legend without
    escaping it.  So in every argument the main loop generates for a
    command with a legend expression, a COMMENT or a TEXTALIGN, an HRULE
    or a VRULE, and a LINE, an AREA or a TICK for each of its sources, the
    legend field is the escaped value of the expression, between the
    fields before it and the trailing arguments; and when the value does
    not end in a backslash, or no trailing argument follows it, splitting
    the argument from the legend field on at the colons that no backslash
    precedes gives the value back first. *)
Theorem colon_escape_round_trip (r : request_rec) (st : rrd_cmds_t) (cmd : rrd_cmd_t)
    (args : list string) (i : nat) (expr : ap_expr_info_t) :
  (forall s, pescape_colon s = colonEscape s
             /\ (has_colon s = false -> pescape_colon s = s))
  /\ (forall rr legend, eval_legend rr legend NULL = OK legend)
  /\ (forall t a, ends_with_backslash t = false \/ a = "" ->
                  reads_back t (colonEscape t) (args_of (Str a)))
  /\ (type cmd = RRD_CONF_COMMENT \/ type cmd = RRD_CONF_TEXTALIGN ->
      get cmd e.elegend = Expr expr ->
      forall t, ap_expr_str_exec r expr = Value t ->
        generate_cmd r st cmd args i
        = OK (args ++ [fmt_s (get cmd e.element) +:+ ":" +:+ colonEscape t], i)
        /\ reads_back t (colonEscape t) "")
  /\ (forall keyword,
        type cmd = RRD_CONF_HRULE /\ keyword = "HRULE"
        \/ type cmd = RRD_CONF_VRULE /\ keyword = "VRULE" ->
        get cmd r.elegend = Expr expr ->
        forall t, ap_expr_str_exec r expr = Value t ->
          generate_cmd r st cmd args i
          = OK (args ++ [rule_head keyword cmd +:+ colonEscape t
                         +:+ args_of (get cmd r.args)], i))
  /\ (forall dp dcmd requests (t : nat -> string),
        def cmd = Some dp -> cmds st !! dp = Some dcmd ->
        get dcmd d.requests = Requests requests ->
        (forall j, j < num dcmd ->
           exists rr, requests !! j = Some rr
                      /\ ap_expr_str_exec rr expr = Value (t j)) ->
        let leg j := Str (colonEscape (t j)) in
        let skip := match num dcmd with 0 | 1 => 0 | _ => skipped st cmd i end in
        (type cmd = RRD_CONF_LINE -> get cmd l.elegend = Expr expr ->
         generate_cmd r st cmd args i
         = OK (args ++ graph_lines l.vname line_fmt1 st cmd i (num dcmd) leg, i + skip))
        /\ (type cmd = RRD_CONF_AREA -> get cmd a.elegend = Expr expr ->
            generate_cmd r st cmd args i
            = OK (args ++ graph_lines a.vname area_fmt1 st cmd i (num dcmd) leg,
                  i + skip))
        /\ (type cmd = RRD_CONF_TICK -> get cmd t.elegend = Expr expr ->
            generate_cmd r st cmd args i
            = OK (args ++ graph_lines t.vname tick_fmt1 st cmd i (num dcmd) leg,
                  i + skip)))
  /\ (forall c field,
        line_fmt1 c (Str field) = line_head c +:+ field +:+ args_of (get c l.args)
        /\ area_fmt1 c (Str field) = area_head c +:+ field +:+ args_of (get c a.args)
        /\ tick_fmt1 c (Str field) = tick_head c +:+ field +:+ args_of (get c t.args))
  /\ (forall c j field,
        line_fmtn c j (Str field)
        = line_head (suffixed_cmd l.vname j c) +:+ field +:+ args_of (get c l.args)
        /\ area_fmtn c j (Str field)
           = area_head (suffixed_cmd a.vname j c) +:+ field +:+ args_of (get c a.args)
        /\ tick_fmtn c j (Str field)
           = tick_head (suffixed_cmd t.vname j c) +:+ field +:+ args_of (get c t.args)).
Proof.
  split_and!.
  - intros s. split; [apply pescape_colon_spec|].
    intros Hs. by rewrite pescape_colon_spec, colonEscape_no_colon.
  - done.
  - apply reads_back_escaped.
  - intros Hty He t Ht. split.
    + unfold generate_cmd, generate_element.
      destruct Hty as [-> | ->]; rewrite He, (eval_legend_Expr _ _ _ _ Ht);
        cbn [mbind result_bind fmt_s]; done.
    + unfold reads_back. str_norm. by rewrite split_unescaped_colonEscape.
  - intros keyword Hty He t Ht. unfold generate_cmd, generate_hrule, generate_vrule.
    destruct Hty as [[-> ->]|[-> ->]];
      by rewrite (rule_legend _ _ _ _ _ _ He Ht).
  - intros dp dcmd requests t Hdef Hdcmd Hreq Ht leg skip. split_and!.
    + intros Hty He. unfold generate_cmd, generate_line. rewrite Hty.
      by eapply graph_legend; [apply line_fmtn_suffixed|..].
    + intros Hty He. unfold generate_cmd, generate_area. rewrite Hty.
      by eapply graph_legend; [apply area_fmtn_suffixed|..].
    + intros Hty He. unfold generate_cmd, generate_tick. rewrite Hty.
      by eapply graph_legend; [apply tick_fmtn_suffixed|..].
  - intros c field. unfold line_fmt1, area_fmt1, tick_fmt1, line_head, area_head,
      tick_head. cbn [fmt_s]. split_and!; by str_norm.
  - intros c j field.
    rewrite line_fmtn_suffixed, area_fmtn_suffixed, tick_fmtn_suffixed.
    rewrite <- (get_set_ne l.vname l.args (Str (suffixed (fmt_s (get c l.vname)) j)) c)
      by done.
    rewrite <- (get_set_ne a.vname a.args (Str (suffixed (fmt_s (get c a.vname)) j)) c)
      by done.
    rewrite <- (get_set_ne t.vname t.args (Str (suffixed (fmt_s (get c t.vname)) j)) c)
      by done.
    unfold line_fmt1, area_fmt1, tick_fmt1, line_head, area_head, tick_head,
      suffixed_cmd.
    cbn [fmt_s]. split_and!; by str_norm.
Qed.

End properties.

(** * Further properties *)

(** ** Texts without a character *)

Lemma lacks_cons (c a : ascii) (s : string) :
  lacks c (String a s) <-> a <> c /\ lacks c s.
Proof.
  unfold lacks. cbn [strchr_split].
  destruct (Ascii.eqb_spec a c) as [->|Hne].
  - cbn. split; [done|]. by intros [? _].
  - destruct (strchr_split s c) as [t next]. cbn. tauto.
Qed.

Lemma lacks_app (c : ascii) (s1 s2 : string) :
  lacks c (s1 +:+ s2) <-> lacks c s1 /\ lacks c s2.
Proof.
  induction s1 as [|a s1 IH].
  - rewrite app_empty_l. split; [by split|by intros [_ ?]].
  - rewrite app_cons, !lacks_cons, IH. tauto.
Qed.

Lemma length_app_str (s1 s2 : string) :
  String.length (s1 +:+ s2) = String.length s1 + String.length s2.
Proof. induction s1 as [|a s1 IH]; [done|]. rewrite app_cons. cbn. by rewrite IH. Qed.

Lemma skip_char_length (c : ascii) (s : string) :
  String.length (skip_char c s) <= String.length s.
Proof.
  induction s as [|b s IH]; cbn [skip_char]; [done|].
  destruct (Ascii.eqb b c); cbn [String.length]; lia.
Qed.

Lemma skip_char_head (c : ascii) (s : string) :
  match skip_char c s with String a _ => a <> c | "" => True end.
Proof.
  induction s as [|b s IH]; [done|]. cbn [skip_char].
  destruct (Ascii.eqb_spec b c); [exact IH|done].
Qed.

Lemma skip_char_app (c : ascii) (s rest : string) :
  s <> "" -> skip_char c s = s -> skip_char c (s +:+ rest) = s +:+ rest.
Proof.
  destruct s as [|a s]; [done|]. intros _. rewrite app_cons. cbn [skip_char].
  destruct (Ascii.eqb a c) eqn:Ha; [|done].
  intros Hs. exfalso. pose proof (skip_char_length c s) as Hlen.
  rewrite Hs in Hlen. cbn [String.length] in Hlen. lia.
Qed.

Lemma lacks_skip_char (c : ascii) (s : string) :
  lacks c s -> skip_char c s = s.
Proof.
  destruct s as [|a s]; [done|]. intros [Hne _]%lacks_cons.
  cbn [skip_char]. apply Ascii.eqb_neq in Hne. by rewrite Hne.
Qed.

Lemma skip_char_nil_lacks (c c' : ascii) (s : string) :
  c <> c' -> skip_char c s = "" -> lacks c' s.
Proof.
  intros Hne. induction s as [|a s IH]; [done|]. cbn [skip_char].
  destruct (Ascii.eqb_spec a c) as [->|]; [|done].
  intros Hs. apply lacks_cons. split; [done|]. by apply IH.
Qed.

(** ** The library helpers on such texts *)

Lemma ap_getword_lacks (w rest : string) (stop : ascii) :
  lacks stop w ->
  ap_getword (w +:+ String stop rest) stop = (w, skip_char stop rest).
Proof.
  induction w as [|a w IH]; intros Hw.
  - rewrite app_empty_l. cbn [ap_getword skip_char]. by rewrite Ascii.eqb_refl.
  - apply lacks_cons in Hw as [Hne Hw]. rewrite app_cons. cbn [ap_getword].
    apply Ascii.eqb_neq in Hne. rewrite Hne, IH by done. done.
Qed.

Lemma ap_getword_lacks_end (w : string) (stop : ascii) :
  lacks stop w -> ap_getword w stop = (w, "").
Proof.
  induction w as [|a w IH]; intros Hw; [done|].
  apply lacks_cons in Hw as [Hne Hw]. cbn [ap_getword].
  apply Ascii.eqb_neq in Hne. rewrite Hne, IH by done. done.
Qed.

Lemma strchr_split_lacks (w rest : string) (c : ascii) :
  lacks c w -> strchr_split (w +:+ String c rest) c = (w, Some rest).
Proof.
  induction w as [|a w IH]; intros Hw.
  - rewrite app_empty_l. cbn [strchr_split]. by rewrite Ascii.eqb_refl.
  - apply lacks_cons in Hw as [Hne Hw]. rewrite app_cons. cbn [strchr_split].
    apply Ascii.eqb_neq in Hne. rewrite Hne, IH by done. done.
Qed.

Lemma strchr_split_lacks_end (w : string) (c : ascii) :
  lacks c w -> strchr_split w c = (w, None).
Proof.
  induction w as [|a w IH]; intros Hw; [done|].
  apply lacks_cons in Hw as [Hne Hw]. cbn [strchr_split].
  apply Ascii.eqb_neq in Hne. rewrite Hne, IH by done. done.
Qed.

Lemma strchr_split_length (s : string) (c : ascii) :
  match strchr_split s c with
  | (t, Some next) => String.length s = String.length t + 1 + String.length next
  | (t, None) => t = s
  end.
Proof.
  induction s as [|a s IH]; [done|]. cbn [strchr_split].
  destruct (Ascii.eqb a c); [cbn; lia|].
  destruct (strchr_split s c) as [t [next|]]; cbn [String.length]; [lia|by subst].
Qed.

Lemma strchr_split_lacks_fst (s : string) (c : ascii) :
  lacks c (strchr_split s c).1.
Proof.
  induction s as [|a s IH]; [done|]. cbn [strchr_split].
  destruct (Ascii.eqb_spec a c) as [->|Hne]; [done|].
  destruct (strchr_split s c) as [t next]. cbn [fst] in *.
  apply lacks_cons. by split.
Qed.

Lemma apr_cstr_tokenize_lacks (w rest : string) (c : ascii) :
  w <> "" -> lacks c w ->
  apr_cstr_tokenize c (w +:+ String c rest) = (Some w, rest).
Proof.
  intros Hne Hw. unfold apr_cstr_tokenize.
  rewrite skip_char_app by auto using lacks_skip_char.
  destruct w as [|a w]; [done|]. rewrite app_cons, <- app_cons.
  by rewrite strchr_split_lacks.
Qed.

Lemma apr_cstr_tokenize_lacks_end (w : string) (c : ascii) :
  w <> "" -> lacks c w -> apr_cstr_tokenize c w = (Some w, "").
Proof.
  intros Hne Hw. unfold apr_cstr_tokenize.
  rewrite lacks_skip_char by done.
  destruct w as [|a w]; [done|]. by rewrite strchr_split_lacks_end.
Qed.

Lemma apr_cstr_tokenize_none (s : string) (c : ascii) :
  skip_char c s = "" -> apr_cstr_tokenize c s = (None, s).
Proof. intros Hs. unfold apr_cstr_tokenize. by rewrite Hs. Qed.

(** A token of [apr_cstr_tokenize] is not empty, holds no separator, and
    leaves a shorter text *)
Lemma apr_cstr_tokenize_Some (c : ascii) (s tok s' : string) :
  apr_cstr_tokenize c s = (Some tok, s') ->
  tok <> "" /\ lacks c tok /\ String.length s' < String.length s.
Proof.
  unfold apr_cstr_tokenize.
  pose proof (skip_char_length c s) as Hlen.
  pose proof (skip_char_head c s) as Hhead.
  destruct (skip_char c s) as [|a token]; [done|].
  pose proof (strchr_split_length (String a token) c) as Hsplit.
  pose proof (strchr_split_lacks_fst (String a token) c) as Hlacks.
  cbn [strchr_split] in *. apply Ascii.eqb_neq in Hhead. rewrite Hhead in *.
  destruct (strchr_split token c) as [t [next|]]; cbn [fst String.length] in *;
    intros [= <- <-]; (split; [done|]); (split; [done|]); cbn [String.length] in *; lia.
Qed.

(** The fuel of [tokens] is enough: more of it changes nothing *)
Lemma tokens_fuel (c : ascii) (fuel : nat) :
  forall fuel' s, String.length s < fuel -> String.length s < fuel' ->
    tokens fuel c s = tokens fuel' c s.
Proof.
  induction fuel as [|fuel IH]; intros fuel' s Hf Hf'; [lia|].
  destruct fuel' as [|fuel']; [lia|]. cbn [tokens].
  destruct (apr_cstr_tokenize c s) as [[tok|] s'] eqn:Htok; [|done].
  apply apr_cstr_tokenize_Some in Htok as (_ & _ & Hlen).
  f_equal. apply IH; lia.
Qed.

Lemma tokens_Forall (c : ascii) (fuel : nat) :
  forall s, Forall (fun tok => tok <> "" /\ lacks c tok) (tokens fuel c s).
Proof.
  induction fuel as [|fuel IH]; intros s; [constructor|]. cbn [tokens].
  destruct (apr_cstr_tokenize c s) as [[tok|] s'] eqn:Htok; [|constructor].
  apply apr_cstr_tokenize_Some in Htok as (? & ? & _). by constructor.
Qed.

Lemma concat_cons_cons (sep x y : string) (l : list string) :
  String.concat sep (x :: y :: l) = x +:+ sep +:+ String.concat sep (y :: l).
Proof. reflexivity. Qed.

(** Tokens joined by the separator are split into the same tokens *)
Lemma tokens_concat (c : ascii) (toks : list string) :
  Forall (fun tok => tok <> "" /\ lacks c tok) toks ->
  forall fuel, String.length (String.concat (String c "") toks) < fuel ->
    tokens fuel c (String.concat (String c "") toks) = toks.
Proof.
  induction toks as [|tok toks IH]; intros Hall fuel Hfuel.
  - destruct fuel; done.
  - apply Forall_cons in Hall as [[Hne Hlacks] Hall].
    destruct fuel as [|fuel]; [lia|]. cbn [tokens].
    destruct toks as [|tok' toks].
    + cbn [String.concat] in *. rewrite apr_cstr_tokenize_lacks_end by done.
      f_equal. by destruct fuel.
    + rewrite concat_cons_cons in *. rewrite app_cons, app_empty_l in *.
      rewrite apr_cstr_tokenize_lacks by done. f_equal.
      apply IH; [done|]. rewrite length_app_str in Hfuel.
      cbn [String.length] in Hfuel. lia.
Qed.

Lemma prefix_inv (sub s : string) :
  String.prefix sub s = true -> exists post, s = sub +:+ post.
Proof.
  revert s. induction sub as [|a sub IH]; intros s Hp.
  - by exists s.
  - destruct s as [|b s]; [done|]. cbn [String.prefix] in Hp.
    destruct (ascii_dec a b) as [->|]; [|done].
    destruct (IH s Hp) as [post ->]. exists post. by rewrite app_cons.
Qed.

(** What [ap_strstr_c] finds is there *)
Lemma ap_strstr_c_Some (s sub found : string) :
  ap_strstr_c s sub = Some found -> exists pre post, s = pre +:+ sub +:+ post.
Proof.
  revert found. induction s as [|a s IH]; intros found Hf.
  - rewrite ap_strstr_c_unfold in Hf.
    destruct (String.prefix sub "") eqn:Hp; [|done].
    apply prefix_inv in Hp as [post ->]. by exists "", post.
  - rewrite ap_strstr_c_unfold in Hf.
    destruct (String.prefix sub (String a s)) eqn:Hp.
    + apply prefix_inv in Hp as [post ->]. by exists "", post.
    + apply IH in Hf as (pre & post & ->). exists (String a pre), post.
      by rewrite app_cons.
Qed.

Lemma ap_strstr_c_lacks (s sub : string) (c : ascii) :
  lacks c s -> ap_strstr_c s (String c sub) = None.
Proof.
  induction s as [|a s IH]; intros Hs.
  - done.
  - apply lacks_cons in Hs as [Hne Hs]. rewrite ap_strstr_c_unfold.
    cbn [String.prefix]. destruct (ascii_dec c a) as [->|]; [done|]. by apply IH.
Qed.

Lemma strncmp0_prefix (n : nat) :
  forall kw e, strncmp0 e kw n = true -> n <= String.length kw ->
    exists rest, e = String.substring 0 n kw +:+ rest.
Proof.
  induction n as [|n IH]; intros kw e Hcmp Hlen.
  - exists e. by destruct kw.
  - cbn [strncmp0] in Hcmp. destruct e as [|a e], kw as [|b kw]; try done.
    + cbn in Hlen. lia.
    + destruct (Ascii.eqb_spec a b) as [->|]; [|done].
      cbn [String.length] in Hlen.
      destruct (IH kw e Hcmp ltac:(lia)) as [rest ->].
      exists rest. cbn [String.substring]. by rewrite app_cons.
Qed.

(** ** Colon escaping: sizes and bounds *)

Lemma escape_colon_loop_size (s : string) :
  forall slen size found,
    let '(d, size', _) := escape_colon_loop s slen size found in
    size' = size + String.length d.
Proof.
  induction s as [|c s IH]; intros slen size found; cbn [escape_colon_loop].
  - cbn. lia.
  - destruct (slen =? 0)%Z; [cbn; lia|].
    destruct (Ascii.eqb ":" c).
    + specialize (IH (slen - 1)%Z (S (S size)) true).
      destruct (escape_colon_loop s _ _ _) as [[d size'] found'].
      cbn [String.length]. lia.
    + specialize (IH (slen - 1)%Z (S size) found).
      destruct (escape_colon_loop s _ _ _) as [[d size'] found'].
      cbn [String.length]. lia.
Qed.

(** X1.  The size [escape_colon] reports is the size of what it writes:
    for every text and every length limit, the run without a buffer and
    the run with one return the same status, and the size both put in
    [len] is the length of the escaped text plus one for the terminator.
    So the buffer [pescape_colon] allocates from the first run holds
    what the second run writes. *)
Theorem escape_colon_size_exact (str : string) (slen : Z) :
  exists status escaped,
    escape_colon false (Some str) slen = (status, None, S (String.length escaped))
    /\ escape_colon true (Some str) slen
       = (status, Some escaped, S (String.length escaped)).
Proof.
  unfold escape_colon.
  pose proof (escape_colon_loop_size str slen 1 false) as Hsize.
  destruct (escape_colon_loop str slen 1 false) as [[d size] found].
  subst size. by eexists _, d.
Qed.

Lemma escape_colon_loop_negative (s : string) :
  forall slen size found, (slen < 0)%Z ->
    escape_colon_loop s slen size found = escape_colon_loop s (-1) size found.
Proof.
  induction s as [|c s IH]; intros slen size found Hlt; [done|].
  cbn [escape_colon_loop].
  destruct (Z.eqb_spec slen 0) as [->|_]; [lia|]. cbn [Z.eqb].
  rewrite (IH (slen - 1)%Z) by lia. rewrite (IH (-1 - 1)%Z) by lia.
  rewrite (IH (slen - 1)%Z) by lia. rewrite (IH (-1 - 1)%Z) by lia. done.
Qed.

Lemma escape_colon_loop_bound (s : string) :
  forall n size found,
    escape_colon_loop s (Z.of_nat n) size found
    = escape_colon_loop (String.substring 0 n s) APR_ESCAPE_STRING size found.
Proof.
  unfold APR_ESCAPE_STRING.
  induction s as [|c s IH]; intros n size found.
  - by destruct n.
  - destruct n as [|n]; [done|].
    cbn [String.substring escape_colon_loop].
    replace (Z.of_nat (S n) =? 0)%Z with false by (symmetry; apply Z.eqb_neq; lia).
    cbn [Z.eqb].
    replace (Z.of_nat (S n) - 1)%Z with (Z.of_nat n) by lia.
    rewrite !IH. rewrite !(escape_colon_loop_negative _ (-1 - 1)%Z) by lia. done.
Qed.

(** X2.  A length limit that is not negative cuts the text: [escape_colon]
    with the limit [n] does to a text what it does, without a limit, to
    the first [n] characters of the text, in the status, in the buffer and
    in the size. *)
Theorem escape_colon_bounded (str : string) (n : nat) (escaped : bool) :
  escape_colon escaped (Some str) (Z.of_nat n)
  = escape_colon escaped (Some (String.substring 0 n str)) APR_ESCAPE_STRING.
Proof. unfold escape_colon. by rewrite escape_colon_loop_bound. Qed.

(** ** Words and quoted words *)

Lemma scan_to_lacks (w rest : string) (stop : ascii) :
  lacks stop w ->
  scan_to (w +:+ String stop rest) stop = (String.length w, String stop rest).
Proof.
  induction w as [|a w IH]; intros Hw.
  - rewrite app_empty_l. cbn [scan_to]. by rewrite Ascii.eqb_refl.
  - apply lacks_cons in Hw as [Hne Hw]. rewrite app_cons. cbn [scan_to].
    apply Ascii.eqb_neq in Hne. rewrite Hne, IH by done. done.
Qed.

Lemma scan_to_lacks_end (w : string) (stop : ascii) :
  lacks stop w -> scan_to w stop = (String.length w, "").
Proof.
  induction w as [|a w IH]; intros Hw; [done|].
  apply lacks_cons in Hw as [Hne Hw]. cbn [scan_to].
  apply Ascii.eqb_neq in Hne. rewrite Hne, IH by done. done.
Qed.

Lemma substring_quote_0 (s : string) (quote : ascii) : substring_quote s 0 quote = "".
Proof. by destruct s. Qed.

Lemma substring_quote_copy (a : ascii) (rest : string) (n : nat) (quote : ascii) :
  Ascii.eqb a "\" = false ->
  substring_quote (String a rest) (S n) quote = String a (substring_quote rest n quote).
Proof. intros Ha. cbn [substring_quote]. rewrite Ha. by destruct rest. Qed.

Lemma substring_quote_unescape (b : ascii) (rest : string) (n : nat) (quote : ascii) :
  Ascii.eqb b "\" || negb (Ascii.eqb quote "000") && Ascii.eqb b quote = true ->
  substring_quote (String "\" (String b rest)) (S (S n)) quote
  = String b (substring_quote rest n quote).
Proof.
  intros Hb. cbn [substring_quote]. rewrite Hb.
  change (Ascii.eqb "\" "\") with true. done.
Qed.

(** Without a backslash, [substring_quote] copies *)
Lemma substring_quote_plain (w tail : string) (quote : ascii) :
  lacks "\" w ->
  substring_quote (w +:+ tail) (String.length w) quote = w.
Proof.
  induction w as [|a w IH]; intros Hw; [apply substring_quote_0|].
  apply lacks_cons in Hw as [Hne Hw]. apply Ascii.eqb_neq in Hne.
  rewrite app_cons. cbn [String.length].
  rewrite substring_quote_copy by done. by rewrite IH.
Qed.

Lemma substring_quote_escape (q : ascii) (t tail : string) :
  q <> "000"%char ->
  substring_quote (quote_escape q t +:+ tail) (String.length (quote_escape q t)) q = t.
Proof.
  intros Hq. induction t as [|c t IH]; [apply substring_quote_0|].
  cbn [quote_escape].
  destruct (Ascii.eqb c q || Ascii.eqb c "\") eqn:Hc.
  - rewrite !app_cons. cbn [String.length].
    rewrite substring_quote_unescape, IH; [done|].
    apply Ascii.eqb_neq in Hq. rewrite Hq. cbn [negb andb].
    by rewrite orb_comm.
  - apply orb_false_iff in Hc as [Hcq Hcb].
    rewrite app_cons. cbn [String.length].
    by rewrite substring_quote_copy, IH.
Qed.

Lemma quoted_end_stop (fuel : nat) (q : ascii) (tail : string) :
  quoted_end (S fuel) (String q tail) q = (0, String q tail).
Proof. cbn [quoted_end]. by rewrite Ascii.eqb_refl. Qed.

Lemma quoted_end_pair (fuel : nat) (q b : ascii) (rest : string) :
  Ascii.eqb "\" q = false ->
  Ascii.eqb b q || Ascii.eqb b "\" = true ->
  quoted_end (S fuel) (String "\" (String b rest)) q
  = let (n, e) := quoted_end fuel rest q in (S (S n), e).
Proof.
  intros Hq Hb. cbn [quoted_end]. rewrite Hq, Hb.
  change (Ascii.eqb "\" "\") with true. done.
Qed.

Lemma quoted_end_one (fuel : nat) (q a : ascii) (rest : string) :
  Ascii.eqb a q = false -> Ascii.eqb a "\" = false ->
  quoted_end (S fuel) (String a rest) q
  = let (n, e) := quoted_end fuel rest q in (S n, e).
Proof. intros Hq Ha. cbn [quoted_end]. rewrite Hq, Ha. by destruct rest. Qed.

Lemma quoted_end_escape (q : ascii) (t tail : string) :
  Ascii.eqb "\" q = false ->
  forall fuel,
    String.length (quote_escape q t) < fuel ->
    quoted_end fuel (quote_escape q t +:+ String q tail) q
    = (String.length (quote_escape q t), String q tail).
Proof.
  intros Hq. induction t as [|c t IH]; intros fuel Hfuel.
  - destruct fuel as [|fuel]; [cbn in Hfuel; lia|].
    rewrite app_empty_l. apply quoted_end_stop.
  - cbn [quote_escape] in *.
    destruct (Ascii.eqb c q || Ascii.eqb c "\") eqn:Hc.
    + cbn [String.length] in Hfuel. destruct fuel as [|fuel]; [lia|].
      rewrite !app_cons. rewrite quoted_end_pair by done.
      rewrite IH by lia. done.
    + apply orb_false_iff in Hc as [Hcq Hcb].
      cbn [String.length] in Hfuel. destruct fuel as [|fuel]; [lia|].
      rewrite app_cons, quoted_end_one by done.
      rewrite IH by lia. done.
Qed.

(** A quote that is not closed runs to the end of the line *)
Lemma quoted_end_escape_end (q : ascii) (t : string) :
  Ascii.eqb "\" q = false ->
  forall fuel,
    String.length (quote_escape q t) <= fuel ->
    quoted_end fuel (quote_escape q t) q = (String.length (quote_escape q t), "").
Proof.
  intros Hq. induction t as [|c t IH]; intros fuel Hfuel.
  - by destruct fuel.
  - cbn [quote_escape] in *.
    destruct (Ascii.eqb c q || Ascii.eqb c "\") eqn:Hc.
    + cbn [String.length] in Hfuel. destruct fuel as [|fuel]; [lia|].
      rewrite quoted_end_pair by done. rewrite IH by lia. done.
    + apply orb_false_iff in Hc as [Hcq Hcb].
      cbn [String.length] in Hfuel. destruct fuel as [|fuel]; [lia|].
      rewrite quoted_end_one by done. rewrite IH by lia. done.
Qed.

(** X3.  [getword_quote] reads a plain word as it is: a word that holds
    neither a colon nor a backslash and does not open with a quote is
    returned unchanged, and the line is left after the colon that ends
    the word, or at its end when the word is the last thing in it. *)
Theorem getword_quote_word (w rest : string) :
  lacks ":" w -> lacks "\" w ->
  match w with String c _ => c <> "034"%char /\ c <> "'"%char | "" => True end ->
  getword_quote (w +:+ String ":" rest) ":" = (w, rest)
  /\ getword_quote w ":" = (w, "").
Proof.
  intros Hstop Hbs Hfirst. destruct w as [|c w].
  - done.
  - destruct Hfirst as [H1%Ascii.eqb_neq H2%Ascii.eqb_neq]. split.
    + rewrite app_cons. unfold getword_quote. rewrite H1, H2. cbn [orb].
      rewrite <- app_cons, scan_to_lacks by done.
      rewrite substring_quote_plain by done.
      by rewrite Ascii.eqb_refl.
    + unfold getword_quote. rewrite H1, H2. cbn [orb].
      rewrite scan_to_lacks_end by done.
      rewrite <- (app_empty_r (String c w)) at 1.
      rewrite substring_quote_plain by done. done.
Qed.

(** X4.  Quoting round trip of [getword_quote]: whatever the text, put
    between two double or two single quotes with a backslash before each
    of its quotes and backslashes, it is read back unchanged.  What stands
    between the closing quote and the next colon is dropped, the line is
    left after that colon, and a quote that is never closed takes the rest
    of the line. *)
Theorem getword_quote_quoted_round_trip (q : ascii) (t junk rest : string) :
  q = "034"%char \/ q = "'"%char ->
  lacks ":" junk ->
  getword_quote (String q (quote_escape q t +:+ String q (junk +:+ String ":" rest))) ":"
  = (t, rest)
  /\ getword_quote (String q (quote_escape q t +:+ String q junk)) ":" = (t, "")
  /\ getword_quote (String q (quote_escape q t)) ":" = (t, "").
Proof.
  intros Hq Hjunk.
  assert (Ascii.eqb q "034" || Ascii.eqb q "'" = true) as Hisq.
  { by destruct Hq as [-> | ->]. }
  assert (Ascii.eqb "\" q = false) as Hbq by by destruct Hq as [-> | ->].
  assert (q <> "000"%char) as Hnul by by destruct Hq as [-> | ->].
  split_and!.
  - unfold getword_quote. rewrite Hisq.
    rewrite quoted_end_escape by (rewrite ?length_app_str; cbn [String.length]; lia || done).
    rewrite substring_quote_escape by done.
    rewrite Ascii.eqb_refl, scan_to_lacks by done. cbn [snd].
    by rewrite Ascii.eqb_refl.
  - unfold getword_quote. rewrite Hisq.
    rewrite quoted_end_escape by (rewrite ?length_app_str; cbn [String.length]; lia || done).
    rewrite substring_quote_escape by done.
    rewrite Ascii.eqb_refl, scan_to_lacks_end by done. done.
  - unfold getword_quote. rewrite Hisq.
    rewrite quoted_end_escape_end by done.
    rewrite <- (app_empty_r (quote_escape q t)) at 1.
    rewrite substring_quote_escape by done. done.
Qed.

(** ** Formats *)

Lemma ap_strrchr_c_lacks (s : string) (c : ascii) :
  lacks c s -> ap_strrchr_c s c = None.
Proof.
  induction s as [|a s IH]; [done|]. intros [Hne Hs]%lacks_cons.
  cbn [ap_strrchr_c]. rewrite IH by done. apply Ascii.eqb_neq in Hne. by rewrite Hne.
Qed.

Lemma ap_strrchr_c_last (pre post : string) (c : ascii) :
  lacks c post -> ap_strrchr_c (pre +:+ String c post) c = Some (String c post).
Proof.
  intros Hpost. induction pre as [|a pre IH].
  - rewrite app_empty_l. cbn [ap_strrchr_c].
    by rewrite ap_strrchr_c_lacks, Ascii.eqb_refl.
  - rewrite app_cons. cbn [ap_strrchr_c]. by rewrite IH.
Qed.

Lemma tolower_inv (a c : ascii) :
  tolower a = c ->
  a = c \/ (65 <= nat_of_ascii a <= 90 /\ nat_of_ascii c = nat_of_ascii a + 32).
Proof.
  unfold tolower. destruct (_ && _) eqn:Hrange; [|by left].
  intros <-. right. apply andb_true_iff in Hrange as [H1%Nat.leb_le H2%Nat.leb_le].
  split; [done|]. apply nat_ascii_embedding. lia.
Qed.

Lemma strcasecmp0_cons_inv (a : ascii) (s : string) (l : ascii) (t : string) :
  strcasecmp0 (String a s) (String l t) = true ->
  (tolower a = tolower l) /\ strcasecmp0 s t = true.
Proof. cbn [strcasecmp0]. by intros [?%Ascii.eqb_eq ?]%andb_true_iff. Qed.

(** A character below the letters compares equal to itself only *)
Lemma strcasecmp0_lacks (c : ascii) (s1 s2 : string) :
  nat_of_ascii c < 65 ->
  strcasecmp0 s1 s2 = true -> lacks c s2 -> lacks c s1.
Proof.
  intros Hc. revert s2. induction s1 as [|a s1 IH]; intros [|b s2]; try done.
  intros [Hab Hs]%strcasecmp0_cons_inv [Hb Hs2]%lacks_cons.
  apply lacks_cons. split; [|by eapply IH].
  intros ->. apply Hb.
  assert (tolower c = c) as Hlc.
  { unfold tolower. by replace (65 <=? nat_of_ascii c)%nat with false
      by (symmetry; apply Nat.leb_gt; lia). }
  rewrite Hlc in Hab. symmetry in Hab.
  apply tolower_inv in Hab as [?|[Hrange Hab]]; [done|exfalso; lia].
Qed.

Lemma tolower_letter (a l : ascii) :
  tolower a = tolower l -> 65 <= nat_of_ascii l <= 90 ->
  a = l \/ a = ascii_of_nat (nat_of_ascii l + 32).
Proof.
  intros Heq Hl.
  assert (tolower l = ascii_of_nat (nat_of_ascii l + 32)) as Hll.
  { unfold tolower.
    replace (65 <=? nat_of_ascii l)%nat with true by (symmetry; apply Nat.leb_le; lia).
    by replace (nat_of_ascii l <=? 90)%nat with true by (symmetry; apply Nat.leb_le; lia). }
  rewrite Hll in Heq.
  apply tolower_inv in Heq as [->|[Ha Heq]]; [by right|].
  left. rewrite nat_ascii_embedding in Heq by lia.
  rewrite <- (ascii_nat_embedding a), <- (ascii_nat_embedding l). f_equal. lia.
Qed.

(** Two texts that compare equal compare alike with a third *)
Lemma strcasecmp0_congr (s t : string) :
  strcasecmp0 s t = true -> forall u, strcasecmp0 s u = strcasecmp0 t u.
Proof.
  revert t. induction s as [|a s IH]; intros [|b t] Hst [|c u]; try done.
  apply strcasecmp0_cons_inv in Hst as [Hab Hst].
  cbn [strcasecmp0]. by rewrite Hab, (IH t Hst u).
Qed.

(** X22.  The format of a graph is read from the suffix of the file
    name: for each of the eleven formats, a file name whose last path
    component ends in a dot and the name of the format, in any mix of
    upper and lower case, gives that format, whatever the directories
    before it hold; and the format has a content type. *)
Theorem parse_rrdgraph_suffix_recognises (dir base ext format : string) :
  format ∈ graph_formats ->
  strcasecmp0 ext format = true ->
  lacks "/" base ->
  parse_rrdgraph_suffix (dir +:+ "/" +:+ base +:+ "." +:+ ext) = Some format
  /\ is_Some (lookup_content_type format).
Proof.
  intros Hformat Hcmp Hbase.
  assert (lacks "/" format /\ lacks "." format) as [Hf1 Hf2].
  { unfold graph_formats in Hformat.
    repeat (apply elem_of_cons in Hformat as [->|Hformat]);
      try (by apply elem_of_nil in Hformat); by vm_compute. }
  assert (lacks "/" ext) as He1.
  { eapply (strcasecmp0_lacks "/"); [by apply Nat.ltb_lt|done..]. }
  assert (lacks "." ext) as He2.
  { eapply (strcasecmp0_lacks "."); [by apply Nat.ltb_lt|done..]. }
  rewrite !app_cons, !app_empty_l. unfold parse_rrdgraph_suffix.
  rewrite ap_strrchr_c_last.
  2:{ apply lacks_app. split; [done|]. apply lacks_cons. by split. }
  rewrite <- app_cons, ap_strrchr_c_last by done.
  split.
  2:{ unfold graph_formats in Hformat.
      repeat (apply elem_of_cons in Hformat as [->|Hformat]);
        try (by apply elem_of_nil in Hformat); by eexists. }
  unfold graph_formats in Hformat.
  repeat (apply elem_of_cons in Hformat as [->|Hformat]);
    try (by apply elem_of_nil in Hformat);
    (destruct ext as [|c ext']; [discriminate Hcmp|]);
    apply strcasecmp0_cons_inv in Hcmp as [Hc Hcmp];
    cbn [strcasecmp0]; rewrite !(strcasecmp0_congr _ _ Hcmp);
    (apply tolower_letter in Hc as [-> | ->]; [| |by split; apply Nat.leb_le]);
    reflexivity.
Qed.

(** X23.  What [parse_rrdgraph_suffix] returns is one of the eleven
    formats, each of which has a content type; and it returns NULL for a
    file name without a slash, and for one whose last path component has
    no dot, whatever dots the directories hold. *)
Theorem parse_rrdgraph_suffix_known (filename : string) :
  (forall format,
     parse_rrdgraph_suffix filename = Some format ->
     format ∈ graph_formats /\ is_Some (lookup_content_type format))
  /\ (lacks "/" filename -> parse_rrdgraph_suffix filename = None)
  /\ (forall dir base,
        filename = dir +:+ "/" +:+ base -> lacks "/" base -> lacks "." base ->
        parse_rrdgraph_suffix filename = None).
Proof.
  split_and!.
  - intros format. unfold parse_rrdgraph_suffix.
    destruct (ap_strrchr_c filename "/") as [fname|]; [|done].
    destruct (ap_strrchr_c fname ".") as [[|c0 [|c suffix]]|]; try done.
    repeat match goal with
           | |- (if ?b then _ else _) = _ -> _ => destruct b
           end; try done;
      intros [= <-]; (split; [unfold graph_formats; set_solver|by eexists]).
  - intros Hlacks. unfold parse_rrdgraph_suffix. by rewrite ap_strrchr_c_lacks.
  - intros dir base -> Hbase Hdot. rewrite !app_cons, !app_empty_l.
    unfold parse_rrdgraph_suffix. rewrite ap_strrchr_c_last by done.
    cbn [ap_strrchr_c]. by rewrite ap_strrchr_c_lacks.
Qed.

(** X24.  [lookup_content_type] knows a format exactly when it is the
    name of one of the eleven formats in any mix of upper and lower case;
    for every other text, the empty one included, it returns NULL. *)
Theorem lookup_content_type_defined (format : string) :
  is_Some (lookup_content_type format)
  <-> exists name, name ∈ graph_formats /\ strcasecmp0 format name = true.
Proof.
  split.
  - unfold lookup_content_type. destruct format as [|c format]; [by intros []|].
    repeat match goal with
           | |- is_Some (if Ascii.eqb _ _ || Ascii.eqb _ _ then _ else _) -> _ =>
               destruct (Ascii.eqb _ _ || Ascii.eqb _ _)
           | |- is_Some (if strcasecmp0 ?s ?n then _ else _) -> _ =>
               let Hn := fresh "Hn" in
               destruct (strcasecmp0 s n) eqn:Hn;
                 [intros _; exists n; split; [unfold graph_formats; set_solver|done]|]
           end; by intros [].
  - intros (name & Hname & Hcmp). unfold graph_formats in Hname.
    repeat (apply elem_of_cons in Hname as [->|Hname]);
      try (by apply elem_of_nil in Hname);
      (destruct format as [|c format]; [discriminate Hcmp|]);
      unfold lookup_content_type;
      rewrite !(strcasecmp0_congr _ _ Hcmp);
      apply strcasecmp0_cons_inv in Hcmp as [Hc Hcmp];
      (apply tolower_letter in Hc as [-> | ->]; [| |by split; apply Nat.leb_le]);
      by eexists.
Qed.

Section parser_properties.

Context `{H : host}.

(** ** What [parse_element] stores *)

(** X5.  Whether [parse_element] takes an element depends on how the
    element starts and on nothing else: it is taken exactly when it starts
    with one of the thirteen keywords, each with its colon except COMMENT
    and LINE, which are compared on seven and on four characters.
    Whatever follows the keyword, missing fields included, and whatever
    expressions come with it, the element is taken. *)
Theorem parse_element_accepts (element : string) (expr1 expr2 : option ap_expr_info_t)
    (cmds : list rrd_cmd_t) :
  is_Some (parse_element element expr1 expr2 cmds)
  <-> exists kw rest, kw ∈ element_keywords /\ element = kw +:+ rest.
Proof.
  split.
  - intros [cmds' Hp]. unfold parse_element in Hp.
    destruct element as [|c0 el]; [done|].
    repeat match type of Hp with
           | (if Ascii.eqb c0 ?c then _ else _) = _ =>
               destruct (Ascii.eqb c0 c)
           | (if strncmp0 ?e ?kw ?n then _ else _) = _ =>
               let Hcmp := fresh "Hcmp" in
               destruct (strncmp0 e kw n) eqn:Hcmp;
                 [apply strncmp0_prefix in Hcmp as [rest Hrest];
                    [|cbn; lia];
                  eexists _, rest; split; [|exact Hrest];
                  unfold element_keywords; set_solver|]
           end; done.
  - intros (kw & rest & Hkw & ->). unfold element_keywords in Hkw.
    repeat (apply elem_of_cons in Hkw as [->|Hkw]);
      try (by apply elem_of_nil in Hkw);
      rewrite !app_cons, !app_empty_l; unfold parse_element;
      cbn -[ap_getword skip_char getword_quote apr_cstr_tokenize tokens];
      repeat match goal with
             | |- context [let (_, _) := ?e in _] => destruct e
             end; by eexists.
Qed.

(** The fields of a DEF, shared by the statements about it *)
Lemma parse_element_def (vname path dsname cf : string)
    (expr1 expr2 : option ap_expr_info_t) (cmds : list rrd_cmd_t) :
  lacks "=" vname ->
  lacks ":" path -> skip_char "=" path = path ->
  lacks ":" dsname -> dsname <> "" ->
  exists cmd,
    parse_element
      (String "D" (String "E" (String "F" (String ":"
         (vname +:+ String "=" (path +:+ String ":" (dsname +:+ String ":" cf)))))))
      expr1 expr2 cmds = Some (cmds ++ [cmd])
    /\ type cmd = RRD_CONF_DEF /\ num cmd = 0 /\ def cmd = None
    /\ get cmd d.vname = Str vname
    /\ get cmd d.path = Str path
    /\ get cmd d.dsname = Str dsname
    /\ get cmd d.cf = Str (skip_char ":" cf)
    /\ get cmd d.requests = Requests []
    /\ get cmd d.epath = of_expr expr1
    /\ get cmd d.edirpath = of_expr expr2.
Proof.
  intros Hvname Hpath Hpath0 Hdsname Hds0.
  unfold parse_element.
  cbn -[ap_getword skip_char].
  rewrite ap_getword_lacks by done.
  assert (skip_char "=" (path +:+ String ":" (dsname +:+ String ":" cf))
          = path +:+ String ":" (dsname +:+ String ":" cf)) as ->.
  { destruct path as [|a path]; [done|]. by apply skip_char_app. }
  rewrite ap_getword_lacks by done.
  rewrite (skip_char_app ":" dsname) by auto using lacks_skip_char.
  rewrite ap_getword_lacks by done.
  eexists. split; [reflexivity|]. by repeat split.
Qed.

(** X6.  The fields of a DEF: for a variable name without an equals
    sign, a path without a colon that does not start with an equals sign,
    and a data source name that is not empty and has no colon,
    [parse_element] appends one DEF whose members are the name, the path
    and the data source name as written, the two expressions of the
    directive, an empty array of sources and a count of zero.  The
    consolidation function is the whole rest of the element, colons
    included, after the colons it starts with are dropped. *)
Theorem parse_element_def_fields (vname path dsname cf : string)
    (expr1 expr2 : option ap_expr_info_t) (cmds : list rrd_cmd_t) :
  lacks "=" vname ->
  lacks ":" path -> skip_char "=" path = path ->
  lacks ":" dsname -> dsname <> "" ->
  exists cmd,
    parse_element ("DEF:" +:+ vname +:+ "=" +:+ path +:+ ":" +:+ dsname +:+ ":" +:+ cf)
      expr1 expr2 cmds = Some (cmds ++ [cmd])
    /\ type cmd = RRD_CONF_DEF /\ num cmd = 0 /\ def cmd = None
    /\ get cmd d.vname = Str vname
    /\ get cmd d.path = Str path
    /\ get cmd d.dsname = Str dsname
    /\ get cmd d.cf = Str (skip_char ":" cf)
    /\ get cmd d.requests = Requests []
    /\ get cmd d.epath = of_expr expr1
    /\ get cmd d.edirpath = of_expr expr2.
Proof.
  intros Hvname Hpath Hpath0 Hdsname Hds0.
  rewrite !app_cons, !app_empty_l. by apply parse_element_def.
Qed.

(** X7.  The fields of a LINE: the keyword with the width, up to the
    first colon, is kept as one text; the variable name ends at the [#];
    the colour is what stands between the [#] and the next colon; the
    legend and the rest are read by [getword_quote].  A LINE written
    without [#] stores an empty colour, not a NULL one, so the generator
    writes the [#] all the same, with nothing behind it. *)
Theorem parse_element_line_fields (width vname colour rest : string)
    (expr1 expr2 : option ap_expr_info_t) (cmds : list rrd_cmd_t) :
  lacks ":" width ->
  vname <> "" -> lacks ":" vname -> lacks "#" vname ->
  lacks ":" colour ->
  (exists cmd,
    parse_element ("LINE" +:+ width +:+ ":" +:+ vname +:+ "#" +:+ colour +:+ ":" +:+ rest)
      expr1 expr2 cmds = Some (cmds ++ [cmd])
    /\ type cmd = RRD_CONF_LINE /\ num cmd = 0 /\ def cmd = None
    /\ get cmd l.line = Str ("LINE" +:+ width)
    /\ get cmd l.vname = Str vname
    /\ get cmd l.colour = Str colour
    /\ get cmd l.legend = Str (getword_quote (skip_char ":" rest) ":").1
    /\ get cmd l.elegend = of_expr expr1
    /\ get cmd l.args = Str (getword_quote (skip_char ":" rest) ":").2)
  /\ (exists cmd,
    parse_element ("LINE" +:+ width +:+ ":" +:+ vname +:+ ":" +:+ rest)
      expr1 expr2 cmds = Some (cmds ++ [cmd])
    /\ type cmd = RRD_CONF_LINE
    /\ get cmd l.line = Str ("LINE" +:+ width)
    /\ get cmd l.vname = Str vname
    /\ get cmd l.colour = Str ""
    /\ get cmd l.legend = Str (getword_quote (skip_char ":" rest) ":").1
    /\ get cmd l.args = Str (getword_quote (skip_char ":" rest) ":").2
    /\ forall legend,
         line_fmt1 cmd (Str legend)
         = "LINE" +:+ width +:+ ":" +:+ vname +:+ "#:" +:+ legend
           +:+ args_of (get cmd l.args)).
Proof.
  intros Hwidth Hv0 Hvname Hvhash Hcolour.
  assert (skip_char ":" vname = vname) as Hv1 by by apply lacks_skip_char.
  split.
  - rewrite !app_cons, !app_empty_l.
    replace (vname +:+ String "#" (colour +:+ String ":" rest))
      with ((vname +:+ String "#" colour) +:+ String ":" rest)
      by by rewrite app_assoc_str, app_cons.
    unfold parse_element.
    cbn -[skip_char getword_quote apr_cstr_tokenize].
    rewrite ap_getword_lacks by done.
    rewrite (skip_char_app ":" (vname +:+ String "#" colour)).
    2:{ by destruct vname. }
    2:{ destruct vname as [|a v]; [done|]. rewrite app_cons.
        apply lacks_cons in Hvname as [Hne%Ascii.eqb_neq _].
        cbn [skip_char]. by rewrite Hne. }
    rewrite ap_getword_lacks.
    2:{ apply lacks_app. split; [done|]. apply lacks_cons. by split. }
    destruct (getword_quote (skip_char ":" rest) ":") as [legend element1].
    rewrite apr_cstr_tokenize_lacks by done.
    eexists. split; [reflexivity|]. by repeat split.
  - rewrite !app_cons, !app_empty_l.
    unfold parse_element.
    cbn -[skip_char getword_quote apr_cstr_tokenize].
    rewrite ap_getword_lacks by done.
    rewrite (skip_char_app ":" vname) by done.
    rewrite ap_getword_lacks by done.
    destruct (getword_quote (skip_char ":" rest) ":") as [legend element1].
    rewrite apr_cstr_tokenize_lacks_end by done.
    eexists. split; [reflexivity|]. by split_and!.
Qed.

(** X8.  The RPN of a CDEF is cut at its commas: tokens that are not
    empty and hold no comma, joined by commas after the name and the
    equals sign, are stored one by one in their order, none yet tied to a
    DEF, and the expression is kept whole beside them.  Whatever the text
    after the keyword, no stored token is empty and none holds a comma:
    commas in a row, or at either end, give no empty token. *)
Theorem parse_element_cdef_tokens (vname : string) (toks : list string)
    (expr1 expr2 : option ap_expr_info_t) (cmds : list rrd_cmd_t) :
  lacks "=" vname ->
  Forall (fun tok => tok <> "" /\ lacks "," tok) toks ->
  skip_char "=" (String.concat "," toks) = String.concat "," toks ->
  (exists cmd,
    parse_element ("CDEF:" +:+ vname +:+ "=" +:+ String.concat "," toks)
      expr1 expr2 cmds = Some (cmds ++ [cmd])
    /\ type cmd = RRD_CONF_CDEF /\ num cmd = 0 /\ def cmd = None
    /\ get cmd c.vname = Str vname
    /\ get cmd c.rpn = Str (String.concat "," toks)
    /\ get cmd c.rpns = Rpns ((fun tok => Rpn tok None) <$> toks)
    /\ get cmd c.ref = NULL)
  /\ (forall rest, exists cmd rpns,
    parse_element ("CDEF:" +:+ rest) expr1 expr2 cmds = Some (cmds ++ [cmd])
    /\ get cmd c.rpns = Rpns rpns
    /\ Forall (fun rp => rpn rp <> "" /\ lacks "," (rpn rp) /\ rpn_def rp = None) rpns).
Proof.
  intros Hvname Htoks Hfirst. split.
  - rewrite !app_cons, !app_empty_l. unfold parse_element.
    cbn -[ap_getword skip_char tokens String.concat].
    rewrite ap_getword_lacks, Hfirst by done.
    rewrite tokens_concat by (done || lia).
    eexists. split; [reflexivity|]. by repeat split.
  - intros rest. rewrite !app_cons, !app_empty_l. unfold parse_element.
    cbn -[ap_getword skip_char tokens].
    destruct (ap_getword rest "=") as [vname0 element].
    eexists _, _. split; [reflexivity|]. split; [reflexivity|].
    apply Forall_fmap. eapply Forall_impl; [apply tokens_Forall|].
    intros tok [? ?]. by repeat split.
Qed.

(** X9.  An AREA, a LINE or a TICK without a variable name is taken by
    the parser and faults in the resolver: when the field of the name is
    empty, or is made of [#] only, [parse_element] appends a command
    whose name is NULL, and the resolver, reaching that command, hands
    the NULL name to the hash of names as a key. *)
Theorem unnamed_graph_element_faults (vncol width rest : string)
    (cmds0 : list rrd_cmd_t) (conf : rrd_conf) (r : request_rec) :
  skip_char "#" vncol = "" -> lacks ":" width ->
  forall element,
    element ∈ ["AREA:" +:+ vncol +:+ ":" +:+ rest;
               "LINE" +:+ width +:+ ":" +:+ vncol;
               "TICK:" +:+ vncol +:+ ":" +:+ rest] ->
    exists cmd,
      parse_element element None None cmds0 = Some (cmds0 ++ [cmd])
      /\ reference cmd = Some NULL
      /\ forall st i, cmds st !! i = Some cmd -> resolve_cmd conf i (r, st) = Fault.
Proof.
  intros Hvncol Hwidth element Hel.
  assert (lacks ":" vncol) as Hlacks.
  { by apply (skip_char_nil_lacks "#" ":"). }
  assert (forall cmd vname keyword st i,
            cmds st !! i = Some cmd -> get cmd vname = NULL ->
            resolve_ref vname keyword i st ≫= (fun st => OK (r, st)) = Fault) as Hnull.
  { intros cmd vname keyword st i Hcmd Hget. unfold resolve_ref, cmd_at.
    rewrite Hcmd. cbn [mbind result_bind]. by rewrite Hget. }
  repeat (apply elem_of_cons in Hel as [->|Hel]); try (by apply elem_of_nil in Hel).
  - rewrite !app_cons, !app_empty_l; unfold parse_element.
    cbn -[skip_char getword_quote apr_cstr_tokenize resolve_cmd reference].
    rewrite ap_getword_lacks by done.
    destruct (getword_quote _ ":") as [legend element].
    rewrite apr_cstr_tokenize_none by done.
    eexists; split; [reflexivity|]; split; [reflexivity|].
    intros st i Hcmd. unfold resolve_cmd, cmd_at. rewrite Hcmd.
    by eapply Hnull.
  - rewrite !app_cons, !app_empty_l; unfold parse_element.
    cbn -[skip_char getword_quote apr_cstr_tokenize resolve_cmd reference].
    rewrite ap_getword_lacks by done.
    rewrite lacks_skip_char, ap_getword_lacks_end by done.
    cbn [getword_quote].
    rewrite apr_cstr_tokenize_none by done.
    eexists; split; [reflexivity|]; split; [reflexivity|].
    intros st i Hcmd. unfold resolve_cmd, cmd_at. rewrite Hcmd.
    by eapply Hnull.
  - rewrite !app_cons, !app_empty_l; unfold parse_element.
    cbn -[skip_char getword_quote apr_cstr_tokenize resolve_cmd reference].
    rewrite ap_getword_lacks by done.
    destruct (ap_getword _ ":") as [fraction element0].
    destruct (getword_quote _ ":") as [legend element].
    rewrite apr_cstr_tokenize_none by done.
    eexists; split; [reflexivity|]; split; [reflexivity|].
    intros st i Hcmd. unfold resolve_cmd, cmd_at. rewrite Hcmd.
    by eapply Hnull.
Qed.

(** X10.  No key is an option both with and without a value:
    [parse_option] refuses every key in at least one of the two forms,
    whatever the expressions and the options already there. *)
Theorem parse_option_one_form (key0 : string) (v : string)
    (eval1 eval2 : option ap_expr_info_t) (opts1 opts2 : list rrd_opt_t) :
  parse_option key0 (Some v) eval1 opts1 = None
  \/ parse_option key0 None eval2 opts2 = None.
Proof.
  unfold parse_option.
  case_bool_decide as Hk1; [|by left].
  case_bool_decide as Hk2; [|by right].
  exfalso.
  unfold keys_with_value in Hk1.
  unfold keys_without_value in Hk2.
  repeat (apply elem_of_cons in Hk1 as [->|Hk1]); try (by apply elem_of_nil in Hk1);
    repeat (apply elem_of_cons in Hk2 as [Hk2|Hk2]; [discriminate Hk2|]);
    by apply elem_of_nil in Hk2.
Qed.

(** ** What [parse_query] appends *)

Lemma parse_element_parsed (element : string) (expr1 expr2 : option ap_expr_info_t)
    (cmds cmds' : list rrd_cmd_t) :
  parse_element element expr1 expr2 cmds = Some cmds' ->
  exists cmd, cmds' = cmds ++ [cmd] /\ parsed cmd
    /\ (expr1 = None -> expr2 = None -> expression_free cmd).
Proof.
  intros Hp. unfold parse_element in Hp.
  destruct element as [|c0 el]; [done|].
  repeat match type of Hp with
         | (if ?b then _ else _) = _ => destruct b
         | (let (_, _) := ?e in _) = _ => destruct e
         end; try done;
    injection Hp as <-; (eexists; split; [reflexivity|]);
    (split; [by repeat split|]);
    intros -> ->; unfold expression_free; cbn;
    repeat constructor; try done;
    match goal with
    | |- forall _, of_str ?o <> _ => by destruct o
    end.
Qed.

Lemma parse_element_shaped (element : string) (expr1 expr2 : option ap_expr_info_t)
    (cmds cmds' : list rrd_cmd_t) :
  parse_element element expr1 expr2 cmds = Some cmds' ->
  exists cmd, cmds' = cmds ++ [cmd] /\ forall n, shaped n cmd.
Proof.
  intros Hp. unfold parse_element in Hp.
  destruct element as [|c0 el]; [done|].
  repeat match type of Hp with
         | (if ?b then _ else _) = _ => destruct b
         | (let (_, _) := ?e in _) = _ => destruct e
         end; try done;
    injection Hp as <-; (eexists; split; [reflexivity|]); intros n;
    unfold shaped; cbn; try done.
  - eexists. split; [done|]. apply Forall_fmap, Forall_forall. by intros tok _ dp.
  - split; by eexists.
Qed.

Lemma parse_option_query (key0 : string) (v : string) (opts opts' : list rrd_opt_t) :
  parse_option key0 (Some v) None opts = Some opts' ->
  exists opt, opts' = opts ++ [opt] /\ query_option opt.
Proof.
  unfold parse_option. case_bool_decide as Hk; [|done].
  intros [= <-]. eexists. split; [done|]. by repeat split.
Qed.

Lemma parse_query_loop_appends (fuel : nat) :
  forall args st st',
    parse_query_loop fuel args st = OK st' ->
    exists cs os,
      cmds st' = cmds st ++ cs /\ opts st' = opts st ++ os /\ names st' = names st
      /\ Forall (fun cmd => configured cmd /\ expression_free cmd) cs
      /\ Forall query_option os.
Proof.
  induction fuel as [|fuel IH]; intros args st st' Hq.
  - injection Hq as <-. exists [], []. by rewrite !app_nil_r.
  - cbn [parse_query_loop] in Hq.
    destruct (apr_cstr_tokenize "&" args) as [[arg|] args'].
    2:{ injection Hq as <-. exists [], []. by rewrite !app_nil_r. }
    destruct arg as [|a0 arg]; [by apply IH in Hq|].
    destruct (apr_punescape_url _) as [element|]; [|done].
    destruct (parse_element element None None (cmds st)) as [cmds'|] eqn:Hel.
    + pose proof Hel as Hel'.
      apply parse_element_parsed in Hel as (cmd & -> & Hparsed & Hfree).
      apply parse_element_shaped in Hel' as (cmd' & Heq & Hsh).
      apply app_inj_tail in Heq as [_ <-].
      apply IH in Hq as (cs & os & Hcs & Hos & Hnames & Hall & Hopts).
      cbn [cmds opts names] in *.
      exists (cmd :: cs), os. rewrite Hcs, <- app_assoc. split_and!; auto.
      constructor; [|done]. split; [by split|by apply Hfree].
    + destruct (apr_cstr_tokenize "=" element) as [[key0|] v]; [|done].
      destruct (parse_option key0 (Some v) None (opts st)) as [opts'|] eqn:Hopt; [|done].
      apply parse_option_query in Hopt as (opt & -> & Hopt).
      apply IH in Hq as (cs & os & Hcs & Hos & Hnames & Hall & Hopts).
      cbn [cmds opts names] in *.
      exists cs, (opt :: os). rewrite Hos, <- app_assoc. split_and!; auto.
Qed.

(** What [parse_query] returns: the configuration, then what the query
    string gave *)
Lemma parse_query_OK (r : request_rec) (conf : rrd_conf) (st : rrd_cmds_t) :
  parse_query r conf = OK st ->
  names st = ∅
  /\ exists cs os,
      cmds st = elements conf ++ cs /\ opts st = options conf ++ os
      /\ Forall (fun cmd => configured cmd /\ expression_free cmd) cs
      /\ Forall query_option os.
Proof.
  unfold parse_query. destruct (args r) as [args|].
  - intros (cs & os & Hcs & Hos & Hnames & Hall & Hopts)%parse_query_loop_appends.
    cbn [cmds opts names] in *. split; [done|]. by exists cs, os.
  - intros [= <-]. split; [done|]. exists [], []. by rewrite !app_nil_r.
Qed.

(** X11.  [parse_query] appends and nothing else: the command list it
    returns starts with the elements of the configuration, in their
    order, the option list with the options of the configuration, the
    hash of names is empty, and every command added from the query string
    is as [parse_element] leaves one, with no sources and no backing DEF
    yet. *)
Theorem parse_query_appends (r : request_rec) (conf : rrd_conf) (st : rrd_cmds_t) :
  parse_query r conf = OK st ->
  names st = ∅
  /\ exists cs os,
      cmds st = elements conf ++ cs /\ opts st = options conf ++ os
      /\ (forall cmd, cmd ∈ cs -> parsed cmd).
Proof.
  intros (Hnames & cs & os & Hcs & Hos & Hall & _)%parse_query_OK.
  split; [done|]. exists cs, os. split_and!; auto.
  intros cmd Hcmd. by eapply Forall_forall in Hall as [[? _] _].
Qed.

(** X12.  Nothing that comes from the query string holds an expression:
    in what [parse_query] returns, no member of a command behind the
    elements of the configuration is an expression, and every option
    behind the options of the configuration has a key of the table of
    options with a value, has a value, and has no expression.  An option
    without a value cannot be given in the query string. *)
Theorem query_holds_no_expression (r : request_rec) (conf : rrd_conf) (st : rrd_cmds_t) :
  parse_query r conf = OK st ->
  (forall i cmd, length (elements conf) <= i -> cmds st !! i = Some cmd ->
     forall m expr, get cmd m <> Expr expr)
  /\ (forall i opt, length (options conf) <= i -> opts st !! i = Some opt ->
        key opt ∈ keys_with_value /\ is_Some (val opt) /\ eval opt = None).
Proof.
  intros (Hnames & cs & os & Hcs & Hos & Hall & Hopts)%parse_query_OK.
  rewrite Hcs, Hos. split.
  - intros i cmd Hi Hcmd m expr.
    rewrite lookup_app_r in Hcmd by done.
    apply list_elem_of_lookup_2 in Hcmd.
    eapply Forall_forall in Hall as [_ Hfree]; [|exact Hcmd].
    unfold expression_free in Hfree. rewrite Forall_forall in Hfree.
    apply Hfree. unfold get. apply elem_of_vlookup. by exists m.
  - intros i opt Hi Hopt. rewrite lookup_app_r in Hopt by done.
    apply list_elem_of_lookup_2 in Hopt.
    by eapply Forall_forall in Hopts.
Qed.

Lemma parse_element_equals (element : string) (cmds0 : list rrd_cmd_t) :
  skip_char "=" element = "" -> parse_element element None None cmds0 = None.
Proof.
  destruct element as [|c element]; [done|]. cbn [skip_char].
  destruct (Ascii.eqb_spec c "=") as [->|]; [|done]. done.
Qed.

(** X13.  A query string of one fragment that decodes to equals signs
    only faults: it is no element, [apr_cstr_tokenize] finds no key in it
    and returns NULL, and [parse_option] looks the NULL key up in the
    table of options. *)
Theorem parse_query_equals_faults (conf : rrd_conf) (r : request_rec)
    (arg element : string) :
  args r = Some arg ->
  arg <> "" -> lacks "&" arg ->
  apr_punescape_url arg = Some element ->
  skip_char "=" element = "" ->
  parse_query r conf = Fault.
Proof.
  intros Hargs Hne Hamp Hurl Hskip. unfold parse_query. rewrite Hargs.
  cbn [parse_query_loop]. rewrite apr_cstr_tokenize_lacks_end by done.
  destruct arg as [|a0 arg]; [done|]. rewrite Hurl.
  cbn [cmds]. rewrite parse_element_equals by done.
  by rewrite apr_cstr_tokenize_none.
Qed.

End parser_properties.

Section resolver_properties.

Context `{H : host}.

Tactic Notation "bind_ok" hyp(Hb) "as" ident(a) ident(Ha) :=
  apply bind_OK in Hb as (a & Ha & Hb).

(** ** The sources of a DEF *)

(** X14.  The sources of a DEF are the matched files whose sub-request
    is answered with [HTTP_OK], in the order of the walk: the walk over
    the matched files never fails, appends exactly those sub-requests to
    the array of sources, adds their count to [num], and changes nothing
    else in the command. *)
Theorem resolve_def_walk_sources (r : request_rec) (fnames : list string) :
  forall (cmd : rrd_cmd_t) (arr : list request_rec),
    get cmd d.requests = Requests arr ->
    exists cmd',
      resolve_def_walk r fnames cmd = OK cmd'
      /\ get cmd' d.requests
         = Requests (arr ++ List.filter status_ok
                              ((fun fname => ap_sub_req_lookup_file fname r) <$> fnames))
      /\ num cmd'
         = num cmd + length (List.filter status_ok
                               ((fun fname => ap_sub_req_lookup_file fname r) <$> fnames))
      /\ type cmd' = type cmd /\ def cmd' = def cmd
      /\ forall m, m <> d.requests -> get cmd' m = get cmd m.
Proof.
  induction fnames as [|fname fnames IH]; intros cmd arr Harr.
  - exists cmd. cbn. rewrite app_nil_r. split_and!; auto.
  - cbn [resolve_def_walk fmap list_fmap List.filter]. unfold resolve_def_cb.
    destruct (status_ok (ap_sub_req_lookup_file fname r)) eqn:Hok.
    + unfold requests_of. rewrite Harr. cbn [mbind result_bind].
      edestruct (IH (set_num (S (num cmd))
                       (set d.requests (Requests (arr ++ [ap_sub_req_lookup_file fname r])) cmd)))
        as (cmd' & -> & Hreq & Hnum & Hty & Hdef & Hget).
      { unfold set_num, get; cbn [u]. apply vlookup_insert. }
      exists cmd'. split; [done|]. rewrite Hreq, Hnum, <- app_assoc.
      cbn [num set_num length app].
      split_and!; [done|lia|done|done|].
      intros m Hm. rewrite Hget by done. unfold set_num, get; cbn [u set].
      by rewrite vlookup_insert_ne.
    + cbn [mbind result_bind]. by apply IH.
Qed.

Lemma resolve_def_env_values_spec (eval0 : ap_expr_info_t) (requests : list request_rec) :
  forall set0 set,
    resolve_def_env_values eval0 requests set0 = OK set ->
    (NoDup set0 -> NoDup set)
    /\ forall v, v ∈ set <->
         v ∈ set0 \/ (v <> "" /\ exists rr, rr ∈ requests
                                   /\ ap_expr_str_exec rr eval0 = Value v).
Proof.
  induction requests as [|rr requests IH]; intros set0 set Hset.
  - injection Hset as <-. split; [done|]. intros v. split; [by left|].
    intros [?|(_ & rr & []%elem_of_nil & _)]; done.
  - cbn [resolve_def_env_values] in Hset.
    destruct (ap_expr_str_exec rr eval0) as [val|err] eqn:Hval; [|done].
    apply IH in Hset as [Hnodup Hiff]. split.
    + intros Hnd. apply Hnodup. destruct val as [|a val]; [done|].
      case_bool_decide as Hin; [done|].
      apply NoDup_app. split_and!; [done| |apply NoDup_singleton].
      intros x Hx ->%list_elem_of_singleton. done.
    + intros v. rewrite Hiff. split.
      * intros [Hv|(Hne & rr' & Hrr' & Hexec)].
        -- destruct val as [|a val]; [by left|].
           case_bool_decide as Hin; [by left|].
           apply elem_of_app in Hv as [Hv| ->%list_elem_of_singleton]; [by left|].
           right. split; [done|]. exists rr. split; [by left|done].
        -- right. split; [done|]. exists rr'. split; [by right|done].
      * intros [Hv|(Hne & rr' & Hrr' & Hexec)].
        -- left. destruct val as [|a val]; [done|].
           case_bool_decide; [done|]. apply elem_of_app. by left.
        -- apply elem_of_cons in Hrr' as [->|Hrr'].
           ++ left. rewrite Hexec in Hval. injection Hval as <-.
              destruct v as [|a v]; [done|].
              case_bool_decide; [done|]. apply elem_of_app. right. by left.
           ++ right. split; [done|]. by exists rr'.
Qed.

(** X15.  The values of an environment variable of [RRDGraphEnv]: the
    list collected over the sources of a DEF holds no value twice, and a
    value is in it exactly when it is not empty and is what the
    expression gives for one of the sources.  The collection succeeds
    when the expression gives a value for every source. *)
Theorem resolve_def_env_values_set (eval0 : ap_expr_info_t)
    (requests : list request_rec) :
  (forall set,
     resolve_def_env_values eval0 requests [] = OK set ->
     NoDup set
     /\ forall v, v ∈ set <->
          v <> "" /\ exists rr, rr ∈ requests /\ ap_expr_str_exec rr eval0 = Value v)
  /\ ((forall rr, rr ∈ requests -> exists v, ap_expr_str_exec rr eval0 = Value v) ->
      exists set, resolve_def_env_values eval0 requests [] = OK set).
Proof.
  split.
  - intros set [Hnd Hiff]%resolve_def_env_values_spec. split; [apply Hnd, NoDup_nil_2|].
    intros v. rewrite Hiff. split; [|by right].
    intros [[]%elem_of_nil|?]; done.
  - generalize (@nil string). induction requests as [|rr requests IH]; intros set0 Hall.
    + by eexists.
    + cbn [resolve_def_env_values].
      destruct (Hall rr) as [v ->]; [by left|].
      apply IH. intros rr' Hrr'. apply Hall. by right.
Qed.

(** ** What the resolver keeps *)

Lemma kept_refl (cmd : rrd_cmd_t) : kept cmd cmd.
Proof. by split. Qed.

Lemma kept_trans (c1 c2 c3 : rrd_cmd_t) : kept c1 c2 -> kept c2 c3 -> kept c1 c3.
Proof. intros [? ?] [? ?]. split; congruence. Qed.

Lemma resolve_cmd_opts (conf : rrd_conf) (i : nat) (r r' : request_rec)
    (st st' : rrd_cmds_t) (cmd : rrd_cmd_t) :
  cmds st !! i = Some cmd ->
  resolve_cmd conf i (r, st) = OK (r', st') ->
  opts st' = opts st.
Proof.
  intros Hcmd Hres. cbn [resolve_cmd] in Hres.
  bind_ok Hres as cmd0 Hat. apply cmd_at_OK in Hat. rewrite Hcmd in Hat.
  injection Hat as <-.
  assert (forall (vname : member) (keyword : string) (st1 : rrd_cmds_t),
             resolve_ref vname keyword i st = OK st1 -> opts st1 = opts st) as Href.
  { intros vname keyword st1 Hr.
    by eapply resolve_ref_OK in Hr as (n & j & refcmd & _ & _ & _ & ->). }
  destruct (type cmd) eqn:Hty;
    try (by injection Hres as <- <-);
    try (bind_ok Hres as st1 Hx; injection Hres as <- <-; by eapply Href).
  - by eapply resolve_def_OK in Hres as (k & cmd' & _ & _ & _ & ->).
  - bind_ok Hres as st1 Hx. injection Hres as <- <-.
    by eapply resolve_cdef_OK in Hx as (k & cmd' & _ & _ & ->).
  - bind_ok Hres as st1 Hx. injection Hres as <- <-.
    by eapply resolve_vdef_OK in Hx as (n & j & refcmd & k & _ & _ & _ & _ & ->).
Qed.

Lemma resolve_loop_keeps (conf : rrd_conf) (n : nat) :
  forall i r st r' st',
    i + n <= length (cmds st) ->
    resolve_loop conf n i (r, st) = OK (r', st') ->
    opts st' = opts st
    /\ forall j cmd, cmds st !! j = Some cmd ->
         exists cmd', cmds st' !! j = Some cmd' /\ kept cmd cmd'.
Proof.
  induction n as [|n IH]; intros i r st r' st' Hlen Hloop.
  - injection Hloop as <- <-. split; [done|]. intros j cmd Hcmd. exists cmd.
    split; [done|apply kept_refl].
  - cbn [resolve_loop] in Hloop. bind_ok Hloop as rst1 Hstep.
    destruct rst1 as [r1 st1].
    destruct (lookup_lt_is_Some_2 (cmds st) i ltac:(lia)) as [cmd Hcmd].
    pose proof (resolve_cmd_opts _ _ _ _ _ _ _ Hcmd Hstep) as Hopts.
    eapply resolve_cmd_OK in Hstep as (_ & Hlen1 & Hother & cmd1 & Hcmd1 & Hkept);
      [|done].
    apply IH in Hloop as [Hopts' Hkeeps]; [|lia].
    split; [congruence|]. intros j c Hc.
    destruct (decide (j = i)) as [->|Hne].
    + assert (c = cmd) as -> by congruence.
      destruct (Hkeeps i cmd1 Hcmd1) as (cmd' & Hcmd' & Hkept').
      exists cmd'. split; [done|]. by eapply kept_trans.
    + rewrite <- Hother in Hc by done. by apply Hkeeps.
Qed.

Lemma unwritten_refl (cmd : rrd_cmd_t) : unwritten cmd cmd.
Proof. by split. Qed.

Lemma unwritten_trans (c1 c2 c3 : rrd_cmd_t) :
  unwritten c1 c2 -> unwritten c2 c3 -> unwritten c1 c3.
Proof.
  intros [Hty1 Hget1] [Hty2 Hget2]. split; [congruence|].
  intros m Hm. rewrite Hget2, Hget1; [done|done|by rewrite Hty1].
Qed.

Lemma unwritten_names (cmd cmd' : rrd_cmd_t) :
  unwritten cmd cmd' -> defines cmd' = defines cmd /\ reference cmd' = reference cmd.
Proof.
  intros [Hty Hget]. unfold defines, reference. rewrite Hty.
  destruct (type cmd) eqn:Hk; cbn [resolver_writes] in Hget;
    (split; [|]); try done;
    rewrite Hget by (intuition discriminate); done.
Qed.

Lemma get_set_def (dp : option nat) (cmd : rrd_cmd_t) (m : member) :
  get (set_def dp cmd) m = get cmd m.
Proof. done. Qed.

Lemma get_set_num (n : nat) (cmd : rrd_cmd_t) (m : member) :
  get (set_num n cmd) m = get cmd m.
Proof. done. Qed.

(** One iteration of the resolver writes, in the command it resolves,
    the members of [resolver_writes] only *)
Lemma resolve_cmd_unwritten (conf : rrd_conf) (i : nat) (r r' : request_rec)
    (st st' : rrd_cmds_t) (cmd : rrd_cmd_t) :
  cmds st !! i = Some cmd ->
  resolve_cmd conf i (r, st) = OK (r', st') ->
  exists cmd', cmds st' !! i = Some cmd' /\ unwritten cmd cmd'.
Proof.
  intros Hcmd Hres.
  assert (i < length (cmds st)) as Hlt by by eapply lookup_lt_Some.
  cbn [resolve_cmd] in Hres. bind_ok Hres as cmd0 Hat.
  apply cmd_at_OK in Hat. rewrite Hcmd in Hat. injection Hat as <-.
  assert (forall (vname : member) (keyword : string) (st1 : rrd_cmds_t),
             resolve_ref vname keyword i st = OK st1 ->
             (forall m, ~ resolver_writes (type cmd) m -> True) ->
             exists cmd', cmds st1 !! i = Some cmd'
                          /\ type cmd' = type cmd
                          /\ forall m, get cmd' m = get cmd m) as Href.
  { intros vname keyword st1 Hr _.
    eapply resolve_ref_OK in Hr as (n & j & refcmd & _ & _ & _ & ->); [|done].
    eexists. split; [by apply list_lookup_insert_eq|]. by split. }
  destruct (type cmd) eqn:Hty;
    try (injection Hres as <- <-; exists cmd; split; [done|]; split; [done|by intros]);
    try (bind_ok Hres as st1 Hx; injection Hres as <- <-;
         eapply Href in Hx as (cmd' & Hcmd' & Hty' & Hget); [|done];
         exists cmd'; split; [done|]; split; [congruence|]; by intros).
  - (* DEF *)
    unfold resolve_def in Hres.
    rewrite (proj2 (cmd_at_OK st i cmd) Hcmd) in Hres. cbn [mbind result_bind] in Hres.
    bind_ok Hres as path Hpath. bind_ok Hres as dirpath Hdirpath.
    destruct (ap_dir_fnmatch dirpath path) as [fnames err].
    bind_ok Hres as cmd1 Hwalk. destruct err as [err|]; [done|].
    bind_ok Hres as requests1 Hrequests1. bind_ok Hres as r1 Henv.
    bind_ok Hres as st1 Hset. injection Hres as <- <-.
    apply names_set_OK in Hset as (n & Hn & ->).
    apply resolve_def_walk_kept in Hwalk as (Hty1 & _ & Hget).
    eexists. split; [by apply list_lookup_insert_eq|].
    split; [cbn; congruence|]. intros m Hm. rewrite get_set_def. apply Hget.
    rewrite Hty in Hm. exact Hm.
  - (* CDEF *)
    bind_ok Hres as st1 Hr. injection Hres as <- <-.
    unfold resolve_cdef in Hr.
    rewrite (proj2 (cmd_at_OK st i cmd) Hcmd) in Hr. cbn [mbind result_bind] in Hr.
    bind_ok Hr as rpns0 Hrpns0. bind_ok Hr as y Hloop. destruct y as [rpns cmd1].
    bind_ok Hr as cmd2 Hnum. apply names_set_OK in Hr as (n & Hn & ->).
    apply resolve_cdef_rpns_kept in Hloop as (Hty1 & _ & Hget).
    eexists. split; [by apply list_lookup_insert_eq|].
    assert (type cmd2 = type cmd
            /\ forall m, get cmd2 m = get (set c.rpns (Rpns rpns) cmd1) m) as [Hty2 Hget2].
    { destruct (get (set c.rpns (Rpns rpns) cmd1) c.ref);
        try (bind_ok Hnum as refcmd Hrefcmd); injection Hnum as <-; by split. }
    split; [done|]. intros m Hm. rewrite Hty in Hm. cbn [resolver_writes] in Hm.
    rewrite Hget2, get_set_ne by naive_solver. apply Hget. naive_solver.
  - (* VDEF *)
    bind_ok Hres as st1 Hx. injection Hres as <- <-.
    eapply resolve_vdef_OK in Hx as (n & j & refcmd & k & _ & _ & _ & _ & ->); [|done].
    eexists. split; [by apply list_lookup_insert_eq|].
    split; [done|]. intros m Hm. rewrite Hty in Hm. cbn [resolver_writes] in Hm.
    rewrite get_set_num, get_set_def. by apply get_set_ne.
Qed.

Lemma resolve_loop_unwritten (conf : rrd_conf) (n : nat) :
  forall i r st r' st',
    i + n <= length (cmds st) ->
    resolve_loop conf n i (r, st) = OK (r', st') ->
    forall j cmd, cmds st !! j = Some cmd ->
      exists cmd', cmds st' !! j = Some cmd' /\ unwritten cmd cmd'.
Proof.
  induction n as [|n IH]; intros i r st r' st' Hlen Hloop.
  - injection Hloop as <- <-. intros j cmd Hcmd. exists cmd.
    split; [done|apply unwritten_refl].
  - cbn [resolve_loop] in Hloop. bind_ok Hloop as rst1 Hstep.
    destruct rst1 as [r1 st1].
    destruct (lookup_lt_is_Some_2 (cmds st) i ltac:(lia)) as [cmd Hcmd].
    pose proof (resolve_cmd_unwritten _ _ _ _ _ _ _ Hcmd Hstep) as (cmd1 & Hcmd1 & Hun).
    eapply resolve_cmd_OK in Hstep as (_ & Hlen1 & Hother & _); [|done].
    intros j c Hc.
    destruct (decide (j = i)) as [->|Hne].
    + assert (c = cmd) as -> by congruence.
      assert (S i + n <= length (cmds st1)) as Hlen' by lia.
      destruct (IH _ _ _ _ _ Hlen' Hloop i cmd1 Hcmd1) as (cmd' & Hcmd' & Hun').
      exists cmd'. split; [done|]. by eapply unwritten_trans.
    + rewrite <- Hother in Hc by done.
      assert (S i + n <= length (cmds st1)) as Hlen' by lia.
      exact (IH _ _ _ _ _ Hlen' Hloop j c Hc).
Qed.

(** X16.  The resolver keeps every command in its place and writes only
    what it resolves: what [resolve_rrds] returns has the options
    untouched and as many commands as before, and the command at each
    index has the type it had, defines the name it defined, refers to the
    name it referred to, and holds in every member what it held, but for
    the sources of a DEF, the token array and the anchor of a CDEF and the
    referenced command of a VDEF. *)
Theorem resolve_rrds_keeps (conf : rrd_conf) (r r' : request_rec) (st st' : rrd_cmds_t) :
  resolve_rrds conf r st = OK (r', st') ->
  opts st' = opts st
  /\ length (cmds st') = length (cmds st)
  /\ forall i cmd, cmds st !! i = Some cmd ->
       exists cmd', cmds st' !! i = Some cmd'
                    /\ type cmd' = type cmd
                    /\ defines cmd' = defines cmd
                    /\ reference cmd' = reference cmd
                    /\ forall m, ~ resolver_writes (type cmd) m ->
                                 get cmd' m = get cmd m.
Proof.
  unfold resolve_rrds. intros Hloop.
  pose proof Hloop as Hloop'. pose proof Hloop as Hloop''.
  apply resolve_loop_keeps in Hloop as [Hopts _]; [|lia].
  apply resolve_loop_OK in Hloop' as (_ & Hlen & _); [|lia].
  split_and!; [done..|]. intros i cmd Hcmd.
  assert (0 + length (cmds st) <= length (cmds st)) as Hall by lia.
  destruct (resolve_loop_unwritten _ _ _ _ _ _ _ Hall Hloop'' i cmd Hcmd)
    as (cmd' & Hcmd' & Hun).
  destruct (unwritten_names _ _ Hun) as [Hdef Href]. destruct Hun as [Hty Hget].
  by exists cmd'.
Qed.

(** X17.  Every backing DEF of a resolved command list is a DEF of the
    list: after [parse_query] and [resolve_rrds], over a configuration
    whose elements are as [parse_element] left them, the [def] pointer of
    a command leads to a DEF of the same list, which is its own backing
    DEF, whose array of sources has [num] entries, and whose [num] a
    command that defines a name shares.  Every name of the hash leads to
    a command of the list that defines a name. *)
Theorem resolve_rrds_backing (conf : rrd_conf) (r r' : request_rec)
    (st st' : rrd_cmds_t) :
  (forall cmd, cmd ∈ elements conf -> parsed cmd) ->
  parse_query r conf = OK st ->
  resolve_rrds conf r st = OK (r', st') ->
  (forall i cmd dp,
      cmds st' !! i = Some cmd -> def cmd = Some dp ->
      exists dcmd requests,
        cmds st' !! dp = Some dcmd
        /\ type dcmd = RRD_CONF_DEF /\ def dcmd = Some dp
        /\ get dcmd d.requests = Requests requests /\ length requests = num dcmd
        /\ (is_Some (defines cmd) -> num cmd = num dcmd))
  /\ (forall n j, names st' !! n = Some j ->
        exists cmd, cmds st' !! j = Some cmd /\ is_Some (defines cmd)).
Proof.
  intros Hconf Hparse Hresolve.
  apply parse_query_OK in Hparse as (Hempty & cs & os & Hcs & _ & Hall & _).
  unfold resolve_rrds in Hresolve.
  pose proof Hresolve as Hres.
  apply resolve_loop_resolved_upto in Hres as (Hnames & Hbacked & _); [|done|].
  2:{ intros cmd Hcmd. rewrite Hcs in Hcmd.
      apply elem_of_app in Hcmd as [?|Hcmd]; [auto|].
      by eapply Forall_forall in Hall as [[? _] _]. }
  apply resolve_loop_OK in Hresolve as (_ & Hlen & _); [|lia]. split.
  - intros i cmd dp Hcmd Hdp.
    assert (i < length (cmds st)) as Hi.
    { rewrite <- Hlen. by eapply lookup_lt_Some. }
    destruct (Hbacked i cmd Hi Hcmd dp Hdp)
      as (_ & dcmd & Hdcmd & (Hty & Hdef & requests & Hreq & Hnum) & Hdefines).
    by exists dcmd, requests.
  - intros n j Hn. by destruct (Hnames n j Hn) as (_ & cmd & ? & ?); exists cmd.
Qed.

(** ** The shape of the commands *)

Lemma shaped_mono (n : nat) (cmd : rrd_cmd_t) : shaped 0 cmd -> shaped n cmd.
Proof.
  unfold shaped. destruct (type cmd); try done.
  intros (rpns & Hrpns & Hall). exists rpns. split; [done|].
  eapply Forall_impl; [exact Hall|]. intros rp Hrp dp Hdp. specialize (Hrp dp Hdp). lia.
Qed.

Lemma resolve_cdef_rpns_valid (n : nat) (st : rrd_cmds_t) (rpns : list rrd_rpn_t) :
  (forall tok j refcmd dp,
      names st !! tok = Some j -> cmds st !! j = Some refcmd ->
      def refcmd = Some dp -> dp < n) ->
  forall cmd rpns' cmd',
    resolve_cdef_rpns st rpns cmd = OK (rpns', cmd') ->
    Forall (fun rp => forall dp, rpn_def rp = Some dp -> dp < n) rpns ->
    Forall (fun rp => forall dp, rpn_def rp = Some dp -> dp < n) rpns'.
Proof.
  intros Hnames.
  induction rpns as [|rp rpns IH]; intros cmd rpns' cmd' Hres Hall.
  - by injection Hres as <- <-.
  - apply Forall_cons in Hall as [Hrp Hall].
    cbn [resolve_cdef_rpns] in Hres. bind_ok Hres as x Hx. destruct x as [rp1 cmd1].
    bind_ok Hres as y Hy. destruct y as [rpns1 cmd2]. injection Hres as <- <-.
    apply IH in Hy; [|done]. constructor; [|done].
    destruct (is_null (get cmd c.ref)).
    + destruct (names st !! rpn rp) as [j|] eqn:Hj.
      * bind_ok Hx as refcmd Hrefcmd. injection Hx as <- <-.
        apply cmd_at_OK in Hrefcmd. intros dp Hdp. cbn [rpn_def] in Hdp.
        by eapply Hnames.
      * by injection Hx as <- <-.
    + by injection Hx as <- <-.
Qed.

(** One iteration of the resolver keeps the shape of every command *)
Lemma resolve_cmd_shaped (conf : rrd_conf) (k : nat) (r r' : request_rec)
    (st st' : rrd_cmds_t) :
  resolved_upto k st ->
  (forall j cmd, cmds st !! j = Some cmd -> shaped (length (cmds st)) cmd) ->
  resolve_cmd conf k (r, st) = OK (r', st') ->
  forall j cmd, cmds st' !! j = Some cmd -> shaped (length (cmds st')) cmd.
Proof.
  intros (Hnames & Hbacked & Hparsed) Hshaped Hstep.
  pose proof Hstep as Hstep0. unfold resolve_cmd in Hstep0.
  bind_ok Hstep0 as cmd Hcmd. apply cmd_at_OK in Hcmd. clear Hstep0.
  assert (k < length (cmds st)) as Hlt by by eapply lookup_lt_Some.
  pose proof (resolve_cmd_OK _ _ _ _ _ _ _ Hcmd Hstep)
    as (Hnames' & Hlen & Hother & cmd' & Hcmd' & Hkept).
  rewrite Hlen. intros j c Hc.
  destruct (decide (j = k)) as [->|Hne].
  2:{ rewrite Hother in Hc by done. by eapply Hshaped. }
  rewrite Hcmd' in Hc. injection Hc as <-.
  pose proof (Hshaped k cmd Hcmd) as Hsh.
  destruct Hkept as [Hty _].
  unfold resolve_cmd in Hstep. rewrite (proj2 (cmd_at_OK st k cmd) Hcmd) in Hstep.
  cbn [mbind result_bind] in Hstep.
  unfold shaped in *. rewrite Hty.
  destruct (type cmd) eqn:Htype; try done.
  - (* DEF *)
    destruct Hsh as [[cf Hcf] [requests Hrequests]].
    unfold resolve_def in Hstep.
    rewrite (proj2 (cmd_at_OK st k cmd) Hcmd) in Hstep. cbn [mbind result_bind] in Hstep.
    bind_ok Hstep as path Hpath. bind_ok Hstep as dirpath Hdirpath.
    destruct (ap_dir_fnmatch dirpath path) as [fnames err].
    bind_ok Hstep as cmd1 Hwalk. destruct err as [err|]; [done|].
    bind_ok Hstep as requests1 Hrequests1. bind_ok Hstep as r1 Henv.
    bind_ok Hstep as st1 Hset. injection Hstep as <- <-.
    apply names_set_OK in Hset as (n & Hn & ->).
    cbn [cmds store] in Hcmd'. rewrite list_lookup_insert_eq in Hcmd' by done.
    injection Hcmd' as <-.
    pose proof (resolve_def_walk_kept _ _ _ _ Hwalk) as (_ & _ & Hget).
    eapply resolve_def_walk_requests in Hwalk as (arr' & Harr' & _); [|done].
    split.
    + exists cf. rewrite <- Hcf. by apply Hget.
    + by eexists.
  - (* CDEF *)
    destruct Hsh as (rpns0 & Hrpns0 & Hall).
    bind_ok Hstep as st1 Hr. injection Hstep as <- <-.
    unfold resolve_cdef in Hr.
    rewrite (proj2 (cmd_at_OK st k cmd) Hcmd) in Hr. cbn [mbind result_bind] in Hr.
    rewrite Hrpns0 in Hr. cbn [mbind result_bind] in Hr.
    bind_ok Hr as y Hloop. destruct y as [rpns cmd1].
    bind_ok Hr as cmd2 Hnum. apply names_set_OK in Hr as (n & Hn & ->).
    cbn [cmds store] in Hcmd'. rewrite list_lookup_insert_eq in Hcmd' by done.
    injection Hcmd' as <-.
    exists rpns. split.
    + destruct (get (set c.rpns (Rpns rpns) cmd1) c.ref);
        try (bind_ok Hnum as refcmd Hrefcmd); injection Hnum as <-;
        unfold set_num, get; cbn [u];
        fold (get (set c.rpns (Rpns rpns) cmd1) c.rpns); by rewrite get_set_eq.
    + eapply resolve_cdef_rpns_valid; [|exact Hloop|exact Hall].
      intros tok j refcmd dp Htok Hrefcmd Hdp.
      destruct (Hnames tok j Htok) as (Hj & _).
      destruct (Hbacked j refcmd Hj Hrefcmd dp Hdp) as (Hdpk & _). lia.
Qed.

Lemma resolve_loop_shaped (conf : rrd_conf) (k : nat) :
  forall r st r' st',
    names st = ∅ ->
    (forall cmd, cmd ∈ cmds st -> configured cmd) ->
    resolve_loop conf k 0 (r, st) = OK (r', st') ->
    resolved_upto k st'
    /\ forall j cmd, cmds st' !! j = Some cmd -> shaped (length (cmds st')) cmd.
Proof.
  induction k as [|k IH]; intros r st r' st' Hempty Hall Hloop.
  - split.
    + eapply resolve_loop_resolved_upto; [done| |exact Hloop]. intros cmd Hcmd.
      by apply Hall.
    + injection Hloop as <- <-. intros j cmd Hcmd. apply shaped_mono.
      apply Hall. by eapply list_elem_of_lookup_2.
  - split.
    + eapply resolve_loop_resolved_upto; [done| |exact Hloop]. intros cmd Hcmd.
      by apply Hall.
    + replace (S k) with (k + 1) in Hloop by lia.
      rewrite resolve_loop_app in Hloop. bind_ok Hloop as rst1 Hfirst.
      destruct rst1 as [r1 st1].
      cbn [resolve_loop Nat.add] in Hloop. bind_ok Hloop as rst2 Hstep.
      injection Hloop as ->.
      destruct (IH _ _ _ _ Hempty Hall Hfirst) as [Hres Hsh].
      by eapply resolve_cmd_shaped.
Qed.

(** What passed [parse_query] and [resolve_rrds] is resolved *)
Lemma resolve_rrds_resolved (conf : rrd_conf) (r r' : request_rec)
    (st st' : rrd_cmds_t) :
  (forall cmd, cmd ∈ elements conf -> configured cmd) ->
  parse_query r conf = OK st ->
  resolve_rrds conf r st = OK (r', st') ->
  resolved st'.
Proof.
  intros Hconf Hparse Hresolve.
  apply parse_query_OK in Hparse as (Hempty & cs & os & Hcs & _ & Hall & _).
  unfold resolve_rrds in Hresolve.
  assert (forall cmd, cmd ∈ cmds st -> configured cmd) as Hcmds.
  { intros cmd Hcmd. rewrite Hcs in Hcmd.
    apply elem_of_app in Hcmd as [?|Hcmd]; [auto|].
    by eapply Forall_forall in Hall as [? _]. }
  destruct (resolve_loop_shaped conf _ _ _ _ _ Hempty Hcmds Hresolve) as [Hup Hsh].
  apply resolve_loop_OK in Hresolve as (_ & Hlen & _); [|lia].
  split; [by rewrite Hlen|done].
Qed.




End resolver_properties.

Section generator_properties.

Context `{H : host}.

Tactic Notation "bind_ok" hyp(Hb) "as" ident(a) ident(Ha) :=
  apply bind_OK in Hb as (a & Ha & Hb).

(** ** The daemon check *)

(** X18.  The daemon check of a DEF is exact: [generate_def] refuses a
    DEF with the daemon message and status 400 exactly when its
    consolidation function holds the text [:daemon=] somewhere, and it
    fails in no other way. *)
Theorem generate_def_daemon_exact (cmd : rrd_cmd_t) (cf : string) (args : list string) :
  get cmd d.cf = Str cf ->
  (generate_def cmd args = Failed HTTP_BAD_REQUEST daemon_message
   <-> exists pre post, cf = pre +:+ ":daemon=" +:+ post)
  /\ forall status message,
       generate_def cmd args = Failed status message ->
       status = HTTP_BAD_REQUEST /\ message = daemon_message.
Proof.
  intros Hcf. split.
  - split.
    + unfold generate_def. rewrite Hcf.
      destruct (ap_strstr_c cf ":daemon=") as [found|] eqn:Hfound.
      * intros _. by eapply ap_strstr_c_Some.
      * unfold requests_of. destruct (get cmd d.requests); try done.
        cbn [mbind result_bind]. by destruct arr as [|rr [|rr' arr]].
    + intros (pre & post & ->). by eapply generate_def_daemon.
  - intros status message. unfold generate_def. rewrite Hcf.
    destruct (ap_strstr_c cf ":daemon="); [by intros [= <- <-]|].
    unfold requests_of. destruct (get cmd d.requests); try done.
    cbn [mbind result_bind]. by destruct arr as [|rr [|rr' arr]].
Qed.

(** X19.  A daemon address behind two colons passes the daemon check:
    in a DEF whose data source name is followed by [::daemon=] and an
    address, [parse_element] drops both colons, so the consolidation
    function stored is [daemon=] with the address and holds no
    [:daemon=]; for one source, [generate_def] then writes the argument
    with [:daemon=] and the address in it. *)
Theorem doubled_colon_daemon_passes (vname path dsname addr : string)
    (cmds0 : list rrd_cmd_t) (rr : request_rec) (args : list string) :
  lacks "=" vname ->
  lacks ":" path -> skip_char "=" path = path ->
  lacks ":" dsname -> dsname <> "" ->
  lacks ":" addr ->
  exists cmd,
    parse_element
      ("DEF:" +:+ vname +:+ "=" +:+ path +:+ ":" +:+ dsname +:+ "::daemon=" +:+ addr)
      None None cmds0 = Some (cmds0 ++ [cmd])
    /\ get cmd d.cf = Str ("daemon=" +:+ addr)
    /\ generate_def (set d.requests (Requests [rr]) cmd) args
       = OK (args ++ ["DEF:" +:+ vname +:+ "=" +:+ pescape_colon (filename rr) +:+ ":"
                      +:+ dsname +:+ ":daemon=" +:+ addr]).
Proof.
  intros Hvname Hpath Hpath0 Hdsname Hds0 Haddr.
  destruct (parse_element_def vname path dsname (":daemon=" +:+ addr)
              None None cmds0 Hvname Hpath Hpath0 Hdsname Hds0)
    as (cmd & Hparse & Hty & Hnum & Hdef & Hv & Hp & Hds & Hcf & _).
  assert (skip_char ":" (":daemon=" +:+ addr) = "daemon=" +:+ addr) as Hskip.
  { rewrite !app_cons, !app_empty_l. reflexivity. }
  rewrite Hskip in Hcf.
  assert (lacks ":" ("daemon=" +:+ addr)) as Hlacks.
  { apply lacks_app. split; [by vm_compute|done]. }
  exists cmd. split_and!.
  - rewrite <- Hparse. by rewrite !app_cons, !app_empty_l.
  - done.
  - unfold generate_def, requests_of.
    rewrite get_set_ne by done. rewrite Hcf, get_set_eq.
    rewrite (ap_strstr_c_lacks _ _ ":") by done.
    cbn [mbind result_bind]. unfold push. do 3 f_equal.
    rewrite !get_set_ne by done. rewrite Hv, Hds. cbn [fmt_s].
    by rewrite !app_cons, !app_empty_l.
Qed.

(** ** The argument vector grows *)

Lemma push_prefix (args : list string) (arg : string) : args `prefix_of` push args arg.
Proof. by exists [arg]. Qed.

Lemma absorb_prefix (cmd_def : option nat) (i j : nat) (rest : list rrd_cmd_t) :
  forall k skip args, args `prefix_of` (absorb cmd_def i j k rest skip args).2.
Proof.
  induction rest as [|pcmd rest IH]; intros k skip args; [done|].
  cbn [absorb]. destruct (decide (def pcmd = cmd_def)); [|done].
  destruct (type pcmd); try done;
    (etrans; [apply push_prefix|apply IH]).
Qed.

Lemma generate_graph_each_prefix (fmt : nat -> word -> string) (legend elegend : word)
    (st : rrd_cmds_t) (cmd : rrd_cmd_t) (requests : list request_rec) (i n : nat) :
  forall j skip args skip' args',
    generate_graph_each fmt legend elegend st cmd requests i n j skip args
      = OK (skip', args') ->
    args `prefix_of` args'.
Proof.
  induction n as [|n IH]; intros j skip args skip' args' Hgen.
  - by injection Hgen as <- <-.
  - cbn [generate_graph_each] in Hgen. bind_ok Hgen as legend_j Hleg.
    pose proof (absorb_prefix (def cmd) i j (drop (S i) (cmds st)) (S i) skip
                  (push args (fmt j legend_j))) as Habs.
    destruct (absorb _ _ _ _ _ _ _) as [skip1 args1]. cbn [snd] in Habs.
    apply IH in Hgen. etrans; [apply push_prefix|]. by etrans.
Qed.

Lemma generate_ref_each_prefix (keyword : string) (vname format : word) (n : nat) :
  forall j args, args `prefix_of` generate_ref_each keyword vname format n j args.
Proof.
  induction n as [|n IH]; intros j args; [done|].
  cbn [generate_ref_each]. etrans; [apply push_prefix|apply IH].
Qed.

Lemma generate_vdef_each_prefix (cmd : rrd_cmd_t) (n : nat) :
  forall j args, args `prefix_of` generate_vdef_each cmd n j args.
Proof.
  induction n as [|n IH]; intros j args; [done|].
  cbn [generate_vdef_each]. etrans; [apply push_prefix|apply IH].
Qed.

Lemma generate_def_each_prefix (cmd : rrd_cmd_t) (requests : list request_rec) :
  forall j args, args `prefix_of` generate_def_each cmd requests j args.
Proof.
  induction requests as [|rr requests IH]; intros j args; [done|].
  cbn [generate_def_each]. etrans; [apply push_prefix|apply IH].
Qed.

Lemma generate_cdef_each_prefix (st : rrd_cmds_t) (cmd : rrd_cmd_t)
    (rpns : list rrd_rpn_t) (n : nat) :
  forall j args args',
    generate_cdef_each st cmd rpns n j args = OK args' -> args `prefix_of` args'.
Proof.
  induction n as [|n IH]; intros j args args' Hgen.
  - by injection Hgen as <-.
  - cbn [generate_cdef_each] in Hgen. bind_ok Hgen as body Hbody.
    apply IH in Hgen. etrans; [apply push_prefix|done].
Qed.

(** A generator adds to the argument vector and leaves what is there *)
Lemma generate_cmd_prefix (r : request_rec) (st : rrd_cmds_t) (cmd : rrd_cmd_t)
    (args : list string) (i : nat) (args' : list string) (i' : nat) :
  generate_cmd r st cmd args i = OK (args', i') -> args `prefix_of` args'.
Proof.
  assert (forall keyword vname legend elegend fmt1 fmtn,
             generate_graph keyword vname legend elegend fmt1 fmtn st cmd args i
             = OK (args', i') -> args `prefix_of` args') as Hgraph.
  { intros keyword vname legend elegend fmt1 fmtn. unfold generate_graph.
    destruct (def_of st cmd) as [[dcmd| |]|]; try done. cbn [mbind result_bind].
    destruct (num dcmd) as [|[|n]].
    - by intros [= <- <-].
    - destruct (get dcmd d.requests); try done.
      destruct (eval_legend _ _ _); try done. cbn [mbind result_bind].
      intros [= <- <-]. apply push_prefix.
    - destruct (get dcmd d.requests); try done.
      destruct (generate_graph_each _ _ _ _ _ _ _ _ _ _ _) as [[skip args1]| |] eqn:Hgen;
        try done.
      cbn [mbind result_bind]. intros [= <- <-].
      by eapply generate_graph_each_prefix. }
  assert (forall keyword vname format,
             generate_ref keyword vname format st cmd args
               ≫= (fun args => OK (args, i)) = OK (args', i') ->
             args `prefix_of` args') as Href.
  { intros keyword vname format Hgen. bind_ok Hgen as args1 Hr.
    injection Hgen as <- <-. unfold generate_ref in Hr.
    destruct (def_of st cmd) as [[dcmd| |]|]; try done. cbn [mbind result_bind] in Hr.
    destruct (num dcmd) as [|[|n]].
    - by injection Hr as <-.
    - injection Hr as <-. apply push_prefix.
    - replace args1 with (generate_ref_each keyword (get cmd vname) (get cmd format)
                            (S (S n)) 0 args) by congruence.
      apply generate_ref_each_prefix. }
  assert (forall keyword,
             generate_rule keyword r cmd args ≫= (fun args => OK (args, i))
             = OK (args', i') -> args `prefix_of` args') as Hrule.
  { intros keyword Hgen. bind_ok Hgen as args1 Hr. injection Hgen as <- <-.
    unfold generate_rule in Hr. bind_ok Hr as legend Hleg. injection Hr as <-.
    apply push_prefix. }
  assert (generate_element r cmd args ≫= (fun args => OK (args, i)) = OK (args', i') ->
          args `prefix_of` args') as Helement.
  { intros Hgen. bind_ok Hgen as args1 Hr. injection Hgen as <- <-.
    unfold generate_element in Hr. bind_ok Hr as legend Hleg. injection Hr as <-.
    apply push_prefix. }
  unfold generate_cmd.
  destruct (type cmd); try (by eapply Hgraph); try (by apply Href);
    try (by apply Hrule); try (by apply Helement);
    intros Hgen; bind_ok Hgen as args1 Hr; injection Hgen as <- <-.
  - unfold generate_def in Hr. destruct (get cmd d.cf); try done.
    destruct (ap_strstr_c _ _); [done|]. bind_ok Hr as requests Hrequests.
    destruct requests as [|rr [|rr' requests]].
    + by injection Hr as <-.
    + injection Hr as <-. apply push_prefix.
    + match type of Hr with
      | OK ?x = OK ?y => replace y with x by congruence
      end.
      etrans; [apply (generate_def_each_prefix cmd (rr :: rr' :: requests) 0)|].
      apply push_prefix.
  - unfold generate_cdef in Hr.
    destruct (def_of st cmd) as [[dcmd| |]|]; try done. cbn [mbind result_bind] in Hr.
    destruct (num dcmd) as [|[|n]].
    + by injection Hr as <-.
    + injection Hr as <-. apply push_prefix.
    + destruct (get cmd c.rpns); try done. by eapply generate_cdef_each_prefix.
  - unfold generate_vdef in Hr.
    destruct (def_of st cmd) as [[dcmd| |]|]; try done. cbn [mbind result_bind] in Hr.
    destruct (num dcmd) as [|[|n]].
    + by injection Hr as <-.
    + injection Hr as <-. apply push_prefix.
    + match type of Hr with
      | OK ?x = OK ?y => replace y with x by congruence
      end.
      apply generate_vdef_each_prefix.
Qed.

Lemma generate_cmds_prefix (r : request_rec) (st : rrd_cmds_t) (fuel : nat) :
  forall i args args', generate_cmds fuel r st i args = OK args' -> args `prefix_of` args'.
Proof.
  induction fuel as [|fuel IH]; intros i args args' Hgen.
  - by injection Hgen as <-.
  - cbn [generate_cmds] in Hgen. destruct (cmds st !! i) as [cmd|].
    2:{ by injection Hgen as <-. }
    bind_ok Hgen as x Hx. destruct x as [args1 i1].
    apply generate_cmd_prefix in Hx. apply IH in Hgen. by etrans.
Qed.

Lemma generate_opts_prefix (r : request_rec) (opts : list rrd_opt_t) :
  forall args args', generate_opts r opts args = OK args' -> args `prefix_of` args'.
Proof.
  induction opts as [|opt opts IH]; intros args args' Hgen.
  - by injection Hgen as <-.
  - cbn [generate_opts] in Hgen. destruct (eval opt) as [e|].
    + destruct (ap_expr_str_exec r e); [|done]. apply IH in Hgen.
      etrans; [apply push_prefix|]. etrans; [apply push_prefix|done].
    + destruct (val opt); apply IH in Hgen.
      * etrans; [apply push_prefix|]. etrans; [apply push_prefix|done].
      * etrans; [apply push_prefix|done].
Qed.

(** X20.  The argument vector starts with the program and the format
    and is only added to: what [generate_args] returns is [rrdgraph],
    [-], [--imgformat] and the format, then the arguments of the options,
    then those of the commands; a format is there; and the generator of a
    command leaves the arguments before it as they are. *)
Theorem generate_args_header (r : request_rec) (st : rrd_cmds_t) (format : option string)
    (args : list string) :
  generate_args r st format = OK args ->
  exists format0 oargs rest,
    format = Some format0
    /\ generate_opts r (opts st) ["rrdgraph"; "-"; "--imgformat"; format0]
       = OK (["rrdgraph"; "-"; "--imgformat"; format0] ++ oargs)
    /\ args = ["rrdgraph"; "-"; "--imgformat"; format0] ++ oargs ++ rest
    /\ forall (cmd : rrd_cmd_t) (args0 : list string) (i : nat) args1 i1,
         generate_cmd r st cmd args0 i = OK (args1, i1) -> args0 `prefix_of` args1.
Proof.
  unfold generate_args. destruct format as [format0|]; [|done].
  intros Hgen. bind_ok Hgen as args1 Hopts.
  pose proof (generate_opts_prefix _ _ _ _ Hopts) as [oargs ->].
  pose proof (generate_cmds_prefix _ _ _ _ _ _ Hgen) as [rest ->].
  exists format0, oargs, rest. split_and!; [done|done|by rewrite <- app_assoc|].
  intros cmd args0 i args1 i1. apply generate_cmd_prefix.
Qed.

(** ** No fault after the resolver *)

Lemma resolved_def_of (st : rrd_cmds_t) (i : nat) (cmd : rrd_cmd_t) :
  resolved st -> cmds st !! i = Some cmd ->
  def_of st cmd = None
  \/ exists dcmd requests,
       def_of st cmd = Some (OK dcmd)
       /\ get dcmd d.requests = Requests requests /\ length requests = num dcmd.
Proof.
  intros [(_ & Hbacked & _) _] Hcmd. unfold def_of.
  destruct (def cmd) as [dp|] eqn:Hdp; [|by left]. right.
  assert (i < length (cmds st)) as Hi by by eapply lookup_lt_Some.
  destruct (Hbacked i cmd Hi Hcmd dp Hdp) as (_ & dcmd & Hdcmd & (_ & _ & Hreq) & _).
  destruct Hreq as (requests & Hrequests & Hlen).
  exists dcmd, requests. by rewrite (proj2 (cmd_at_OK st dp dcmd) Hdcmd).
Qed.

Lemma eval_legend_no_fault (rr : request_rec) (legend elegend : word) :
  eval_legend (Some rr) legend elegend <> Fault.
Proof.
  unfold eval_legend, expr_failed. destruct elegend; try done.
  by destruct (ap_expr_str_exec rr expr).
Qed.

Lemma generate_graph_each_no_fault (fmt : nat -> word -> string) (legend elegend : word)
    (st : rrd_cmds_t) (cmd : rrd_cmd_t) (requests : list request_rec) (i n : nat) :
  forall j skip args,
    j + n <= length requests ->
    generate_graph_each fmt legend elegend st cmd requests i n j skip args <> Fault.
Proof.
  induction n as [|n IH]; intros j skip args Hlen; [done|].
  cbn [generate_graph_each].
  destruct (lookup_lt_is_Some_2 requests j ltac:(lia)) as [rr ->].
  pose proof (eval_legend_no_fault rr legend elegend) as Hleg.
  destruct (eval_legend (Some rr) legend elegend) as [legend_j| |]; try done.
  cbn [mbind result_bind]. destruct (absorb _ _ _ _ _ _ _) as [skip1 args1].
  apply IH. lia.
Qed.

Lemma generate_graph_no_fault (keyword : string) (vname legend elegend : member)
    (fmt1 : rrd_cmd_t -> word -> string) (fmtn : rrd_cmd_t -> nat -> word -> string)
    (st : rrd_cmds_t) (cmd : rrd_cmd_t) (args : list string) (i j : nat) :
  resolved st -> cmds st !! j = Some cmd ->
  generate_graph keyword vname legend elegend fmt1 fmtn st cmd args i <> Fault.
Proof.
  intros Hres Hcmd. unfold generate_graph.
  destruct (resolved_def_of st j cmd Hres Hcmd)
    as [->|(dcmd & requests & -> & Hrequests & Hlen)]; [done|].
  cbn [mbind result_bind]. rewrite Hrequests.
  destruct (num dcmd) as [|[|n]] eqn:Hnum; [done| |].
  - destruct requests as [|rr requests]; [done|]. cbn [lookup list_lookup].
    pose proof (eval_legend_no_fault rr (get cmd legend) (get cmd elegend)) as Hleg.
    by destruct (eval_legend _ _ _).
  - pose proof (generate_graph_each_no_fault (fmtn cmd) (get cmd legend)
                  (get cmd elegend) st cmd requests i (S (S n)) 0 0 args
                  ltac:(lia)) as Hgen.
    by destruct (generate_graph_each _ _ _ _ _ _ _ _ _ _ _) as [[skip args1]| |].
Qed.

Lemma generate_cdef_rpns_no_fault (st : rrd_cmds_t) (j : nat) (rpns : list rrd_rpn_t) :
  Forall (fun rp => forall dp, rpn_def rp = Some dp -> dp < length (cmds st)) rpns ->
  forall k, exists body, generate_cdef_rpns st j k rpns = OK body.
Proof.
  induction 1 as [|rp rpns Hrp Hall IH]; intros k; [by eexists|].
  cbn [generate_cdef_rpns]. unfold generate_cdef_rpn.
  destruct (IH (S k)) as [rest ->].
  destruct (rpn_def rp) as [dp|] eqn:Hdp.
  - destruct (lookup_lt_is_Some_2 (cmds st) dp (Hrp dp eq_refl)) as [dcmd Hdcmd].
    rewrite (proj2 (cmd_at_OK st dp dcmd) Hdcmd). cbn [mbind result_bind].
    destruct (num dcmd <? 2)%nat; by eexists.
  - by eexists.
Qed.

Lemma generate_cdef_each_no_fault (st : rrd_cmds_t) (cmd : rrd_cmd_t)
    (rpns : list rrd_rpn_t) (n : nat) :
  Forall (fun rp => forall dp, rpn_def rp = Some dp -> dp < length (cmds st)) rpns ->
  forall j args, exists args', generate_cdef_each st cmd rpns n j args = OK args'.
Proof.
  intros Hall. induction n as [|n IH]; intros j args; [by eexists|].
  cbn [generate_cdef_each].
  destruct (generate_cdef_rpns_no_fault st j rpns Hall 0) as [body ->].
  cbn [mbind result_bind]. apply IH.
Qed.

(** No generator faults on a resolved command list *)
Lemma generate_cmd_no_fault (r : request_rec) (st : rrd_cmds_t) (cmd : rrd_cmd_t)
    (args : list string) (i j : nat) :
  resolved st -> cmds st !! j = Some cmd ->
  generate_cmd r st cmd args i <> Fault.
Proof.
  intros Hres Hcmd. pose proof Hres as [_ Hshaped].
  specialize (Hshaped j cmd Hcmd). unfold shaped in Hshaped.
  assert (forall keyword vname format,
             generate_ref keyword vname format st cmd args ≫= (fun args => OK (args, i))
             <> Fault) as Href.
  { intros keyword vname format. unfold generate_ref.
    destruct (resolved_def_of st j cmd Hres Hcmd)
      as [->|(dcmd & requests & -> & _ & _)]; [done|].
    cbn [mbind result_bind]. by destruct (num dcmd) as [|[|n]]. }
  assert (forall keyword,
             generate_rule keyword r cmd args ≫= (fun args => OK (args, i)) <> Fault)
    as Hrule.
  { intros keyword. unfold generate_rule.
    destruct (eval_legend _ _ _) eqn:Hleg; try done.
    by apply eval_legend_no_fault in Hleg. }
  unfold generate_cmd.
  destruct (type cmd) eqn:Hty;
    try (by eapply generate_graph_no_fault);
    try apply Href; try apply Hrule.
  - (* DEF *)
    destruct Hshaped as [[cf Hcf] [requests Hrequests]].
    unfold generate_def, requests_of. rewrite Hcf, Hrequests.
    destruct (ap_strstr_c cf ":daemon="); [done|]. cbn [mbind result_bind].
    by destruct requests as [|rr [|rr' requests]].
  - (* CDEF *)
    destruct Hshaped as (rpns & Hrpns & Hall).
    unfold generate_cdef.
    destruct (resolved_def_of st j cmd Hres Hcmd)
      as [->|(dcmd & requests & -> & _ & _)]; [done|].
    cbn [mbind result_bind]. rewrite Hrpns.
    destruct (num dcmd) as [|[|n]]; try done.
    by destruct (generate_cdef_each_no_fault st cmd rpns (num cmd) Hall 0 args)
      as [args' ->].
  - (* VDEF *)
    unfold generate_vdef.
    destruct (resolved_def_of st j cmd Hres Hcmd)
      as [->|(dcmd & requests & -> & _ & _)]; [done|].
    cbn [mbind result_bind]. by destruct (num dcmd) as [|[|n]].
  - (* COMMENT *)
    unfold generate_element.
    pose proof (eval_legend_no_fault r (get cmd e.legend) (get cmd e.elegend)) as Hleg.
    by destruct (eval_legend _ _ _).
  - (* TEXTALIGN *)
    unfold generate_element.
    pose proof (eval_legend_no_fault r (get cmd e.legend) (get cmd e.elegend)) as Hleg.
    by destruct (eval_legend _ _ _).
Qed.

Lemma generate_cmds_no_fault (r : request_rec) (st : rrd_cmds_t) (fuel : nat) :
  resolved st ->
  forall i args, generate_cmds fuel r st i args <> Fault.
Proof.
  intros Hres. induction fuel as [|fuel IH]; intros i args; [done|].
  cbn [generate_cmds]. destruct (cmds st !! i) as [cmd|] eqn:Hcmd; [|done].
  pose proof (generate_cmd_no_fault r st cmd args i i Hres Hcmd) as Hgen.
  destruct (generate_cmd r st cmd args i) as [[args1 i1]| |]; try done.
  cbn [mbind result_bind]. apply IH.
Qed.

Lemma generate_opts_no_fault (r : request_rec) (opts : list rrd_opt_t) :
  forall args, generate_opts r opts args <> Fault.
Proof.
  induction opts as [|opt opts IH]; intros args; [done|].
  cbn [generate_opts]. destruct (eval opt) as [e|].
  - destruct (ap_expr_str_exec r e); [apply IH|done].
  - destruct (val opt); apply IH.
Qed.

Lemma resolved_no_fault (r : request_rec) (st : rrd_cmds_t) (format0 : string) :
  resolved st -> generate_args r st (Some format0) <> Fault.
Proof.
  intros Hres. unfold generate_args.
  pose proof (generate_opts_no_fault r (opts st)
                ["rrdgraph"; "-"; "--imgformat"; format0]) as Hopts.
  destruct (generate_opts r (opts st) _) as [args| |]; try done.
  cbn [mbind result_bind]. by apply generate_cmds_no_fault.
Qed.

(** X21.  What parses and resolves is generated without a fault: when
    the elements of the configuration are as [parse_element] left them
    and the request passed [parse_query] and [resolve_rrds], then
    [generate_args], given a format, dereferences no NULL pointer and
    reads no union member of another kind, whatever the query string
    held.  It returns the arguments or fails with a status. *)
Theorem generate_args_no_fault (conf : rrd_conf) (r r' : request_rec)
    (st st' : rrd_cmds_t) :
  (forall cmd, cmd ∈ elements conf -> configured cmd) ->
  parse_query r conf = OK st ->
  resolve_rrds conf r st = OK (r', st') ->
  forall (r0 : request_rec) (format0 : string),
    (exists args, generate_args r0 st' (Some format0) = OK args)
    \/ (exists status message,
          generate_args r0 st' (Some format0) = Failed status message).
Proof.
  intros Hconf Hparse Hresolve r0 format0.
  pose proof (resolved_no_fault r0 st' format0
                (resolve_rrds_resolved _ _ _ _ _ Hconf Hparse Hresolve)) as Hgen.
  destruct (generate_args r0 st' (Some format0)) as [args|status message|];
    [left; by eexists|right; by eexists _, _|done].
Qed.

End generator_properties.

Section handler_properties.

Context `{H : host}.

Variable rrd_graph_v : list string -> option (list (string * string)).
Variable rrd_get_error : list string -> string.
Variable ap_pass_brigade : request_rec -> string -> bool.
Variable finfo_nofile : request_rec -> bool.

(** ** The handler *)



Tactic Notation "bind_ok" hyp(Hb) "as" ident(a) ident(Ha) :=
  apply bind_OK in Hb as (a & Ha & Hb).

(** ** Configurations at rest *)







(** ** What the request leaves in the configuration *)









End handler_properties.

Section config_properties.

Context `{H : host}.

Variable ap_expr_parse_cmd : string -> ap_expr_info_t + string.

(** ** Merging configurations *)

(** X25.  Merging configurations is associative: merging a third
    configuration into the merge of two gives what merging the merge of
    the last two into the first gives, in the options, the elements, the
    environment, the location, the format, the flag and the three marks
    that say what was set. *)
Theorem merge_rrd_config_assoc (c1 c2 c3 : Config.rrd_conf) :
  Config.merge_rrd_config (Config.merge_rrd_config c1 c2) c3
  = Config.merge_rrd_config c1 (Config.merge_rrd_config c2 c3).
Proof.
  unfold Config.merge_rrd_config; cbn.
  rewrite !app_assoc, (assoc_L (∪)).
  destruct (Config.location_set c3), (Config.location_set c2), (Config.format_set c3),
    (Config.format_set c2), (Config.graph_set c3), (Config.graph_set c2); reflexivity.
Qed.

(** X26.  A fresh configuration is neutral in a merge: merging what
    [create_rrd_config] returns into a configuration changes nothing, and
    merging a configuration into a fresh one gives that configuration
    back when each field that is not marked as set still holds its
    initial value, which holds of the fresh configuration and is kept by
    merging. *)
Theorem merge_rrd_config_fresh (conf : Config.rrd_conf) :
  Config.merge_rrd_config conf Config.create_rrd_config = conf
  /\ (Config.unset_is_default conf ->
      Config.merge_rrd_config Config.create_rrd_config conf = conf)
  /\ Config.unset_is_default Config.create_rrd_config
  /\ (forall base add,
        Config.unset_is_default base -> Config.unset_is_default add ->
        Config.unset_is_default (Config.merge_rrd_config base add)).
Proof.
  split_and!.
  - destruct conf. unfold Config.merge_rrd_config; cbn. by rewrite (left_id_L ∅ (∪)).
  - intros (Hl & Hf & Hg). destruct conf as [l o e v f g ls fs gs]; cbn in *.
    unfold Config.merge_rrd_config; cbn.
    rewrite !app_nil_r, (right_id_L ∅ (∪)), !orb_false_r.
    f_equal.
    + destruct ls; [done|]. by rewrite Hl.
    + destruct fs; [done|]. by rewrite Hf.
    + destruct gs; [done|]. by rewrite Hg.
  - done.
  - intros base add (Hl & Hf & Hg) (Hl' & Hf' & Hg').
    unfold Config.unset_is_default; cbn.
    split_and!; intros [-> ?]%orb_false_iff; auto.
Qed.

(** X27.  The options a directive takes: [set_rrd_graph_option] returns
    no error exactly when the key, given with a value, is in the table of
    options with a value and the value parses as an expression, or, given
    alone, is in the table of options without a value.  On an error the
    configuration is as it was; otherwise one option is appended, with
    the key and the value as written, and with an expression exactly when
    there is a value. *)
Theorem set_rrd_graph_option_accepts (conf : Config.rrd_conf) (key0 : string)
    (val0 : option string) :
  ((Config.set_rrd_graph_option ap_expr_parse_cmd conf key0 val0).1 = None
   <-> match val0 with
       | Some v => key0 ∈ keys_with_value /\ exists eval0, ap_expr_parse_cmd v = inl eval0
       | None => key0 ∈ keys_without_value
       end)
  /\ (is_Some (Config.set_rrd_graph_option ap_expr_parse_cmd conf key0 val0).1 ->
      (Config.set_rrd_graph_option ap_expr_parse_cmd conf key0 val0).2 = conf)
  /\ ((Config.set_rrd_graph_option ap_expr_parse_cmd conf key0 val0).1 = None ->
      exists opt,
        (Config.set_rrd_graph_option ap_expr_parse_cmd conf key0 val0).2
        = Config.with_options (Config.options conf ++ [opt]) conf
        /\ key opt = key0 /\ val opt = val0
        /\ (is_Some (eval opt) <-> is_Some val0)).
Proof.
  unfold Config.set_rrd_graph_option, Config.parse_value, parse_option.
  destruct val0 as [v|].
  - destruct (ap_expr_parse_cmd v) as [eval0|err]; cbn.
    + case_bool_decide as Hk; cbn.
      * split; [|split].
        -- split; [|done]. intros _. split; [done|by eexists].
        -- by intros [].
        -- intros _. eexists. split; [done|]. cbn. split; [done|]. split; [done|].
           split; by eexists.
      * split; [|split]; [|done|done]. split; [done|]. by intros [? _].
    + split; [|split]; [|done|done]. split; [done|]. by intros [_ [e [=]]].
  - cbn. case_bool_decide as Hk; cbn.
    + split; [|split]; [done|by intros []|]. intros _. eexists. split; [done|].
      cbn. split; [done|]. split; [done|]. split; by intros [].
    + split; [|split]; [|done|done]. split; [done|]. done.
Qed.

(** X30.  What the directives build is what a request expects: in every
    configuration made from a fresh one by the directives and by merging,
    each element is as [parse_element] left it, with no sources, no
    backing DEF and a count of zero; each option has a key of the table
    that fits it, with a value and an expression or with neither; every
    field that is not marked as set holds its initial value; and the
    location, which no directive sets, is NULL. *)
Theorem built_configuration_invariant (conf : Config.rrd_conf) :
  Config.built ap_expr_parse_cmd conf ->
  (forall cmd, cmd ∈ Config.elements conf -> configured cmd)
  /\ (forall opt, opt ∈ Config.options conf -> directive_option opt)
  /\ Config.unset_is_default conf
  /\ Config.location conf = None.
Proof.
  induction 1 as [|base add _ IHbase _ IHadd|conf flag _ IH|conf format0 _ IH
                  |conf key0 val0 _ IH|conf element val1 val2 _ IH|conf key0 val0 _ IH].
  - split_and!; [by intros cmd ?%elem_of_nil|by intros opt ?%elem_of_nil|done|done].
  - destruct IHbase as (Hcb & Hob & (Hlb & Hfb & Hgb) & Hnb).
    destruct IHadd as (Hca & Hoa & (Hla & Hfa & Hga) & Hna).
    unfold Config.merge_rrd_config; cbn. split_and!.
    + intros cmd [?|?]%elem_of_app; auto.
    + intros opt [?|?]%elem_of_app; auto.
    + unfold Config.unset_is_default; cbn.
      split_and!; intros [-> ?]%orb_false_iff; auto.
    + by destruct (Config.location_set add).
  - destruct IH as (Hc & Ho & (Hl & Hf & Hg) & Hn). cbn. by split_and!.
  - destruct IH as (Hc & Ho & (Hl & Hf & Hg) & Hn). cbn. by split_and!.
  - destruct IH as (Hc & Ho & Hu & Hn).
    unfold Config.set_rrd_graph_option, Config.parse_value, parse_option.
    destruct val0 as [v|].
    + destruct (ap_expr_parse_cmd v) as [eval0|err]; [|done].
      case_bool_decide as Hk; [|done]. cbn. split_and!; [done| |done|done].
      intros opt [?| ->%list_elem_of_singleton]%elem_of_app; [auto|].
      left. cbn. by split_and!.
    + case_bool_decide as Hk; [|done]. cbn. split_and!; [done| |done|done].
      intros opt [?| ->%list_elem_of_singleton]%elem_of_app; [auto|].
      right. cbn. by split_and!.
  - destruct IH as (Hc & Ho & Hu & Hn).
    unfold Config.set_rrd_graph_element.
    destruct (Config.parse_value ap_expr_parse_cmd val1) as [eval1|err]; [|done].
    destruct (Config.parse_value ap_expr_parse_cmd val2) as [eval2|err]; [|done].
    destruct (parse_element element eval1 eval2 (Config.elements conf))
      as [cmds'|] eqn:Hp; [|done].
    pose proof Hp as Hp'.
    apply parse_element_parsed in Hp as (cmd & -> & Hparsed & _).
    apply parse_element_shaped in Hp' as (cmd' & Heq & Hsh).
    apply app_inj_tail in Heq as [_ <-].
    cbn. split_and!; [|done|done|done].
    intros c [?| ->%list_elem_of_singleton]%elem_of_app; [auto|]. by split.
  - destruct IH as (Hc & Ho & Hu & Hn).
    unfold Config.set_rrd_graph_env.
    by destruct (ap_expr_parse_cmd val0) as [eval0|err].
Qed.

End config_properties.

(** * Examples, counterexamples and witnesses *)

Example pescape_colon_ex : pescape_colon "a:b::c" = "a\:b\:\:c".
Proof. reflexivity. Qed.

Example getword_quote_quoted :
  getword_quote (String "034" "a:b\" +:+ String "034" "c" +:+ String "034" ":rest") ":"
  = ("a:b" +:+ String "034" "c", "rest").
Proof. reflexivity. Qed.

Example getword_quote_plain : getword_quote "foo\:bar" ":" = ("foo\", "bar").
Proof. reflexivity. Qed.

Example tokens_ex : tokens 10 "," "a,1,,+" = ["a"; "1"; "+"].
Proof. reflexivity. Qed.

(** The scenario of the specification: a wildcard DEF that matches two
    sources, and a LINE on it *)
Example compile_wildcard :
  example_compile "DEF:a=*.rrd:in:AVERAGE&LINE1:a#00ff00:Traffic"
  = OK ["rrdgraph"; "-"; "--imgformat"; "PNG";
        "DEF:aw0=h1.rrd:in:AVERAGE"; "DEF:aw1=h2.rrd:in:AVERAGE"; "CDEF:a=aw0,aw1,+";
        "LINE1:aw0#00ff00:Traffic"; "LINE1:aw1#00ff00:Traffic"].
Proof. vm_compute. reflexivity. Qed.

Example compile_no_match :
  example_compile "DEF:a=none.rrd:in:AVERAGE&LINE1:a#00ff00:Traffic"
  = OK ["rrdgraph"; "-"; "--imgformat"; "PNG"].
Proof. vm_compute. reflexivity. Qed.

Example compile_undefined :
  example_compile "GPRINT:b:%.1f"
  = Failed HTTP_BAD_REQUEST "While parsing GPRINT: 'b' was not found".
Proof. vm_compute. reflexivity. Qed.

(** Absorbed commands that are followed by another command are skipped *)
Example absorbed_then_skipped :
  example_compile "DEF:a=*.rrd:in:AVERAGE&LINE1:a#00ff00:Traffic&PRINT:a:%lf&HRULE:0#ff:x"
  = OK ["rrdgraph"; "-"; "--imgformat"; "PNG";
        "DEF:aw0=h1.rrd:in:AVERAGE"; "DEF:aw1=h2.rrd:in:AVERAGE"; "CDEF:a=aw0,aw1,+";
        "LINE1:aw0#00ff00:Traffic"; "PRINT:aw0:%lf";
        "LINE1:aw1#00ff00:Traffic"; "PRINT:aw1:%lf";
        "HRULE:0#ff:x"].
Proof. vm_compute. reflexivity. Qed.

(** C5.  A LINE on a DEF with two sources, and a PRINT on the same DEF
    that ends the sequence: the PRINT is absorbed, its lines follow the
    line of each source, and the main loop does not skip it, because the
    scan ran off the end of the array and left [skip] at 0.  The PRINT is
    generated a second time on its own. *)
Theorem trailing_print_generated_twice :
  example_compile "DEF:a=*.rrd:in:AVERAGE&LINE1:a#00ff00:Traffic&PRINT:a:%lf"
  = OK ["rrdgraph"; "-"; "--imgformat"; "PNG";
        "DEF:aw0=h1.rrd:in:AVERAGE"; "DEF:aw1=h2.rrd:in:AVERAGE"; "CDEF:a=aw0,aw1,+";
        "LINE1:aw0#00ff00:Traffic"; "PRINT:aw0:%lf";
        "LINE1:aw1#00ff00:Traffic"; "PRINT:aw1:%lf";
        "PRINT:aw0:%lf"; "PRINT:aw1:%lf"].
Proof. vm_compute. reflexivity. Qed.

(** The query [COMMENT:Foo]: the legend is lost *)
Example compile_comment :
  example_compile "COMMENT:Foo"
  = OK ["rrdgraph"; "-"; "--imgformat"; "PNG"; "COMMENT:(null)"].
Proof. vm_compute. reflexivity. Qed.

(** The query [rigid]: the option is not recognised, when the same query
    with a value for an option that takes one is *)
Example compile_rigid :
  example_compile "rigid" = Failed HTTP_BAD_REQUEST "Query was not recognised: rigid"
  /\ example_compile "title=x" = OK ["rrdgraph"; "-"; "--imgformat"; "PNG"; "--title"; "x"].
Proof. split; vm_compute; reflexivity. Qed.


(** Counterexample to C3: a CDEF of literals resolves, with multiplicity
    0 and no backing DEF, and the request fails in the generator. *)
Lemma literal_cdef_fails :
  (exists cmd, cmds (example_state "CDEF:x=1,2,+" 1) !! 0 = Some cmd
               /\ num cmd = 0 /\ def cmd = None
               /\ names (example_state "CDEF:x=1,2,+" 1) !! "x" = Some 0)
  /\ example_compile "CDEF:x=1,2,+"
     = Failed HTTP_BAD_REQUEST "CDEF element 'x' referred to no existing definitions".
Proof.
  split.
  - eexists. split_and!; [vm_compute; reflexivity|reflexivity..].
  - vm_compute. reflexivity.
Qed.


(** Counterexample to C9: the quoted legend [a:b] is stored without its
    quotes and generated without a backslash, so the legend field of the
    argument splits into [a] and [b]. *)
Lemma literal_legend_not_escaped :
  get (example_cmd quoted_legend_query 0 1) l.legend = Str "a:b"
  /\ example_compile quoted_legend_query
     = OK ["rrdgraph"; "-"; "--imgformat"; "PNG"; "DEF:a=one.rrd:in:AVERAGE";
           "LINE1:a#ff:a:b"]
  /\ split_unescaped "LINE1:a#ff:a:b" = ["LINE1"; "a#ff"; "a"; "b"]
  /\ split_unescaped "LINE1:a#ff:a:b" !! 2 <> Some "a:b".
Proof. split_and!; try (vm_compute; reflexivity). vm_compute. congruence. Qed.


Lemma daemon_rejected_witness :
  let cmd := example_cmd "DEF:a=one.rrd:in:AVERAGE:daemon=x" 0 0 in
  type cmd = RRD_CONF_DEF
  /\ get cmd d.cf = Str ("AVERAGE" +:+ ":daemon=" +:+ "x")
  /\ generate_def
       (set_num 1 (set d.requests (Requests [example_source "one.rrd"]) cmd)) []
     = Failed HTTP_BAD_REQUEST "DEF elements must not contain a 'daemon' parameter".
Proof.
  intros cmd.
  pose proof (daemon_rejected (H := example_host) cmd "AVERAGE" "x" eq_refl eq_refl)
    as [Hdef _].
  split_and!; [reflexivity|reflexivity|apply Hdef].
Defined.

Lemma inert_cdef_rejected_witness :
  let query := "CDEF:x=1,2,+" in
  let st := example_state query 0 in
  let cmd := example_cmd query 0 0 in
  let rpns := [Rpn "1" None; Rpn "2" None; Rpn "+" None] in
  let message := "CDEF element 'x' referred to no existing definitions" in
  cmds st !! 0 = Some cmd
  /\ type cmd = RRD_CONF_CDEF /\ num cmd = 0 /\ def cmd = None
  /\ get cmd c.vname = Str "x" /\ get cmd c.ref = NULL /\ get cmd c.rpns = Rpns rpns
  /\ (forall rp, rp ∈ rpns -> names st !! rpn rp = None)
  /\ exists cmd',
      resolve_cdef 0 st = OK (Cmds (<[0 := cmd']> (cmds st)) (opts st)
                                (<["x" := 0]> (names st)))
      /\ (forall args, generate_cdef st cmd' args = Failed HTTP_BAD_REQUEST message)
      /\ (forall r st' j fuel args,
            cmds st' !! j = Some cmd' ->
            generate_cmds (S fuel) r st' j args = Failed HTTP_BAD_REQUEST message)
      /\ (forall r st' format out, cmd' ∈ cmds st' -> generate_args r st' format <> OK out).
Proof.
  intros query st cmd rpns message.
  assert (forall rp, rp ∈ rpns -> names st !! rpn rp = None) as Hnone.
  { intros rp _. apply lookup_empty. }
  assert (cmds st !! 0 = Some cmd) as Hcmd by (vm_compute; reflexivity).
  assert (type cmd = RRD_CONF_CDEF) as Hty by (vm_compute; reflexivity).
  assert (num cmd = 0) as Hnum by (vm_compute; reflexivity).
  assert (def cmd = None) as Hdef by (vm_compute; reflexivity).
  assert (get cmd c.vname = Str "x") as Hk by (vm_compute; reflexivity).
  assert (get cmd c.ref = NULL) as Hnull by (vm_compute; reflexivity).
  assert (get cmd c.rpns = Rpns rpns) as Hrpns by (vm_compute; reflexivity).
  destruct (inert_cdef_rejected (H := example_host) example_conf 0 st cmd "x" rpns
              Hcmd Hty Hnum Hdef Hk Hnull Hrpns Hnone)
    as (cmd' & Hres & _ & _ & _ & _ & Hgen & Hloop & Hargs & _).
  split_and!; try assumption.
  exists cmd'. split_and!; [exact Hres| |exact Hloop|exact Hargs].
  intros args. apply Hgen.
Defined.


Lemma forward_reference_rejected_witness :
  let query := "LINE1:a#00ff00:Traffic&DEF:a=*.rrd:in:AVERAGE" in
  let st := example_state query 0 in
  let cmd := example_cmd query 0 0 in
  names st = ∅
  /\ cmds st !! 0 = Some cmd
  /\ reference cmd = Some (Str "a")
  /\ (forall j cmd', j < 0 -> cmds st !! j = Some cmd' -> defines cmd' <> Some "a")
  /\ forall out,
      @resolve_rrds example_host example_conf (example_request query) st <> OK out.
Proof.
  intros query st cmd.
  assert (forall j cmd', j < 0 -> cmds st !! j = Some cmd' -> defines cmd' <> Some "a")
    as Hbefore.
  { intros j cmd' Hj. lia. }
  destruct (forward_reference_rejected (H := example_host) example_conf
              (example_request query) st 0 cmd "a" eq_refl eq_refl eq_refl Hbefore)
    as [Hfail _].
  split_and!; try reflexivity; try assumption.
Defined.

Lemma bare_option_rejected_witness :
  "rigid" ∈ keys_without_value
  /\ @args example_host (example_request "rigid") = Some "rigid"
  /\ @apr_punescape_url example_host "rigid" = Some "rigid"
  /\ @parse_query example_host (example_request "rigid") example_conf
     = Failed HTTP_BAD_REQUEST ("Query was not recognised: " +:+ "rigid").
Proof.
  assert ("rigid" ∈ keys_without_value) as Hkey.
  { unfold keys_without_value. do 11 apply list_elem_of_further.
    apply list_elem_of_here. }
  destruct (bare_option_rejected (H := example_host) example_conf
              (example_request "rigid") "rigid" Hkey eq_refl eq_refl) as [_ Hq].
  split_and!; [exact Hkey|reflexivity|reflexivity|exact Hq].
Defined.


(** The legend expression of an HRULE whose value ends in a backslash:
    the backslash escapes the colon before the trailing argument, and the
    legend reads back with the trailing argument in it.  This is why the
    round trip is for values that do not end in a backslash. *)
Example backslash_legend_not_read_back :
  let r : @request_rec example_host := ("/rrd/graph\", None) in
  let hrule :=
    default zeroed
      (head (default []
               (@parse_element example_host "HRULE:1#ff:x:dashes"
                  (Some (example_expr "at:")) None []))) in
  @ap_expr_str_exec example_host r (example_expr "at:") = Value "at:/rrd/graph\"
  /\ ends_with_backslash "at:/rrd/graph\" = true
  /\ get hrule r.elegend = Expr (example_expr "at:")
  /\ get hrule r.args = Str "dashes"
  /\ @generate_cmd example_host r (@Cmds example_host [hrule] [] ∅) hrule [] 0
     = OK (["HRULE:1#ff:at\:/rrd/graph\:dashes"], 0)
  /\ split_unescaped "HRULE:1#ff:at\:/rrd/graph\:dashes"
     = ["HRULE"; "1#ff"; "at:/rrd/graph:dashes"]
  /\ ~ reads_back "at:/rrd/graph\" (colonEscape "at:/rrd/graph\") (@args_of example_host (Str "dashes")).
Proof.
  cbv zeta. split_and!; try (vm_compute; reflexivity).
  unfold reads_back. vm_compute. congruence.
Qed.

Lemma colon_escape_round_trip_witness :
  let query := "DEF:a=*.rrd:in:AVERAGE&LINE1:a#ff:x:dashes" in
  let r := example_request query in
  let st := example_state query 2 in
  let cmd := set l.elegend (Expr (example_expr "eth0:")) (example_cmd query 2 1) in
  get cmd l.elegend = Expr (example_expr "eth0:")
  /\ get cmd l.args = Str "dashes"
  /\ generate_cmd r st cmd [] 1
     = OK (["LINE1:aw0#ff:eth0\:h1.rrd:dashes"; "LINE1:aw1#ff:eth0\:h2.rrd:dashes"], 1)
  /\ split_unescaped "LINE1:aw0#ff:eth0\:h1.rrd:dashes"
     = ["LINE1"; "aw0#ff"; "eth0:h1.rrd"; "dashes"]
  /\ reads_back "eth0:h1.rrd" (colonEscape "eth0:h1.rrd") (@args_of example_host (Str "dashes"))
  /\ reads_back "eth0:h2.rrd" (colonEscape "eth0:h2.rrd") (@args_of example_host (Str "dashes")).
Proof.
  intros query r st cmd.
  destruct (colon_escape_round_trip (H := example_host) r st cmd [] 1
              (example_expr "eth0:"))
    as (_ & _ & Hread & _ & _ & Hgraph & _).
  assert (def cmd = Some 0) as Hdef by (vm_compute; reflexivity).
  assert (cmds st !! 0 = Some (example_cmd query 2 0)) as Hdcmd
    by (vm_compute; reflexivity).
  assert (get (example_cmd query 2 0) d.requests
          = Requests [example_source "h1.rrd"; example_source "h2.rrd"]) as Hreq
    by (vm_compute; reflexivity).
  assert (forall j, j < num (example_cmd query 2 0) ->
            exists rr, [example_source "h1.rrd"; example_source "h2.rrd"] !! j = Some rr
                       /\ @ap_expr_str_exec example_host rr (example_expr "eth0:")
                          = Value ("eth0:" +:+ "h" +:+ dec (S j) +:+ ".rrd")) as Hval.
  { intros j Hj. change (num (example_cmd query 2 0)) with 2 in Hj.
    destruct j as [|[|j]]; [eexists; split; reflexivity..|lia]. }
  destruct (Hgraph 0 _ _ _ Hdef Hdcmd Hreq Hval) as (Hline & _).
  assert (type cmd = RRD_CONF_LINE) as Hty by (vm_compute; reflexivity).
  assert (get cmd l.elegend = Expr (example_expr "eth0:")) as He
    by (vm_compute; reflexivity).
  specialize (Hline Hty He).
  split_and!; [exact He|vm_compute; reflexivity| |vm_compute; reflexivity
              |apply Hread; by left|apply Hread; by left].
  vm_compute in Hline |- *. exact Hline.
Defined.

(** ** Witnesses of the further properties *)

Lemma getword_quote_word_witness :
  getword_quote ("LAST" +:+ String ":" "%6.2lf\n") ":" = ("LAST", "%6.2lf\n")
  /\ getword_quote "LAST" ":" = ("LAST", "").
Proof.
  apply (getword_quote_word "LAST" "%6.2lf\n"); [reflexivity|reflexivity|].
  split; discriminate.
Defined.

Lemma getword_quote_quoted_round_trip_witness :
  let q := "'"%char in
  let t := "dad's \ disk: used" in
  getword_quote (String q (quote_escape q t +:+ String q ("x" +:+ String ":" "dashes"))) ":"
  = (t, "dashes")
  /\ getword_quote (String q (quote_escape q t +:+ String q "x")) ":" = (t, "")
  /\ getword_quote (String q (quote_escape q t)) ":" = (t, "").
Proof.
  intros q t.
  apply (getword_quote_quoted_round_trip q t "x" "dashes"); [by right|reflexivity].
Defined.

Lemma parse_element_def_fields_witness :
  exists cmd,
    @parse_element example_host
      ("DEF:" +:+ "a" +:+ "=" +:+ "*.rrd" +:+ ":" +:+ "in" +:+ ":" +:+ "AVERAGE:step=60")
      (Some (example_expr "/data/")) None [] = Some ([] ++ [cmd])
    /\ type cmd = RRD_CONF_DEF /\ num cmd = 0 /\ def cmd = None
    /\ get cmd d.vname = Str "a"
    /\ get cmd d.path = Str "*.rrd"
    /\ get cmd d.dsname = Str "in"
    /\ get cmd d.cf = Str (skip_char ":" "AVERAGE:step=60")
    /\ get cmd d.requests = Requests []
    /\ get cmd d.epath = of_expr (Some (example_expr "/data/"))
    /\ get cmd d.edirpath = of_expr None.
Proof.
  apply (parse_element_def_fields (H := example_host) "a" "*.rrd" "in" "AVERAGE:step=60");
    [reflexivity|reflexivity|reflexivity|reflexivity|discriminate].
Defined.

Lemma parse_element_line_fields_witness :
  (exists cmd,
    @parse_element example_host
      ("LINE" +:+ "2" +:+ ":" +:+ "a" +:+ "#" +:+ "ff0000" +:+ ":" +:+ "in:dashes")
      None None [] = Some ([] ++ [cmd])
    /\ type cmd = RRD_CONF_LINE /\ num cmd = 0 /\ def cmd = None
    /\ get cmd l.line = Str ("LINE" +:+ "2")
    /\ get cmd l.vname = Str "a"
    /\ get cmd l.colour = Str "ff0000"
    /\ get cmd l.legend = Str (getword_quote (skip_char ":" "in:dashes") ":").1
    /\ get cmd l.elegend = of_expr None
    /\ get cmd l.args = Str (getword_quote (skip_char ":" "in:dashes") ":").2)
  /\ (exists cmd,
    @parse_element example_host ("LINE" +:+ "2" +:+ ":" +:+ "a" +:+ ":" +:+ "in:dashes")
      None None [] = Some ([] ++ [cmd])
    /\ type cmd = RRD_CONF_LINE
    /\ get cmd l.line = Str ("LINE" +:+ "2")
    /\ get cmd l.vname = Str "a"
    /\ get cmd l.colour = Str ""
    /\ get cmd l.legend = Str (getword_quote (skip_char ":" "in:dashes") ":").1
    /\ get cmd l.args = Str (getword_quote (skip_char ":" "in:dashes") ":").2
    /\ forall legend,
         line_fmt1 cmd (Str legend)
         = "LINE" +:+ "2" +:+ ":" +:+ "a" +:+ "#:" +:+ legend
           +:+ args_of (get cmd l.args)).
Proof.
  apply (parse_element_line_fields (H := example_host) "2" "a" "ff0000" "in:dashes");
    [reflexivity|discriminate|reflexivity|reflexivity|reflexivity].
Defined.

Lemma parse_element_cdef_tokens_witness :
  let toks := ["a"; "8"; "*"] in
  (exists cmd,
    @parse_element example_host ("CDEF:" +:+ "bits" +:+ "=" +:+ String.concat "," toks)
      None None [] = Some ([] ++ [cmd])
    /\ type cmd = RRD_CONF_CDEF /\ num cmd = 0 /\ def cmd = None
    /\ get cmd c.vname = Str "bits"
    /\ get cmd c.rpn = Str (String.concat "," toks)
    /\ get cmd c.rpns = Rpns ((fun tok => Rpn tok None) <$> toks)
    /\ get cmd c.ref = NULL)
  /\ (forall rest, exists cmd rpns,
    @parse_element example_host ("CDEF:" +:+ rest) None None [] = Some ([] ++ [cmd])
    /\ get cmd c.rpns = Rpns rpns
    /\ Forall (fun rp => rpn rp <> "" /\ lacks "," (rpn rp) /\ rpn_def rp = None) rpns).
Proof.
  intros toks.
  apply (parse_element_cdef_tokens (H := example_host) "bits" toks);
    [reflexivity| |reflexivity].
  repeat constructor; discriminate.
Defined.

Lemma unnamed_graph_element_faults_witness :
  exists cmd,
    @parse_element example_host ("AREA:" +:+ "#" +:+ ":" +:+ "in") None None []
    = Some ([] ++ [cmd])
    /\ reference cmd = Some NULL
    /\ forall st i, cmds st !! i = Some cmd ->
         resolve_cmd example_conf i (example_request "", st) = Fault.
Proof.
  apply (unnamed_graph_element_faults (H := example_host) "#" "1" "in" []
           example_conf (example_request "") eq_refl eq_refl).
  by left.
Defined.

Lemma parse_query_appends_witness :
  let st := example_parsed in
  names st = ∅
  /\ exists cs os,
      cmds st = elements example_directives ++ cs
      /\ opts st = options example_directives ++ os
      /\ (forall cmd, cmd ∈ cs -> parsed cmd).
Proof.
  intros st.
  apply (parse_query_appends (H := example_host) (example_request example_query)
           example_directives st).
  vm_compute. reflexivity.
Defined.

Lemma query_holds_no_expression_witness :
  let st := example_parsed in
  (forall i cmd, length (elements example_directives) <= i ->
     cmds st !! i = Some cmd -> forall m expr, get cmd m <> Expr expr)
  /\ (forall i opt, length (options example_directives) <= i ->
        opts st !! i = Some opt ->
        key opt ∈ keys_with_value /\ is_Some (val opt) /\ eval opt = None).
Proof.
  intros st.
  apply (query_holds_no_expression (H := example_host) (example_request example_query)
           example_directives st).
  vm_compute. reflexivity.
Defined.

Lemma parse_query_equals_faults_witness :
  parse_query (example_request "==") example_directives = Fault.
Proof.
  apply (parse_query_equals_faults (H := example_host) example_directives
           (example_request "==") "==" "==");
    [reflexivity|discriminate|reflexivity|reflexivity|reflexivity].
Defined.

Lemma resolve_def_walk_sources_witness :
  let r := example_request "" in
  let cmd := set d.requests (Requests [example_source "old.rrd"]) (set_num 1 zeroed) in
  let found := List.filter status_ok
                 ((fun fname => ap_sub_req_lookup_file fname r) <$> ["h1.rrd"; "h2.rrd"]) in
  exists cmd',
    resolve_def_walk r ["h1.rrd"; "h2.rrd"] cmd = OK cmd'
    /\ get cmd' d.requests = Requests ([example_source "old.rrd"] ++ found)
    /\ num cmd' = num cmd + length found
    /\ type cmd' = type cmd /\ def cmd' = def cmd
    /\ forall m, m <> d.requests -> get cmd' m = get cmd m.
Proof.
  intros r cmd found.
  apply (resolve_def_walk_sources (H := example_host) r ["h1.rrd"; "h2.rrd"] cmd
           [example_source "old.rrd"]).
  reflexivity.
Defined.

Lemma resolve_rrds_keeps_witness :
  let st := example_parsed in
  let st' := example_resolved.2 in
  opts st' = opts st
  /\ length (cmds st') = length (cmds st)
  /\ forall i cmd, cmds st !! i = Some cmd ->
       exists cmd', cmds st' !! i = Some cmd'
                    /\ type cmd' = type cmd
                    /\ defines cmd' = defines cmd
                    /\ reference cmd' = reference cmd
                    /\ forall m, ~ resolver_writes (type cmd) m ->
                                 get cmd' m = get cmd m.
Proof.
  intros st st'.
  apply (resolve_rrds_keeps (H := example_host) example_directives
           (example_request example_query) example_resolved.1 st st').
  vm_compute. reflexivity.
Defined.

Lemma example_directives_configured :
  forall cmd, cmd ∈ elements example_directives -> configured cmd.
Proof.
  intros cmd Hcmd. change (elements example_directives) with
    (default [] (@parse_element example_host "DEF:a=*.rrd:in:AVERAGE" None None [])) in Hcmd.
  destruct (parse_element _ _ _ _) as [cmds'|] eqn:Hp; [|by apply elem_of_nil in Hcmd].
  pose proof Hp as Hp'.
  apply (parse_element_parsed (H := example_host)) in Hp as (c & -> & Hparsed & _).
  apply (parse_element_shaped (H := example_host)) in Hp' as (c' & Heq & Hsh).
  apply app_inj_tail in Heq as [_ <-].
  apply list_elem_of_singleton in Hcmd as ->. by split.
Qed.

Lemma resolve_rrds_backing_witness :
  let st' := example_resolved.2 in
  (forall i cmd dp,
      cmds st' !! i = Some cmd -> def cmd = Some dp ->
      exists dcmd requests,
        cmds st' !! dp = Some dcmd
        /\ type dcmd = RRD_CONF_DEF /\ def dcmd = Some dp
        /\ get dcmd d.requests = Requests requests /\ length requests = num dcmd
        /\ (is_Some (defines cmd) -> num cmd = num dcmd))
  /\ (forall n j, names st' !! n = Some j ->
        exists cmd, cmds st' !! j = Some cmd /\ is_Some (defines cmd)).
Proof.
  intros st'.
  apply (resolve_rrds_backing (H := example_host) example_directives
           (example_request example_query) example_resolved.1 example_parsed st');
    [|vm_compute; reflexivity|vm_compute; reflexivity].
  intros cmd Hcmd. by apply example_directives_configured.
Defined.

Lemma generate_def_daemon_exact_witness :
  let cmd := example_cmd "DEF:a=one.rrd:in:AVERAGE:step=1:daemon=x" 1 0 in
  (generate_def cmd [] = Failed HTTP_BAD_REQUEST daemon_message
   <-> exists pre post, "AVERAGE:step=1:daemon=x" = pre +:+ ":daemon=" +:+ post)
  /\ forall status message,
       generate_def cmd [] = Failed status message ->
       status = HTTP_BAD_REQUEST /\ message = daemon_message.
Proof.
  intros cmd.
  apply (generate_def_daemon_exact (H := example_host) cmd "AVERAGE:step=1:daemon=x" []).
  reflexivity.
Defined.

Lemma doubled_colon_daemon_passes_witness :
  exists cmd,
    @parse_element example_host
      ("DEF:" +:+ "a" +:+ "=" +:+ "one.rrd" +:+ ":" +:+ "in" +:+ "::daemon=" +:+ "unix")
      None None [] = Some ([] ++ [cmd])
    /\ get cmd d.cf = Str ("daemon=" +:+ "unix")
    /\ generate_def (set d.requests (Requests [example_source "one.rrd"]) cmd) []
       = OK ([] ++ ["DEF:" +:+ "a" +:+ "=" +:+ pescape_colon (filename (example_source "one.rrd"))
                    +:+ ":" +:+ "in" +:+ ":daemon=" +:+ "unix"]).
Proof.
  apply (doubled_colon_daemon_passes (H := example_host) "a" "one.rrd" "in" "unix" []
           (example_source "one.rrd") []);
    [reflexivity|reflexivity|reflexivity|reflexivity|discriminate|reflexivity].
Defined.

Lemma generate_args_header_witness :
  let r' := example_resolved.1 in
  let st' := example_resolved.2 in
  let args :=
    ["rrdgraph"; "-"; "--imgformat"; "PNG"; "--title"; "hosts of /rrd/graph.png";
     "--title"; "x"; "DEF:aw0=h1.rrd:in:AVERAGE"; "DEF:aw1=h2.rrd:in:AVERAGE";
     "CDEF:a=aw0,aw1,+"; "LINE1:aw0#ff0000:in"; "LINE1:aw1#ff0000:in"] in
  exists format0 oargs rest,
    Some "PNG" = Some format0
    /\ generate_opts r' (opts st') ["rrdgraph"; "-"; "--imgformat"; format0]
       = OK (["rrdgraph"; "-"; "--imgformat"; format0] ++ oargs)
    /\ args = ["rrdgraph"; "-"; "--imgformat"; format0] ++ oargs ++ rest
    /\ forall (cmd : rrd_cmd_t) (args0 : list string) (i : nat) args1 i1,
         generate_cmd r' st' cmd args0 i = OK (args1, i1) ->
         args0 `prefix_of` args1.
Proof.
  intros r' st' args.
  apply (generate_args_header (H := example_host) r' st' (Some "PNG") args).
  vm_compute. reflexivity.
Defined.

Lemma generate_args_no_fault_witness :
  let r0 := example_request "" in
  let st' := example_resolved.2 in
  (exists args, generate_args r0 st' (Some "SVG") = OK args)
  \/ (exists status message, generate_args r0 st' (Some "SVG") = Failed status message).
Proof.
  intros r0 st'.
  apply (generate_args_no_fault (H := example_host) example_directives
           (example_request example_query) example_resolved.1 example_parsed st');
    [apply example_directives_configured|vm_compute; reflexivity|vm_compute; reflexivity].
Defined.

Lemma parse_rrdgraph_suffix_recognises_witness :
  parse_rrdgraph_suffix ("/var/www.d/rrd" +:+ "/" +:+ "load" +:+ "." +:+ "JsonTime")
  = Some "JSONTIME"
  /\ is_Some (lookup_content_type "JSONTIME").
Proof.
  apply (parse_rrdgraph_suffix_recognises "/var/www.d/rrd" "load" "JsonTime" "JSONTIME");
    [|reflexivity|reflexivity].
  unfold graph_formats. set_solver.
Defined.



(** A request that fails in the resolver, after the DEF of the
    configuration matched its files: the LINE refers to a name that is not
    there, and the two sources of the DEF are left in the configuration *)
Example failed_request_leaves_sources :
  let r := example_request "LINE1:zz#ff0000:in" in
  let error := fun _ : list string => "no data" in
  let pass := fun (_ : @request_rec example_host) (_ : string) => true in
  let out := get_rrdgraph example_rrd_graph_v error pass example_directives r in
  out.1 = failed HTTP_BAD_REQUEST "While parsing LINE: 'zz' was not found" None
  /\ exists conf',
      out.2 = Some conf'
      /\ get (default zeroed (elements conf' !! 0)) d.requests
         = Requests [example_source "h1.rrd"; example_source "h2.rrd"].
Proof.
  cbv zeta. split; [vm_compute; reflexivity|].
  eexists. split; [reflexivity|vm_compute; reflexivity].
Qed.

Lemma resolve_def_env_values_set_witness :
  let eval0 := example_expr "/data/" in
  let requests :=
    [example_source "h1.rrd"; example_source "h2.rrd"; example_source "h1.rrd"] in
  exists set,
    resolve_def_env_values eval0 requests [] = OK set
    /\ NoDup set
    /\ forall v, v ∈ set <->
         v <> "" /\ exists rr, rr ∈ requests /\ ap_expr_str_exec rr eval0 = Value v.
Proof.
  intros eval0 requests.
  destruct (resolve_def_env_values_set (H := example_host) eval0 requests)
    as [Hset Htotal].
  destruct Htotal as [set Hs].
  { intros rr _. by eexists. }
  exists set. split; [exact Hs|]. by apply Hset.
Defined.

Lemma parse_rrdgraph_suffix_known_witness :
  parse_rrdgraph_suffix "/var/www.d/load" = None
  /\ parse_rrdgraph_suffix "graph.png" = None.
Proof.
  destruct (parse_rrdgraph_suffix_known "/var/www.d/load") as (_ & _ & Hdot).
  destruct (parse_rrdgraph_suffix_known "graph.png") as (_ & Hslash & _).
  split; [apply (Hdot "/var/www.d" "load"); reflexivity|apply Hslash; reflexivity].
Defined.

Lemma merge_rrd_config_fresh_witness :
  let conf := (Config.set_rrd_graph_format (@Config.create_rrd_config example_host)
                 "PNG").2 in
  Config.merge_rrd_config Config.create_rrd_config conf = conf.
Proof.
  intros conf.
  destruct (merge_rrd_config_fresh (H := example_host) conf) as (_ & Hfresh & _).
  apply Hfresh. unfold Config.unset_is_default. cbn. split_and!; done.
Defined.

Lemma set_rrd_graph_option_accepts_witness :
  let parse := (fun v => inl v) : string -> @ap_expr_info_t example_host + string in
  let conf := @Config.create_rrd_config example_host in
  exists opt,
    (Config.set_rrd_graph_option parse conf "title" (Some "x")).2
    = Config.with_options (Config.options conf ++ [opt]) conf
    /\ key opt = "title" /\ val opt = Some "x"
    /\ (is_Some (eval opt) <-> is_Some (Some "x")).
Proof.
  intros parse conf.
  destruct (set_rrd_graph_option_accepts (H := example_host) parse conf "title"
              (Some "x")) as (_ & _ & Hopt).
  apply Hopt. reflexivity.
Defined.

Lemma built_configuration_invariant_witness :
  let parse := (fun v => inl v) : string -> @ap_expr_info_t example_host + string in
  let conf :=
    Config.merge_rrd_config
      (Config.set_rrd_graph_option parse Config.create_rrd_config "title"
         (Some "hosts")).2
      (Config.set_rrd_graph_element parse Config.create_rrd_config
         "DEF:a=*.rrd:in:AVERAGE" (Some "/data/") None).2 in
  (forall cmd, cmd ∈ Config.elements conf -> configured cmd)
  /\ (forall opt, opt ∈ Config.options conf -> directive_option opt)
  /\ Config.unset_is_default conf
  /\ Config.location conf = None.
Proof.
  intros parse conf.
  apply (built_configuration_invariant (H := example_host) parse conf).
  apply Config.built_merge;
    [apply Config.built_option|apply Config.built_element]; apply Config.built_create.
Defined.
